(** * xud peer pool (lib/p2p/Pool.ts): a shallow embedding

    The class [Pool] keeps three collections of [Peer] objects (the map
    [peers] of opened peers, the map [pendingOutboundPeers] and the set
    [pendingInboundPeers]) and drives them from asynchronous methods.

    - Data is modelled as the class has it: the two [Map<string, Peer>] as
      insertion-ordered association lists ([JsMap]), the [Set<Peer>] as an
      insertion-ordered list of object identities, the [Peer] objects in a
      store indexed by identity, so that a peer held in two collections is
      one object; the object literals of the advertised node state as
      dictionaries of own properties under a prototype ([JsObject]).
    - An [async] method is a tree of synchronous stretches separated by
      [await]s of external promises ([Pool.Async]).  [Pool.sync] runs one
      stretch, [Pool.run] runs a method to its end against an oracle that
      settles the awaited promises, and [Pool.step] interleaves the tasks
      of the event loop.
    - The methods that serve the rest of the daemon (look-ups, targeted
      sends, broadcasts, the advertised node state, the dispatch of
      packets and the listeners of a peer) are read one at a time, from
      call to end ([Method]): a function of the state of the object and of
      what the outside answers, to the final state, the calls made in
      order, and the value returned or the error thrown.
    - [Peer], [NodeList], [addressUtils], [errors], the enums and the
      [semver] package are not part of the sources at hand; what [Pool]
      needs from them is either a parameter or modelled from the
      specification, and says so. *)

From Stdlib Require Import String Ascii ZArith List Bool Permutation.
From Stdlib Require Import Sorting.Sorted.
From Stdlib Require Import FunctionalExtensionality.
From stdpp Require Import base tactics option list strings relations gmap.

Local Open Scope string_scope.
Local Open Scope Z_scope.
Local Open Scope list_scope.

(** ** Enumerations *)

(** Modelled from the spec: the enum [DisconnectionReason] of
    lib/constants/enums, which is not among the sources; the members and
    their wire codes are the ones section 6 of the specification lists. *)
Module DisconnectionReason.
Inductive t :=
| Shutdown
| IncompatibleProtocolVersion
| MalformedVersion
| Banned
| AlreadyConnected
| ConnectedToSelf
| NotAcceptingConnections
| ResponseStalling
| WireProtocolErr.

#[global] Instance eq_dec : EqDecision t.
Proof. solve_decision. Defined.

Definition code (r : t) : Z :=
  match r with
  | Shutdown => 1
  | IncompatibleProtocolVersion => 2
  | MalformedVersion => 3
  | Banned => 4
  | AlreadyConnected => 5
  | ConnectedToSelf => 6
  | NotAcceptingConnections => 7
  | ResponseStalling => 8
  | WireProtocolErr => 9
  end.
End DisconnectionReason.

(** Modelled from the spec: the enum [ReputationEvent] of
    lib/constants/enums, which is not among the sources.  The named members
    are those [Pool.addReputationEvent] tests for and the one more that
    section 4.3 of the specification mentions; [OtherReputationEvent] stands
    for every remaining member, by its number. *)
Module ReputationEvent.
Inductive t :=
| ManualBan
| ManualUnban
| SwapAbuse
| SwapMisbehavior
| WireProtocolErr
| InvalidAuth
| SwapSuccess
| OtherReputationEvent (code : N).

#[global] Instance eq_dec : EqDecision t.
Proof. solve_decision. Defined.
End ReputationEvent.

(** ** Addresses (lib/p2p/types and lib/utils/addressUtils) *)

Module Address.
Record t := mk {
  host : string;
  port : Z;
  lastConnected : option Z;
}.

#[global] Instance eq_dec : EqDecision t.
Proof. solve_decision. Defined.
End Address.

Module addressUtils.

(** Modelled from the spec: [addressUtils.areEqual], not among the
    sources; "equality ignores lastConnected". *)
Definition areEqual (a b : Address.t) : bool :=
  bool_decide (Address.host a = Address.host b)
  && bool_decide (Address.port a = Address.port b).

(** The time an address was last connected to; an address that never was
    sorts as the oldest. *)
Definition connectedAt (a : Address.t) : Z :=
  default 0 (Address.lastConnected a).

Fixpoint insertByLastConnected (a : Address.t) (l : list Address.t)
  : list Address.t :=
  match l with
  | [] => [a]
  | b :: l' =>
      if connectedAt b <=? connectedAt a
      then a :: b :: l'
      else b :: insertByLastConnected a l'
  end.

(** Modelled from the spec: [addressUtils.sortByLastConnected], not among
    the sources; a copy of the list "sorted by lastConnected descending".
    The sort is stable, as Array.prototype.sort is. *)
Definition sortByLastConnected (l : list Address.t) : list Address.t :=
  foldr insertByLastConnected [] l.

End addressUtils.

(** ** Insertion-ordered maps with string keys (the JavaScript [Map]) *)

Module JsMap.
Section Ops.
Context {V : Type}.

Fixpoint get (k : string) (m : list (string * V)) : option V :=
  match m with
  | [] => None
  | (k', v) :: m' => if decide (k' = k) then Some v else get k m'
  end.

Definition has (k : string) (m : list (string * V)) : bool :=
  match get k m with Some _ => true | None => false end.

(** [set] keeps the position of a key that is present and appends a new
    one. *)
Fixpoint set (k : string) (v : V) (m : list (string * V))
  : list (string * V) :=
  match m with
  | [] => [(k, v)]
  | (k', v') :: m' =>
      if decide (k' = k) then (k, v) :: m' else (k', v') :: set k v m'
  end.

Fixpoint delete (k : string) (m : list (string * V)) : list (string * V) :=
  match m with
  | [] => []
  | (k', v') :: m' =>
      if decide (k' = k) then delete k m' else (k', v') :: delete k m'
  end.

Definition keys (m : list (string * V)) : list string := m.*1.
Definition values (m : list (string * V)) : list V := m.*2.
End Ops.
Abbreviation t V := (list (string * V)).
End JsMap.

(** ** Errors (lib/p2p/errors) *)

(** Modelled from the spec: the error kinds of lib/p2p/errors, which is not
    among the sources; the identifiers are those of section 7 of the
    specification, with the arguments [Pool] passes to them.  [OTHER] is any
    other rejection of an awaited promise, [ASSERTION] a failed [assert]. *)
Module errors.
Inductive t :=
| ATTEMPTED_CONNECTION_TO_SELF
| POOL_CLOSED
| NODE_TOR_ADDRESS (nodePubKey : string) (address : Address.t)
| NODE_IS_BANNED (nodePubKey : string)
| NODE_ALREADY_CONNECTED (nodePubKey : string) (address : Address.t)
| NODE_ALREADY_BANNED (nodePubKey : string)
| NODE_NOT_BANNED (nodePubKey : string)
| ALREADY_CONNECTING (nodePubKey : string)
| NOT_CONNECTED (nodePubKey : string)
| NODE_NOT_FOUND (nodePubKey : string)
| MALFORMED_VERSION (address : Address.t) (peerVersion : string)
| INCOMPATIBLE_VERSION (address : Address.t) (minCompatibleVersion peerVersion : string)
| CONNECTION_RETRIES_MAX_PERIOD_EXCEEDED
| ASSERTION
| OTHER (message : string).

#[global] Instance eq_dec : EqDecision t.
Proof. solve_decision. Defined.
End errors.

(** ** The semver package *)

(** [semver.valid] and [semver.compare] belong to an npm package; the pool
    is verified against any implementation of them.  [semver_compare] is
    [None] where [semver.compare] throws (a version it cannot parse). *)
Class Semver : Type := {
  semver_valid : string -> bool;
  semver_compare : string -> string -> option comparison;
}.

(** ** Peers (lib/p2p/Peer) *)

(** Peer objects are referred to by identity. *)
Abbreviation PeerId := nat.

(** Modelled from the spec: the fields of a [Peer] that [Pool] reads or
    writes (lib/p2p/Peer is not among the sources).  [connected] is a getter
    on the socket; [addresses] are the listening addresses of the peer's
    advertised node state, [None] while unknown. *)
Module Peer.
Record t := mk {
  inbound : bool;
  address : Address.t;
  nodePubKey : option string;
  version : string;
  addresses : option (list Address.t);
  active : bool;
  connected : bool;
  sentDisconnectionReason : option DisconnectionReason.t;
  recvDisconnectionReason : option DisconnectionReason.t;
}.

(** [new Peer(logger, address, network)]: an outbound peer that has not
    dialled yet. *)
Definition create (address : Address.t) : t :=
  mk false address None "" None false false None None.

Definition with_active (b : bool) (peer : t) : t :=
  mk (inbound peer) (address peer) (nodePubKey peer) (version peer)
     (addresses peer) b (connected peer)
     (sentDisconnectionReason peer) (recvDisconnectionReason peer).
End Peer.

(** An accepted socket: [remoteAddress] is undefined once the client has
    gone. *)
Module Socket.
Record t := mk {
  remoteAddress : option string;
  remotePort : Z;
}.
End Socket.

(** What the remote side presented in its [Hello], and whether the socket
    was still up when [beginOpen] resolved. *)
Module Hello.
Record t := mk {
  nodePubKey : string;
  version : string;
  addresses : list Address.t;
  socketAlive : bool;
}.
End Hello.

(** [Peer.fromInbound(socket, logger, network)], with the address
    [addressUtils.fromSocket] reads off the socket. *)
Definition Peer_fromInbound (socket : Socket.t) : Peer.t :=
  Peer.mk true
    (Address.mk (default "" (Socket.remoteAddress socket))
                (Socket.remotePort socket) None)
    None "" None false true None None.

(** Modelled from the spec: what a resolved [beginOpen] leaves in the peer,
    "a Hello containing version, nodePubKey, nodeState". *)
Definition Peer_greeted (h : Hello.t) (peer : Peer.t) : Peer.t :=
  Peer.mk (Peer.inbound peer) (Peer.address peer)
    (Some (Hello.nodePubKey h)) (Hello.version h) (Some (Hello.addresses h))
    (Peer.active peer) (Hello.socketAlive h)
    (Peer.sentDisconnectionReason peer) (Peer.recvDisconnectionReason peer).

(** ** The node list (lib/p2p/NodeList) *)

(** Modelled from the spec: the part of [NodeList] the pool consults, the
    ban state of a public key ("isBanned(pubKey)"); lib/p2p/NodeList is not
    among the sources. *)
Module NodeList.
Record t := mk {
  banned : list string;
}.

Definition isBanned (nodePubKey : string) (nodes : t) : bool :=
  bool_decide (nodePubKey ∈ banned nodes).
End NodeList.

(** [NodeConnectionInfo] of lib/p2p/types. *)
Module NodeConnectionInfo.
Record t := mk {
  nodePubKey : string;
  addresses : list Address.t;
  lastAddress : option Address.t;
}.
End NodeConnectionInfo.

(** The options of [PoolConfig] that the modelled methods read. *)
Module PoolConfig.
Record t := mk {
  listen : bool;
  port : Z;
  detectexternalip : bool;
  tor : bool;
}.
End PoolConfig.

(** ** The pool *)

Module Pool.

(** The fields of the class.  [server] is [Some listening] when the pool was
    configured to listen; [loadingNodesPromise] tells whether the promise is
    set; [store] holds the [Peer] objects, which the three collections refer
    to by identity. *)
Record t := mk {
  nodePubKey : string;
  version : string;
  minCompatibleVersion : string;
  strict : bool;
  config : PoolConfig.t;
  listenPort : option Z;
  server : option bool;
  loadingNodesPromise : bool;
  disconnecting : bool;
  connected : bool;
  nodes : NodeList.t;
  store : list Peer.t;
  peers : JsMap.t PeerId;
  pendingOutboundPeers : JsMap.t PeerId;
  pendingInboundPeers : list PeerId;
}.

Definition with_listenPort (x : option Z) (p : t) : t :=
  mk (nodePubKey p) (version p) (minCompatibleVersion p) (strict p) (config p)
     x (server p) (loadingNodesPromise p) (disconnecting p)
     (connected p) (nodes p) (store p) (peers p) (pendingOutboundPeers p)
     (pendingInboundPeers p).

Definition with_server (x : option bool) (p : t) : t :=
  mk (nodePubKey p) (version p) (minCompatibleVersion p) (strict p) (config p)
     (listenPort p) x (loadingNodesPromise p) (disconnecting p)
     (connected p) (nodes p) (store p) (peers p) (pendingOutboundPeers p)
     (pendingInboundPeers p).

Definition with_loadingNodesPromise (x : bool) (p : t) : t :=
  mk (nodePubKey p) (version p) (minCompatibleVersion p) (strict p) (config p)
     (listenPort p) (server p) x (disconnecting p)
     (connected p) (nodes p) (store p) (peers p) (pendingOutboundPeers p)
     (pendingInboundPeers p).

Definition with_disconnecting (x : bool) (p : t) : t :=
  mk (nodePubKey p) (version p) (minCompatibleVersion p) (strict p) (config p)
     (listenPort p) (server p) (loadingNodesPromise p) x
     (connected p) (nodes p) (store p) (peers p) (pendingOutboundPeers p)
     (pendingInboundPeers p).

Definition with_connected (x : bool) (p : t) : t :=
  mk (nodePubKey p) (version p) (minCompatibleVersion p) (strict p) (config p)
     (listenPort p) (server p) (loadingNodesPromise p) (disconnecting p)
     x (nodes p) (store p) (peers p) (pendingOutboundPeers p)
     (pendingInboundPeers p).

Definition with_store (x : list Peer.t) (p : t) : t :=
  mk (nodePubKey p) (version p) (minCompatibleVersion p) (strict p) (config p)
     (listenPort p) (server p) (loadingNodesPromise p) (disconnecting p)
     (connected p) (nodes p) x (peers p) (pendingOutboundPeers p)
     (pendingInboundPeers p).

Definition with_peers (x : JsMap.t PeerId) (p : t) : t :=
  mk (nodePubKey p) (version p) (minCompatibleVersion p) (strict p) (config p)
     (listenPort p) (server p) (loadingNodesPromise p) (disconnecting p)
     (connected p) (nodes p) (store p) x (pendingOutboundPeers p)
     (pendingInboundPeers p).

Definition with_pendingOutboundPeers (x : JsMap.t PeerId) (p : t) : t :=
  mk (nodePubKey p) (version p) (minCompatibleVersion p) (strict p) (config p)
     (listenPort p) (server p) (loadingNodesPromise p) (disconnecting p)
     (connected p) (nodes p) (store p) (peers p) x
     (pendingInboundPeers p).

Definition with_pendingInboundPeers (x : list PeerId) (p : t) : t :=
  mk (nodePubKey p) (version p) (minCompatibleVersion p) (strict p) (config p)
     (listenPort p) (server p) (loadingNodesPromise p) (disconnecting p)
     (connected p) (nodes p) (store p) (peers p) (pendingOutboundPeers p)
     x.

(** The constructor: nothing connected, every collection empty; a server
    object exists when [config.listen] is set.  [nodes] is the node list as
    the repository holds it. *)
Definition create (config : PoolConfig.t) (nodePubKey version : string)
    (strict : bool) (minCompatibleVersion : string) (nodes : NodeList.t) : t :=
  mk nodePubKey version minCompatibleVersion strict config
     (if PoolConfig.listen config then Some (PoolConfig.port config) else None)
     (if PoolConfig.listen config then Some false else None)
     false false false nodes [] [] [] [].

(** *** What the pool does to the objects around it *)

(** Events the pool emits to its own subscribers. *)
Inductive PoolEvent :=
| peer_active (peerPubKey : string)
| peer_close (peerPubKey : option string)
| peer_verifyPairs (peer : PeerId).

(** Calls on the collaborators, in the order the pool makes them.  The last
    two are not calls of a method: the promise [openPeer] builds around the
    [close] event of the existing peer and a stall timer, and the detached
    [handleOpenedPeer] routine.  A promise is named by the call that made
    it: the promise kept in [loadingNodesPromise] is that of [Nodes_load]
    (line 192). *)
Inductive ExtCall :=
| Peer_on (peer : PeerId)
| Peer_beginOpen (peer : PeerId) (expectedNodePubKey : option string)
    (retryConnecting : bool)
| Peer_completeOpen (peer : PeerId)
| Peer_close (peer : PeerId) (reason : option DisconnectionReason.t)
| Peer_revokeConnectionRetries (peer : PeerId)
| Peer_removeAllListeners (peer : PeerId)
| Peer_sendNodes (peer : PeerId) (nodes : list NodeConnectionInfo.t)
    (reqId : string)
| Socket_destroy (socket : Socket.t)
| Server_listen (port : Z)
| Server_on
| Server_close
| Server_onceClose
| Nodes_on
| Nodes_load
| Nodes_removeAddress (nodePubKey : string) (address : Address.t)
| Nodes_addReputationEvent (nodePubKey : string) (event : ReputationEvent.t)
| GetExternalIp
| VerifyReachability
| Emit (event : PoolEvent)
| Peer_onceCloseOrStall (existing : PeerId)
| HandleOpenedPeer (peer : PeerId).

(** How an awaited promise settles. *)
Inductive Outcome :=
| Resolved
| Rejected (e : errors.t)
| Greeted (h : Hello.t)
| StillConnected (b : bool)
| Listening (port : Z).

(** *** Asynchronous methods *)

(** A method body: it returns or throws, reads or writes the fields of the
    pool, calls a collaborator, or awaits the promises of calls it started
    ([Promise.all] when several), continuing with the way they settle. *)
Inductive Async (A : Type) : Type :=
| Ret (a : A)
| Throw (e : errors.t)
| Get (k : t -> Async A)
| Put (p : t) (k : Async A)
| Do (c : ExtCall) (k : Async A)
| Await (cs : list ExtCall) (k : Outcome -> Async A).
Arguments Ret {A} a.
Arguments Throw {A} e.
Arguments Get {A} k.
Arguments Put {A} p k.
Arguments Do {A} c k.
Arguments Await {A} cs k.

Fixpoint bind {A B : Type} (m : Async A) (f : A -> Async B) : Async B :=
  match m with
  | Ret a => f a
  | Throw e => Throw e
  | Get k => Get (fun p => bind (k p) f)
  | Put p k => Put p (bind k f)
  | Do c k => Do c (bind k f)
  | Await cs k => Await cs (fun o => bind (k o) f)
  end.

#[global] Instance Async_ret : MRet Async := @Ret.
#[global] Instance Async_bind : MBind Async := fun A B f m => bind m f.

(** [try m catch (e) h]. *)
Fixpoint catch {A : Type} (m : Async A) (h : errors.t -> Async A) : Async A :=
  match m with
  | Ret a => Ret a
  | Throw e => h e
  | Get k => Get (fun p => catch (k p) h)
  | Put p k => Put p (catch k h)
  | Do c k => Do c (catch k h)
  | Await cs k => Await cs (fun o => catch (k o) h)
  end.

(** [try m finally f]. *)
Fixpoint finally {A : Type} (m : Async A) (f : Async unit) : Async A :=
  match m with
  | Ret a => f ;; Ret a
  | Throw e => f ;; Throw e
  | Get k => Get (fun p => finally (k p) f)
  | Put p k => Put p (finally k f)
  | Do c k => Do c (finally k f)
  | Await cs k => Await cs (fun o => finally (k o) f)
  end.

Definition get : Async t := Get Ret.
Definition modify (f : t -> t) : Async unit := Get (fun p => Put (f p) (Ret tt)).
Definition perform (c : ExtCall) : Async unit := Do c (Ret tt).

(** [await c(...)]: start the call and wait for its promise. *)
Definition call (c : ExtCall) : Async Outcome := Do c (Await [c] Ret).

(** The same for a [Promise<void>]: a rejection is thrown on. *)
Definition settled (o : Outcome) : Async unit :=
  match o with
  | Rejected e => Throw e
  | _ => Ret tt
  end.
Definition await (c : ExtCall) : Async unit := o ← call c; settled o.

(** *** Running a method *)

(** How a method, or a stretch of it, ends. *)
Inductive Completion (A : Type) : Type :=
| Returned (a : A)
| Thrown (e : errors.t).
Arguments Returned {A} a.
Arguments Thrown {A} e.

Inductive Paused (A : Type) : Type :=
| Settled (r : Completion A)
| Suspended (cs : list ExtCall) (k : Outcome -> Async A).
Arguments Settled {A} r.
Arguments Suspended {A} cs k.

(** One synchronous stretch: up to the end of the method or to its next
    [await] of a promise from outside.  With the final pool come the calls
    made, in order.  A method of the pool called with [await] is run as part
    of the caller, so a stretch does not end where the callee returns without
    having waited; JavaScript gives way to the microtask queue there.  Every
    pool at the end of a stretch is a pool the class goes through. *)
Fixpoint sync {A : Type} (m : Async A) (p : t) : t * list ExtCall * Paused A :=
  match m with
  | Ret a => (p, [], Settled (Returned a))
  | Throw e => (p, [], Settled (Thrown e))
  | Get k => sync (k p) p
  | Put p' k => sync k p'
  | Do c k => let '(p', tr, r) := sync k p in (p', c :: tr, r)
  | Await cs k => (p, [], Suspended cs k)
  end.

(** The whole method, with nothing else running in between: the oracle says
    how each awaited promise settles. *)
Definition Oracle : Type := list ExtCall -> Outcome.

Fixpoint run {A : Type} (o : Oracle) (m : Async A) (p : t)
  : t * list ExtCall * Completion A :=
  match m with
  | Ret a => (p, [], Returned a)
  | Throw e => (p, [], Thrown e)
  | Get k => run o (k p) p
  | Put p' k => run o k p'
  | Do c k => let '(p', tr, r) := run o k p in (p', c :: tr, r)
  | Await cs k => run o (k (o cs)) p
  end.

(** *** The peer store *)

(** [new Peer] or [Peer.fromInbound]: a fresh object, with a fresh
    identity. *)
Definition newPeer (peer : Peer.t) : Async PeerId :=
  Get (fun p => Put (with_store (store p ++ [peer]) p) (Ret (length (store p)))).

Definition readPeer (id : PeerId) : Async Peer.t :=
  Get (fun p =>
    match store p !! id with
    | Some peer => Ret peer
    | None => Throw (errors.OTHER "no such peer object")
    end).

Definition modifyPeer (id : PeerId) (f : Peer.t -> Peer.t) : Async unit :=
  modify (fun p => with_store (alter f id (store p)) p).

(** TypeScript's [x!] on a public key: the type checker is told that the key
    is defined.  It is, wherever the pool writes it: [validatePeer] asserts
    the key before a peer can be admitted. *)
Definition nonNull (x : option string) : string := default "" x.

(** A string in a condition: undefined and the empty string are falsy. *)
Definition truthy (x : option string) : bool :=
  match x with
  | Some s => negb (String.eqb s "")
  | None => false
  end.

(** *** Peer methods the pool awaits *)

(** Modelled from the spec: [Peer.beginOpen] (lib/p2p/Peer is not among the
    sources) settles with the session, after which the peer carries what the
    remote [Hello] presented, or rejects. *)
Definition awaitBeginOpen (id : PeerId) (expectedNodePubKey : option string)
    (retryConnecting : bool) : Async unit :=
  o ← call (Peer_beginOpen id expectedNodePubKey retryConnecting);
  match o with
  | Greeted h => modifyPeer id (Peer_greeted h)
  | Rejected e => Throw e
  | _ => Throw (errors.OTHER "beginOpen")
  end.

Section Methods.
Context `{Semver}.

(** *** lines 491-504 *)
Definition addressIsSelf (address : Address.t) (p : t) : bool :=
  if bool_decide (Some (Address.port address) = listenPort p) then
    bool_decide (Address.host address
                 ∈ ["::"; "0.0.0.0"; "::1"; "127.0.0.1"; "localhost"])
  else false.

(** *** lines 873-917 *)
Definition validatePeer (id : PeerId) : Async unit :=
  peer ← readPeer id;
  p ← get;
  if negb (truthy (Peer.nodePubKey peer)) then Throw errors.ASSERTION else
  let peerPubKey := nonNull (Peer.nodePubKey peer) in
  if bool_decide (peerPubKey = nodePubKey p) then
    await (Peer_close id (Some DisconnectionReason.ConnectedToSelf));;
    Throw errors.ATTEMPTED_CONNECTION_TO_SELF
  else if negb (semver_valid (Peer.version peer)) then
    await (Peer_close id (Some DisconnectionReason.MalformedVersion));;
    Throw (errors.MALFORMED_VERSION (Peer.address peer) (Peer.version peer))
  else
  match semver_compare (Peer.version peer) (minCompatibleVersion p) with
  | None => Throw (errors.OTHER "Invalid Version")
  | Some Lt =>
    await (Peer_close id
             (Some DisconnectionReason.IncompatibleProtocolVersion));;
    Throw (errors.INCOMPATIBLE_VERSION (Peer.address peer)
             (minCompatibleVersion p) (Peer.version peer))
  | Some _ =>
  if negb (connected p) then
    await (Peer_close id (Some DisconnectionReason.NotAcceptingConnections));;
    Throw errors.POOL_CLOSED
  else if NodeList.isBanned peerPubKey (nodes p) then
    await (Peer_close id (Some DisconnectionReason.Banned));;
    Throw (errors.NODE_IS_BANNED peerPubKey)
  else if JsMap.has peerPubKey (peers p) then
    await (Peer_close id (Some DisconnectionReason.AlreadyConnected));;
    Throw (errors.NODE_ALREADY_CONNECTED peerPubKey (Peer.address peer))
  else if negb (Peer.connected peer) then
    Throw (errors.NOT_CONNECTED peerPubKey)
  else Ret tt
  end.

(** *** lines 552-589: the end of [openPeer], once both handshake phases are
    through.  [peers.has] and the [peers.get] behind it are one lookup
    here.  [this.nodePubKey > peerPubKey] compares the two strings code
    unit by code unit, as [String.ltb] does byte by byte; public keys are
    hexadecimal. *)
Definition openPeer_admit (id : PeerId) : Async unit :=
  peer ← readPeer id;
  p ← get;
  let peerPubKey := nonNull (Peer.nodePubKey peer) in
  (match JsMap.get peerPubKey (peers p) with
   | Some existing =>
       if String.ltb peerPubKey (nodePubKey p) then
         await (Peer_close id (Some DisconnectionReason.AlreadyConnected));;
         Throw (errors.NODE_ALREADY_CONNECTED peerPubKey (Peer.address peer))
       else
         o ← call (Peer_onceCloseOrStall existing);
         match o with
         | StillConnected false => Ret tt
         | _ =>
             await (Peer_close id (Some DisconnectionReason.AlreadyConnected));;
             Throw (errors.NODE_ALREADY_CONNECTED peerPubKey (Peer.address peer))
         end
   | None => Ret tt
   end);;
  modify (fun p => with_peers (JsMap.set peerPubKey id (peers p)) p);;
  modifyPeer id (Peer.with_active true);;
  perform (HandleOpenedPeer id).

(** Lines 525-536: the body of the [try] in [openPeer]. *)
Definition openPeer_handshake (id : PeerId) (expectedNodePubKey : option string)
    (retryConnecting : bool) : Async unit :=
  awaitBeginOpen id expectedNodePubKey retryConnecting;;
  validatePeer id;;
  await (Peer_completeOpen id).

(** Lines 537-550: its [catch]. *)
Definition openPeer_failed (id : PeerId) (expectedNodePubKey : option string)
    (err : errors.t) : Async unit :=
  (if bool_decide (err = errors.CONNECTION_RETRIES_MAX_PERIOD_EXCEEDED) then
     peer ← readPeer id;
     await (Nodes_removeAddress (nonNull expectedNodePubKey)
              (Peer.address peer))
   else Ret tt);;
  Throw err.

(** *** lines 518-589 *)
Definition openPeer (id : PeerId) (expectedNodePubKey : option string)
    (retryConnecting : bool) : Async unit :=
  p ← get;
  if disconnecting p || negb (connected p) then Throw errors.POOL_CLOSED else
  catch (openPeer_handshake id expectedNodePubKey retryConnecting)
        (openPeer_failed id expectedNodePubKey);;
  openPeer_admit id.

(** *** lines 506-510 *)
Definition tryOpenPeer (id : PeerId) (peerPubKey : option string)
    (retryConnecting : bool) : Async unit :=
  catch (openPeer id peerPubKey retryConnecting) (fun _ => Ret tt).

(** *** lines 944-972: the listeners are the handlers below, entered by the
    event loop *)
Definition bindPeer (id : PeerId) : Async unit := perform (Peer_on id).

(** *** lines 431-475 *)
Definition addOutbound (address : Address.t) (nodePubKey : string)
    (retryConnecting revokeConnectionRetries : bool) : Async PeerId :=
  p ← get;
  if bool_decide (nodePubKey = Pool.nodePubKey p) || addressIsSelf address p
  then Throw errors.ATTEMPTED_CONNECTION_TO_SELF
  else if disconnecting p || negb (connected p)
  then Throw errors.POOL_CLOSED
  else if negb (PoolConfig.tor (config p))
          && bool_decide (is_Some (String.index 0 ".onion" (Address.host address)))
  then Throw (errors.NODE_TOR_ADDRESS nodePubKey address)
  else if NodeList.isBanned nodePubKey (nodes p)
  then Throw (errors.NODE_IS_BANNED nodePubKey)
  else if JsMap.has nodePubKey (peers p)
  then Throw (errors.NODE_ALREADY_CONNECTED nodePubKey address)
  else
    (match JsMap.get nodePubKey (pendingOutboundPeers p) with
     | Some pendingPeer =>
         if revokeConnectionRetries
         then perform (Peer_revokeConnectionRetries pendingPeer)
         else Throw (errors.ALREADY_CONNECTING nodePubKey)
     | None => Ret tt
     end);;
    peer ← newPeer (Peer.create address);
    bindPeer peer;;
    modify (fun p =>
      with_pendingOutboundPeers
        (JsMap.set nodePubKey peer (pendingOutboundPeers p)) p);;
    finally (openPeer peer (Some nodePubKey) retryConnecting)
      (modify (fun p =>
         with_pendingOutboundPeers
           (JsMap.delete nodePubKey (pendingOutboundPeers p)) p));;
    Ret peer.

(** *** lines 365-376 *)
Definition tryConnectWithLastAddress (node : NodeConnectionInfo.t)
    (retryConnecting : bool) : Async bool :=
  match NodeConnectionInfo.lastAddress node with
  | None => Ret false
  | Some lastAddress =>
      catch
        (addOutbound lastAddress (NodeConnectionInfo.nodePubKey node)
           retryConnecting false;;
         Ret true)
        (fun _ => Ret false)
  end.

(** The [for] loop of lines 384-391, over the addresses still to visit. *)
Fixpoint tryConnectWithAddresses (node : NodeConnectionInfo.t)
    (sortedAddresses : list Address.t) : Async bool :=
  match sortedAddresses with
  | [] => Ret false
  | address :: rest =>
      if match NodeConnectionInfo.lastAddress node with
         | Some lastAddress => addressUtils.areEqual address lastAddress
         | None => false
         end
      then tryConnectWithAddresses node rest
      else
        connected ← catch
          (addOutbound address (NodeConnectionInfo.nodePubKey node)
             false false;;
           Ret true)
          (fun _ => Ret false);
        if connected : bool then Ret true
        else tryConnectWithAddresses node rest
  end.

(** *** lines 378-394 *)
Definition tryConnectWithAdvertisedAddresses (node : NodeConnectionInfo.t)
  : Async bool :=
  tryConnectWithAddresses node
    (addressUtils.sortByLastConnected (NodeConnectionInfo.addresses node)).

(** *** lines 357-363 *)
Definition tryConnectNode (node : NodeConnectionInfo.t)
    (retryConnecting : bool) : Async unit :=
  viaLast ← tryConnectWithLastAddress node false;
  if negb viaLast then
    viaAdvertised ← tryConnectWithAdvertisedAddresses node;
    if negb viaAdvertised && retryConnecting then
      tryConnectWithLastAddress node true;; Ret tt
    else Ret tt
  else Ret tt.

(** Lines 986-990. *)
Definition doesDisconnectionReasonCallForReconnection (peer : Peer.t) : bool :=
  (bool_decide (Peer.sentDisconnectionReason peer = None)
   || bool_decide (Peer.sentDisconnectionReason peer
                   = Some DisconnectionReason.ResponseStalling))
  && (bool_decide (Peer.recvDisconnectionReason peer = None)
      || bool_decide (Peer.recvDisconnectionReason peer
                      = Some DisconnectionReason.ResponseStalling)
      || bool_decide (Peer.recvDisconnectionReason peer
                      = Some DisconnectionReason.AlreadyConnected)
      || bool_decide (Peer.recvDisconnectionReason peer
                      = Some DisconnectionReason.Shutdown)).

(** The condition of lines 993-998.  [peer.address] is an object, which is
    truthy whatever it holds. *)
Definition shouldReconnect (peer : Peer.t) (p : t) : bool :=
  let addresses := default [] (Peer.addresses peer) in
  doesDisconnectionReasonCallForReconnection peer
  && negb (Peer.inbound peer)
  && truthy (Peer.nodePubKey peer)
  && (bool_decide (length addresses ≠ 0%nat) || true)
  && negb (disconnecting p) && connected p.

(** *** lines 974-1003 *)
Definition handlePeerClose (id : PeerId) : Async unit :=
  peer ← readPeer id;
  (if Peer.active peer then
     modify (fun p =>
       with_peers (JsMap.delete (nonNull (Peer.nodePubKey peer)) (peers p)) p)
   else Ret tt);;
  perform (Peer_removeAllListeners id);;
  if negb (Peer.active peer) then Ret tt else
  modifyPeer id (Peer.with_active false);;
  perform (Emit (peer_close (Peer.nodePubKey peer)));;
  p ← get;
  if shouldReconnect peer p then
    tryConnectNode
      (NodeConnectionInfo.mk (nonNull (Peer.nodePubKey peer))
         (default [] (Peer.addresses peer)) (Some (Peer.address peer)))
      true
  else Ret tt.

(** *** lines 922-934 *)
Definition handleGetNodes (id : PeerId) (reqId : string) : Async unit :=
  peer ← readPeer id;
  p ← get;
  let connectedNodesInfo :=
    foldl
      (fun infos connected =>
         match store p !! connected with
         | Some connectedPeer =>
             if bool_decide (Peer.nodePubKey connectedPeer
                             ≠ Peer.nodePubKey peer)
                && match Peer.addresses connectedPeer with
                   | Some addresses => bool_decide (0 < length addresses)%nat
                   | None => false
                   end
             then
               (infos ++ [NodeConnectionInfo.mk
                            (nonNull (Peer.nodePubKey connectedPeer))
                            (default [] (Peer.addresses connectedPeer)) None])%list
             else infos
         | None => infos
         end)
      [] (JsMap.values (peers p)) in
  await (Peer_sendNodes id connectedNodesInfo reqId).

(** *** lines 752-760 *)
Definition addInbound (socket : Socket.t) : Async unit :=
  peer ← newPeer (Peer_fromInbound socket);
  bindPeer peer;;
  modify (fun p =>
    with_pendingInboundPeers
      (if bool_decide (peer ∈ pendingInboundPeers p)
       then pendingInboundPeers p
       else pendingInboundPeers p ++ [peer]) p);;
  tryOpenPeer peer None false;;
  modify (fun p =>
    with_pendingInboundPeers
      (filter (fun x => x ≠ peer) (pendingInboundPeers p)) p).

(** *** lines 762-776 *)
Definition handleSocket (socket : Socket.t) : Async unit :=
  p ← get;
  match Socket.remoteAddress socket with
  | None => perform (Socket_destroy socket)
  | Some remoteAddress =>
      if String.eqb remoteAddress "" then perform (Socket_destroy socket)
      else if NodeList.isBanned remoteAddress (nodes p) then
        perform (Socket_destroy socket)
      else addInbound socket
  end.

(** *** lines 683-696 *)
Definition addReputationEvent (nodePubKey : string)
    (event : ReputationEvent.t) : Async unit :=
  p ← get;
  if strict p
     || bool_decide (event = ReputationEvent.ManualBan)
     || bool_decide (event = ReputationEvent.ManualUnban)
     || bool_decide (event = ReputationEvent.SwapAbuse)
     || bool_decide (event = ReputationEvent.SwapMisbehavior)
     || bool_decide (event = ReputationEvent.WireProtocolErr)
     || bool_decide (event = ReputationEvent.InvalidAuth)
  then await (Nodes_addReputationEvent nodePubKey event)
  else Ret tt.

(** Start each call, in order, and hand back the promises: the loops of
    [closePeers] and [closePendingConnections] that push [peer.close(...)]
    onto [closePromises]. *)
Definition startAll (cs : list ExtCall) : Async (list ExtCall) :=
  foldr (fun c k => Do c k) (Ret cs) cs.

(** *** lines 1005-1011 *)
Definition closePeers : Async (list ExtCall) :=
  p ← get;
  startAll
    (map (fun peer => Peer_close peer (Some DisconnectionReason.Shutdown))
       (JsMap.values (peers p))).

(** *** lines 1013-1022 *)
Definition closePendingConnections : Async (list ExtCall) :=
  p ← get;
  startAll
    (map (fun peer => Peer_close peer None)
       (JsMap.values (pendingOutboundPeers p) ++ pendingInboundPeers p)).

(** *** lines 1054-1065 *)
Definition unlisten : Async (list ExtCall) :=
  p ← get;
  match server p with
  | Some listening =>
      (if listening : bool then
         perform Server_close;; modify (with_server (Some false))
       else Ret tt);;
      Ret [Server_onceClose]
  | None => Ret []
  end.

(** *** lines 273-285.  The promise awaited at line 280 is the one [init]
    stored at line 192, the promise of [nodes.load()]. *)
Definition disconnect : Async unit :=
  p ← get;
  if negb (connected p) then Ret tt else
  modify (with_disconnecting true);;
  (if loadingNodesPromise p then o ← Await [Nodes_load] Ret; settled o
   else Ret tt);;
  stopping ← unlisten;
  pending ← closePendingConnections;
  active ← closePeers;
  o ← Await (stopping ++ pending ++ active) Ret;
  settled o;;
  modify (with_connected false);;
  modify (with_disconnecting false).

(** *** lines 1029-1048 *)
Definition listen : Async unit :=
  p ← get;
  o ← call (Server_listen (default 0 (listenPort p)));
  match o with
  | Listening port =>
      modify (with_server (Some true));;
      if bool_decide (listenPort p = Some 0)
      then modify (with_listenPort (Some port))
      else Ret tt
  | Rejected e => Throw e
  | _ => Throw (errors.OTHER "listen")
  end.

(** *** lines 175-207.  The advertised node state is not modelled, so
    [detectExternalIpAddress] and [verifyReachability] are calls out; the
    handlers chained on [nodes.load()] run later, as [loadedNodes]. *)
Definition init : Async unit :=
  p ← get;
  if connected p then Ret tt else
  (match server p with
   | Some _ =>
       listen;;
       perform Server_on;;
       if PoolConfig.detectexternalip (config p)
       then _ ← call GetExternalIp; Ret tt
       else Ret tt
   | None => Ret tt
   end);;
  perform Nodes_on;;
  perform Nodes_load;;
  modify (with_loadingNodesPromise true);;
  perform VerifyReachability;;
  modify (with_connected true).

(** Lines 193-203, the handler chained on [nodes.load()]: the
    [tryConnectNode]s that its [connectNodes] starts (line 196) are entered
    by the event loop one by one; its last statement, once they are through
    (or have failed), drops the promise. *)
Definition loadedNodes : Async unit :=
  modify (with_loadingNodesPromise false).

End Methods.

(** *** The event loop *)

(** What the event loop can enter: a call of a public method, or a listener
    the pool has registered ([handleSocket] on the server's [connection],
    [handlePeerClose] on a peer's [close], [handleGetNodes] on a [GetNodes]
    packet). *)
Inductive Entry :=
| enter_init
| enter_disconnect
| enter_addOutbound (address : Address.t) (nodePubKey : string)
    (retryConnecting revokeConnectionRetries : bool)
| enter_tryConnectNode (node : NodeConnectionInfo.t) (retryConnecting : bool)
| enter_handleSocket (socket : Socket.t)
| enter_handlePeerClose (peer : PeerId)
| enter_handleGetNodes (peer : PeerId) (reqId : string)
| enter_addReputationEvent (nodePubKey : string) (event : ReputationEvent.t)
| enter_loadedNodes.

Definition body `{Semver} (e : Entry) : Async unit :=
  match e with
  | enter_init => init
  | enter_disconnect => disconnect
  | enter_addOutbound a k r v => addOutbound a k r v;; Ret tt
  | enter_tryConnectNode n r => tryConnectNode n r
  | enter_handleSocket s => handleSocket s
  | enter_handlePeerClose i => handlePeerClose i
  | enter_handleGetNodes i r => handleGetNodes i r
  | enter_addReputationEvent k e => addReputationEvent k e
  | enter_loadedNodes => loadedNodes
  end.

(** A task waiting for promises to settle. *)
Definition Task : Type := list ExtCall * (Outcome -> Async unit).

Record System := mkSystem {
  pool : t;
  tasks : list Task;
  trace : list ExtCall;
}.

(** Run [m] on the pool up to its next [await]; the other tasks are
    [others]. *)
Definition advance (s : System) (m : Async unit) (others : list Task)
  : System :=
  let '(p, tr, r) := sync m (pool s) in
  mkSystem p
    (match r with
     | Suspended cs k => others ++ [(cs, k)]
     | Settled _ => others
     end)
    (trace s ++ tr).

(** A peer's [close] listener is registered by [bindPeer] and runs once. *)
Definition enabled (s : System) (e : Entry) : Prop :=
  match e with
  | enter_handlePeerClose i =>
      Peer_on i ∈ trace s ∧ Peer_removeAllListeners i ∉ trace s
  | enter_handleGetNodes i _ =>
      ∃ k, JsMap.get k (peers (pool s)) = Some i
  | _ => True
  end.

(** The ways a promise can settle, by what was awaited.  [beginOpen]
    resolves only with the public key that was expected, when one was; the
    promise of [openPeer] resolves to false from the [close] event of the
    existing peer, whose [handlePeerClose], registered first, has run by
    then. *)
Definition admissible (s : System) (cs : list ExtCall) (o : Outcome) : Prop :=
  match cs, o with
  | [Peer_beginOpen _ expected _], Greeted h =>
      match expected with
      | Some k => k = Hello.nodePubKey h
      | None => True
      end
  | [Peer_onceCloseOrStall _], StillConnected true => True
  | [Peer_onceCloseOrStall existing], StillConnected false =>
      Peer_removeAllListeners existing ∈ trace s
  | [Peer_onceCloseOrStall _], _ => False
  | [Server_listen _], Listening _ => True
  | _, Rejected _ => True
  | [Peer_beginOpen _ _ _], _ => False
  | [Server_listen _], _ => False
  | _, Resolved => True
  | _, _ => False
  end.

(** The event loop enters a method or listener, or resumes the [i]-th
    waiting task with the outcome [o] of what it awaited. *)
Definition enter `{Semver} (s : System) (e : Entry) : System :=
  advance s (body e) (tasks s).

Definition resume (s : System) (i : nat) (o : Outcome) : System :=
  match tasks s !! i with
  | Some (_, k) => advance s (k o) (delete i (tasks s))
  | None => s
  end.

Inductive step `{Semver} : System -> System -> Prop :=
| step_enter s e :
    enabled s e ->
    step s (enter s e)
| step_resume s i cs k o :
    tasks s !! i = Some (cs, k) ->
    admissible s cs o ->
    step s (resume s i o).

Definition reachable `{Semver} (s0 s : System) : Prop := rtc step s0 s.

(** A schedule: the moves of the event loop, in order. *)
Inductive Move :=
| Enter (e : Entry)
| Resume (i : nat) (o : Outcome).

Definition play `{Semver} (s : System) (m : Move) : System :=
  match m with
  | Enter e => enter s e
  | Resume i o => resume s i o
  end.

Fixpoint legal `{Semver} (s : System) (ms : list Move) : Prop :=
  match ms with
  | [] => True
  | m :: ms' =>
      match m with
      | Enter e => enabled s e
      | Resume i o =>
          match tasks s !! i with
          | Some (cs, _) => admissible s cs o
          | None => False
          end
      end
      ∧ legal (play s m) ms'
  end.

End Pool.

(** ** A reference [semver] for plain MAJOR.MINOR.PATCH versions *)

Module SemverTriple.

Definition digit (c : ascii) : option N :=
  let n := N_of_ascii c in
  if ((48 <=? n) && (n <=? 57))%N then Some (n - 48)%N else None.

(** A numeric identifier: digits, without a leading zero. *)
Fixpoint number (acc : N) (s : string) : option N :=
  match s with
  | EmptyString => Some acc
  | String c s' =>
      match digit c with
      | Some d => number (10 * acc + d)%N s'
      | None => None
      end
  end.

Definition numeric (s : string) : option N :=
  match s with
  | EmptyString => None
  | String "0" (String _ _) => None
  | _ => number 0%N s
  end.

(** The dot-separated fields of a string. *)
Fixpoint fields (cur : string) (s : string) : list string :=
  match s with
  | EmptyString => [cur]
  | String "." s' => cur :: fields EmptyString s'
  | String c s' => fields (cur +:+ String c EmptyString) s'
  end.

Definition parse (s : string) : option (N * N * N) :=
  match fields EmptyString s with
  | [a; b; c] =>
      match numeric a, numeric b, numeric c with
      | Some x, Some y, Some z => Some (x, y, z)
      | _, _, _ => None
      end
  | _ => None
  end.

Definition valid (s : string) : bool :=
  match parse s with Some _ => true | None => false end.

Definition compare (v1 v2 : string) : option comparison :=
  match parse v1, parse v2 with
  | Some (a1, b1, c1), Some (a2, b2, c2) =>
      Some match (a1 ?= a2)%N with
           | Eq => match (b1 ?= b2)%N with
                   | Eq => (c1 ?= c2)%N
                   | r => r
                   end
           | r => r
           end
  | _, _ => None
  end.

End SemverTriple.

#[global] Instance semver_triple : Semver :=
  {| semver_valid := SemverTriple.valid; semver_compare := SemverTriple.compare |}.

Import Pool.

(** ** The node state and the packets *)

(** A plain object used as a dictionary: [{}], read and written as
    [object[key]].  It holds its own properties and inherits the rest from
    its prototype, which is [Object.prototype] until an assignment under
    the key "__proto__" replaces it. *)
Module JsObject.

(** The properties of [Object.prototype]. *)
Definition prototypeKeys : list string :=
  ["constructor"; "__defineGetter__"; "__defineSetter__"; "hasOwnProperty";
   "__lookupGetter__"; "__lookupSetter__"; "isPrototypeOf";
   "propertyIsEnumerable"; "toString"; "valueOf"; "__proto__";
   "toLocaleString"].

(** [prototype] is [None] for [Object.prototype]. *)
Record t (V : Type) := mk {
  prototype : option V;
  own : gmap string V;
}.
Arguments mk {V} prototype own.
Arguments prototype {V} _.
Arguments own {V} _.

Definition empty {V : Type} : t V := mk None ∅.

(** [object[key] = value] where the value is a string or undefined.  Under
    the key "__proto__" the assignment goes to the setter that
    [Object.prototype] has for it, which ignores a value that is neither an
    object nor null; under any other key it makes, or overwrites, an own
    property. *)
Definition setPrimitive {V : Type} (key : string) (value : V) (o : t V) : t V :=
  if bool_decide (key = "__proto__") then o
  else mk (prototype o) (<[key := value]> (own o)).

(** [object[key] = value] where the value is an object, such as an
    ordinary array: under the key "__proto__" it becomes the prototype;
    under any other key it makes, or overwrites, an own property. *)
Definition setObject {V : Type} (key : string) (value : V) (o : t V) : t V :=
  if bool_decide (key = "__proto__") then mk (Some value) (own o)
  else mk (prototype o) (<[key := value]> (own o)).

(** What [object[key]] gives: the value of an own property; the member of
    [Object.prototype] of that name; whatever a prototype that was put in
    its place gives under the key; or undefined. *)
Inductive Member (V : Type) : Type :=
| held (value : V)
| inherited (key : string)
| ofPrototype (key : string)
| absent.
Arguments held {V} value.
Arguments inherited {V} key.
Arguments ofPrototype {V} key.
Arguments absent {V}.

Definition get {V : Type} (key : string) (o : t V) : Member V :=
  match own o !! key with
  | Some value => held value
  | None =>
      match prototype o with
      | Some _ => ofPrototype key
      | None =>
          if bool_decide (key ∈ prototypeKeys) then inherited key else absent
      end
  end.

End JsObject.

(** The [NodeState] of lib/p2p/types that the pool advertises, as the
    constructor builds it (lines 129-136).  The three objects keyed by
    currency are object literals used as dictionaries. *)
Module NodeState.
Record t := mk {
  addresses : list Address.t;
  pairs : list string;
  connextIdentifier : string;
  lndPubKeys : JsObject.t string;
  lndUris : JsObject.t (list string);
  tokenIdentifiers : JsObject.t (option string);
}.

Definition initial : t :=
  mk [] [] "" JsObject.empty JsObject.empty JsObject.empty.

Definition with_addresses (x : list Address.t) (s : t) : t :=
  mk x (pairs s) (connextIdentifier s) (lndPubKeys s) (lndUris s)
     (tokenIdentifiers s).

Definition with_pairs (x : list string) (s : t) : t :=
  mk (addresses s) x (connextIdentifier s) (lndPubKeys s) (lndUris s)
     (tokenIdentifiers s).

Definition with_connextIdentifier (x : string) (s : t) : t :=
  mk (addresses s) (pairs s) x (lndPubKeys s) (lndUris s) (tokenIdentifiers s).

Definition with_lndPubKeys (x : JsObject.t string) (s : t) : t :=
  mk (addresses s) (pairs s) (connextIdentifier s) x (lndUris s)
     (tokenIdentifiers s).

Definition with_lndUris (x : JsObject.t (list string)) (s : t) : t :=
  mk (addresses s) (pairs s) (connextIdentifier s) (lndPubKeys s) x
     (tokenIdentifiers s).

Definition with_tokenIdentifiers (x : JsObject.t (option string)) (s : t)
  : t :=
  mk (addresses s) (pairs s) (connextIdentifier s) (lndPubKeys s) (lndUris s) x.
End NodeState.

(** An order as it travels between nodes ([OutgoingOrder] of
    lib/orderbook/types): the fields the pool reads, and [terms] for the
    rest, which it passes on untouched. *)
Module Order.
Record t := mk {
  id : string;
  pairId : string;
  replaceOrderId : option string;
  terms : string;
}.
End Order.

(** [OrderInvalidation] and [OrderPortion] of lib/orderbook/types. *)
Module OrderInvalidation.
Record t := mk {
  id : string;
  pairId : string;
  quantity : option Z;
}.
End OrderInvalidation.

(** [IncomingOrder]: an order with the public key of the peer it came
    from. *)
Module IncomingOrder.
Record t := mk {
  order : Order.t;
  peerPubKey : string;
}.
End IncomingOrder.

(** A packet: the [id] of its header and, by [PacketType], its body.  The
    bodies are those [handlePacket] reads; the swap packets are passed on
    as they are; [Bodiless] is a packet of one of these types that has no
    body ([GetOrders] has its own case for that, [GetNodes] never has
    one); [Other] is a packet of a type the pool does not dispatch on. *)
Module Packet.
Inductive Kind :=
| order
| orderInvalidation
| orders
| nodes
| sanitySwap
| swapRequest
| swapAccepted
| swapFailed.

Inductive Body :=
| Order (body : Order.t)
| OrderInvalidation (body : OrderInvalidation.t)
| GetOrders (pairIds : option (list string))
| Orders (body : list Order.t)
| GetNodes
| Nodes (body : list NodeConnectionInfo.t)
| NodeStateUpdate (body : NodeState.t)
| SanitySwap (body : string)
| SwapRequest (body : string)
| SwapAccepted (body : string)
| SwapFailed (body : string)
| Bodiless (type : Kind)
| Other (type : N).

Record t := mk {
  id : string;
  body : Body;
}.
End Packet.

(** ** Methods read one at a time *)

(** The methods of the class that serve the rest of the daemon (look-ups,
    targeted sends, broadcasts, the dispatch of packets, the advertised
    node state) are read from call to end, with nothing else running in
    between. *)
Module Method.

(** The object as these methods see it: the fields the connection methods
    keep ([Pool.t]), the advertised node state, and the two discovery
    options of the configuration. *)
Record State := mkState {
  connections : Pool.t;
  nodeState : NodeState.t;
  discover : bool;
  discoverminutes : Z;
}.

Definition with_connections (x : Pool.t) (s : State) : State :=
  mkState x (nodeState s) (discover s) (discoverminutes s).

Definition with_nodeState (x : NodeState.t) (s : State) : State :=
  mkState (connections s) x (discover s) (discoverminutes s).

(** Events for the subscribers of the pool: those of the connection
    methods ([lifecycle]) and those drawn from the traffic. *)
Inductive Event :=
| lifecycle (e : PoolEvent)
| packet_order (order : IncomingOrder.t)
| packet_getOrders (peer : PeerId) (reqId : string) (pairIds : list string)
| packet_orderInvalidation (orderInvalidation : OrderInvalidation.t)
    (peer : string)
| peer_pairDropped (peerPubKey pairId : string)
| peer_nodeStateUpdate (peer : PeerId)
| packet_sanitySwapInit (packet : Packet.t) (peer : PeerId)
| packet_swapRequest (packet : Packet.t) (peer : PeerId)
| packet_swapAccepted (packet : Packet.t) (peer : PeerId)
| packet_swapFailed (packet : Packet.t).

(** What travels with a disconnection reason: a text, or the JSON of a list
    of reputation events. *)
Inductive Payload :=
| text (s : string)
| json (events : list ReputationEvent.t).

(** Calls on the collaborators.  [Connection] is a call that a connection
    method makes; [Peer_discoverTimer] is the assignment to
    [peer.discoverTimer], of undefined or of a timer that fires with the
    given period, in milliseconds; [Started] is a [tryConnectNode] that
    [connectNodes] starts and leaves running beside the others, as a task
    of the event loop. *)
Inductive Call :=
| Connection (c : ExtCall)
| Emit (e : Event)
| Peer_sendPacket (peer : PeerId) (packet : Packet.t)
| Peer_sendGetNodes (peer : PeerId)
| Peer_discoverNodes (peer : PeerId)
| Peer_discoverTimer (peer : PeerId) (milliseconds : option Z)
| Peer_close (peer : PeerId) (reason : option DisconnectionReason.t)
    (reasonPayload : option Payload)
| Nodes_createNode (nodePubKey : string)
    (addresses : option (list Address.t)) (lastAddress : option Address.t)
| Nodes_updateAddresses (nodePubKey : string)
    (addresses : option (list Address.t)) (lastAddress : option Address.t)
| GetExternalIp
| Started (node : NodeConnectionInfo.t) (retryConnecting : bool).

(** How the awaited promise of such a call settles. *)
Inductive Answer :=
| Fulfilled
| Count (n : Z)
| Text (s : string)
| Failed (e : errors.t).

(** Everything outside the object that a method consults while it runs: how
    the promises settle, what [peer.isPairActive(pairId)] and
    [nodes.has(nodePubKey)] answer, what [Date.now()] reads, and the
    header id a new packet of a given body is built with. *)
Record World := mkWorld {
  settle : Oracle;
  answer : Call -> Answer;
  isPairActive : PeerId -> string -> bool;
  nodesHas : string -> bool;
  now : Z;
  packetId : Packet.Body -> string;
}.

(** A method from its call to its end: the final state, the calls made in
    order, and the value returned or the error thrown. *)
Definition t (A : Type) : Type :=
  World -> State -> State * list Call * Completion A.

Definition ret {A : Type} (a : A) : t A := fun _ s => (s, [], Returned a).

Definition throw {A : Type} (e : errors.t) : t A :=
  fun _ s => (s, [], Thrown e).

Definition bind {A B : Type} (m : t A) (f : A -> t B) : t B := fun w s =>
  match m w s with
  | (s1, calls1, Returned a) =>
      let '(s2, calls2, r) := f a w s1 in (s2, calls1 ++ calls2, r)
  | (s1, calls1, Thrown e) => (s1, calls1, Thrown e)
  end.

#[global] Instance Method_ret : MRet t := @ret.
#[global] Instance Method_bind : MBind t := fun A B f m => bind m f.

(** [try m catch (e) h]. *)
Definition catch {A : Type} (m : t A) (h : errors.t -> t A) : t A :=
  fun w s =>
  match m w s with
  | (s1, calls1, Returned a) => (s1, calls1, Returned a)
  | (s1, calls1, Thrown e) =>
      let '(s2, calls2, r) := h e w s1 in (s2, calls1 ++ calls2, r)
  end.

Definition state : t State := fun _ s => (s, [], Returned s).
Definition world : t World := fun w s => (s, [], Returned w).
Definition update (f : State -> State) : t unit :=
  fun _ s => (f s, [], Returned tt).

(** A call whose promise, if it has one, is not waited for. *)
Definition start (c : Call) : t unit := fun _ s => (s, [c], Returned tt).

(** [await c(...)]: a rejection is thrown on. *)
Definition await (c : Call) : t Answer := fun w s =>
  match answer w c with
  | Failed e => (s, [c], Thrown e)
  | a => (s, [c], Returned a)
  end.

(** [await] of a connection method. *)
Definition connection {A : Type} (m : Async A) : t A := fun w s =>
  let '(p, calls, r) := run (settle w) m (connections s) in
  (with_connections p s, map Connection calls, r).

(** [forEach], the callback run on each element in turn. *)
Fixpoint forEach {X : Type} (f : X -> t unit) (l : list X) : t unit :=
  match l with
  | [] => ret tt
  | x :: l' => f x;; forEach f l'
  end.

End Method.

(** ** Look-ups *)

(** *** lines 148-150 *)
Definition peerCount (p : Pool.t) : nat := length (peers p).

(** *** lines 710-716 *)
Definition getPeer (peerPubKey : string) (p : Pool.t) : Completion PeerId :=
  match JsMap.get peerPubKey (peers p) with
  | Some peer => Returned peer
  | None => Thrown (errors.NOT_CONNECTED peerPubKey)
  end.

(** *** lines 718-724 *)
Definition tryGetPeer (peerPubKey : string) (p : Pool.t) : option PeerId :=
  match getPeer peerPubKey p with
  | Returned peer => Some peer
  | Thrown _ => None
  end.

(** *** lines 477-485: [info] is the getter of the peer object *)
Definition listPeers {PeerInfo : Type} (info : PeerId -> PeerInfo) (p : Pool.t)
  : list PeerInfo :=
  foldl (fun peerInfos peer => peerInfos ++ [info peer]) []
    (JsMap.values (peers p)).

(** ** Node state, targeted sends and broadcasts *)

Section Services.
Import Method.

(** [peer.nodePubKey]: the public key a peer object carries, if any. *)
Definition pubKeyOf (s : State) (peer : PeerId) : option string :=
  store (connections s) !! peer ≫= Peer.nodePubKey.

(** *** lines 266-271: one packet, handed to every peer of the map; the
    promises of [sendPacket] are left to themselves *)
Definition sendNodeStateUpdate : Method.t unit :=
  w ← world;
  s ← state;
  let body := Packet.NodeStateUpdate (nodeState s) in
  let packet := Packet.mk (packetId w body) body in
  forEach (fun peer => start (Peer_sendPacket peer packet))
    (JsMap.values (peers (connections s))).

(** *** lines 231-234 *)
Definition updatePairs (pairIds : list string) : Method.t unit :=
  update (fun s =>
    with_nodeState (NodeState.with_pairs pairIds (nodeState s)) s);;
  sendNodeStateUpdate.

(** *** lines 240-248.  The token addresses come in a [Map]; each is
    written into the object [tokenIdentifiers]. *)
Definition updateConnextState (tokenAddresses : JsMap.t string)
    (pubKey : option string) : Method.t unit :=
  (if truthy pubKey then
     update (fun s =>
       with_nodeState
         (NodeState.with_connextIdentifier (nonNull pubKey) (nodeState s)) s)
   else ret tt);;
  forEach
    (fun entry : string * string =>
       let '(currency, tokenAddress) := entry in
       update (fun s =>
         with_nodeState
           (NodeState.with_tokenIdentifiers
              (JsObject.setPrimitive currency (Some tokenAddress)
                 (NodeState.tokenIdentifiers (nodeState s)))
              (nodeState s)) s))
    tokenAddresses;;
  sendNodeStateUpdate.

(** *** lines 254-264.  The public key is a string, the chain a string or
    undefined, the uris an array. *)
Definition updateLndState (currency pubKey : string) (chain : option string)
    (uris : option (list string)) : Method.t unit :=
  update (fun s =>
    with_nodeState
      (NodeState.with_lndPubKeys
         (JsObject.setPrimitive currency pubKey
            (NodeState.lndPubKeys (nodeState s)))
         (nodeState s)) s);;
  match uris with
  | Some uris =>
      update (fun s =>
        with_nodeState
          (NodeState.with_lndUris
             (JsObject.setObject currency uris
                (NodeState.lndUris (nodeState s)))
             (nodeState s)) s)
  | None => ret tt
  end;;
  update (fun s =>
    with_nodeState
      (NodeState.with_tokenIdentifiers
         (JsObject.setPrimitive currency chain
            (NodeState.tokenIdentifiers (nodeState s)))
         (nodeState s)) s);;
  sendNodeStateUpdate.

(** *** lines 156-158.  An own property that holds undefined reads as
    undefined. *)
Definition getTokenIdentifier (currency : string) (s : State)
  : JsObject.Member string :=
  match JsObject.get currency (NodeState.tokenIdentifiers (nodeState s)) with
  | JsObject.held (Some tokenIdentifier) => JsObject.held tokenIdentifier
  | JsObject.held None => JsObject.absent
  | JsObject.inherited key => JsObject.inherited key
  | JsObject.ofPrototype key => JsObject.ofPrototype key
  | JsObject.absent => JsObject.absent
  end.

(** *** lines 209-225.  [this.listenPort!]: the method runs only where a
    server exists, and with a server the constructor sets the port. *)
Definition detectExternalIpAddress : Method.t unit :=
  catch
    (a ← await GetExternalIp;
     match a with
     | Text externalIp =>
         s ← state;
         let externalIpExists :=
           existsb (fun address => String.eqb (Address.host address) externalIp)
             (NodeState.addresses (nodeState s)) in
         if negb externalIpExists then
           update (fun s =>
             with_nodeState
               (NodeState.with_addresses
                  (NodeState.addresses (nodeState s)
                   ++ [Address.mk externalIp
                         (default 0 (listenPort (connections s))) None])
                  (nodeState s)) s)
         else ret tt
     | _ => throw (errors.OTHER "getExternalIp")
     end)
    (fun _ => ret tt).

(** *** lines 628-636 *)
Definition closePeer (nodePubKey : string)
    (reason : option DisconnectionReason.t) (reasonPayload : option string)
  : Method.t unit :=
  s ← state;
  match JsMap.get nodePubKey (peers (connections s)) with
  | Some peer =>
      await (Peer_close peer reason (text <$> reasonPayload));; ret tt
  | None => throw (errors.NOT_CONNECTED nodePubKey)
  end.

(** *** lines 674-680 *)
Definition discoverNodes (peerPubKey : string) : Method.t Z :=
  s ← state;
  match JsMap.get peerPubKey (peers (connections s)) with
  | None => throw (errors.NOT_CONNECTED peerPubKey)
  | Some peer =>
      a ← await (Peer_discoverNodes peer);
      match a with
      | Count n => ret n
      | _ => throw (errors.OTHER "discoverNodes")
      end
  end.

(** *** lines 698-704 *)
Definition sendToPeer (nodePubKey : string) (packet : Packet.t)
  : Method.t unit :=
  s ← state;
  match JsMap.get nodePubKey (peers (connections s)) with
  | None => throw (errors.NOT_CONNECTED nodePubKey)
  | Some peer => await (Peer_sendPacket peer packet);; ret tt
  end.

(** *** lines 726-733 *)
Definition broadcastOrder (order : Order.t) : Method.t unit :=
  w ← world;
  s ← state;
  let orderPacket :=
    Packet.mk (packetId w (Packet.Order order)) (Packet.Order order) in
  forEach
    (fun peer =>
       if isPairActive w peer (Order.pairId order)
       then start (Peer_sendPacket peer orderPacket)
       else ret tt)
    (JsMap.values (peers (connections s))).

(** *** lines 739-750 *)
Definition broadcastOrderInvalidation (portion : OrderInvalidation.t)
    (nodeToExclude : option string) : Method.t unit :=
  w ← world;
  s ← state;
  let body := Packet.OrderInvalidation portion in
  let orderInvalidationPacket := Packet.mk (packetId w body) body in
  forEach
    (fun peer =>
       if negb (truthy nodeToExclude)
          || bool_decide (pubKeyOf s peer ≠ nodeToExclude)
       then
         if isPairActive w peer (OrderInvalidation.pairId portion)
         then start (Peer_sendPacket peer orderInvalidationPacket)
         else ret tt
       else ret tt)
    (JsMap.values (peers (connections s))).

End Services.

(** ** Packets, listeners and discovery *)

Section Dispatch.
Import Method.

(** *** lines 334-352.  Each selected node gets a [tryConnectNode] of its
    own, started in the order of the list; the method then waits for all
    of them.  The attempts themselves are [Pool.tryConnectNode], tasks of
    the event loop: what they do to the connections is not shown in the
    state handed back here, which is the one the selection is made on. *)
Definition connectNodes (nodes : list NodeConnectionInfo.t)
    (allowKnown retryConnecting : bool) : Method.t unit :=
  forEach
    (fun node =>
       w ← world;
       s ← state;
       let isNotUs :=
         bool_decide (NodeConnectionInfo.nodePubKey node
                      ≠ nodePubKey (connections s)) in
       let hasAddresses :=
         bool_decide (is_Some (NodeConnectionInfo.lastAddress node))
         || bool_decide (length (NodeConnectionInfo.addresses node) ≠ 0%nat) in
       let isAllowed :=
         allowKnown || negb (nodesHas w (NodeConnectionInfo.nodePubKey node)) in
       if isNotUs && hasAddresses && isAllowed
       then start (Started node retryConnecting)
       else ret tt)
    nodes.

(** *** lines 778-870.  Where the body of a packet is taken for granted
    ([body!]) and is not there, reading from it throws a TypeError: at the
    destructuring of line 783, at [pairId] of line 803, at [length] of line
    819, at [forEach] of line 839, at [failureReason] of line 865; the
    other swap packets are only printed and passed on.  On a [Nodes] packet
    the connections are changed by the attempts that [connectNodes] starts
    and waits for. *)
Definition handlePacket (peer : PeerId) (packet : Packet.t) : Method.t unit :=
  w ← world;
  s ← state;
  let peerPubKey := nonNull (pubKeyOf s peer) in
  match Packet.body packet with
  | Packet.Order receivedOrder =>
      if isPairActive w peer (Order.pairId receivedOrder) then
        (if truthy (Order.replaceOrderId receivedOrder) then
           start (Emit (packet_orderInvalidation
                          (OrderInvalidation.mk
                             (nonNull (Order.replaceOrderId receivedOrder))
                             (Order.pairId receivedOrder) None)
                          peerPubKey))
         else ret tt);;
        start (Emit (packet_order (IncomingOrder.mk receivedOrder peerPubKey)))
      else ret tt
  | Packet.OrderInvalidation orderInvalidation =>
      if isPairActive w peer (OrderInvalidation.pairId orderInvalidation)
      then start (Emit (packet_orderInvalidation orderInvalidation peerPubKey))
      else ret tt
  | Packet.GetOrders pairIds =>
      start (Emit (packet_getOrders peer (Packet.id packet)
                     (default [] pairIds)))
  | Packet.Orders receivedOrders =>
      if bool_decide (0 < length receivedOrders)%nat then
        forEach
          (fun order =>
             if isPairActive w peer (Order.pairId order)
             then start (Emit (packet_order
                                 (IncomingOrder.mk order peerPubKey)))
             else ret tt)
          receivedOrders
      else ret tt
  | Packet.GetNodes => connection (handleGetNodes peer (Packet.id packet))
  | Packet.Nodes nodes => connectNodes nodes true false
  | Packet.SanitySwap _ => start (Emit (packet_sanitySwapInit packet peer))
  | Packet.SwapRequest _ => start (Emit (packet_swapRequest packet peer))
  | Packet.SwapAccepted _ => start (Emit (packet_swapAccepted packet peer))
  | Packet.SwapFailed _ => start (Emit (packet_swapFailed packet))
  | Packet.Bodiless Packet.sanitySwap =>
      start (Emit (packet_sanitySwapInit packet peer))
  | Packet.Bodiless Packet.swapRequest =>
      start (Emit (packet_swapRequest packet peer))
  | Packet.Bodiless Packet.swapAccepted =>
      start (Emit (packet_swapAccepted packet peer))
  | Packet.Bodiless _ => throw (errors.OTHER "TypeError")
  | Packet.NodeStateUpdate _ => ret tt
  | Packet.Other _ => ret tt
  end.

(** *** lines 944-972: the listeners [bindPeer] registers on a peer, by
    event; the [close] event has [handlePeerClose]. *)
Definition onPacket (peer : PeerId) (packet : Packet.t) : Method.t unit :=
  handlePacket peer packet.

Definition onPairDropped (peer : PeerId) (pairId : string) : Method.t unit :=
  s ← state;
  if bool_decide (pairId ∈ NodeState.pairs (nodeState s))
  then start (Emit (peer_pairDropped (nonNull (pubKeyOf s peer)) pairId))
  else ret tt.

Definition onVerifyPairs (peer : PeerId) : Method.t unit :=
  start (Emit (lifecycle (peer_verifyPairs peer))).

Definition onNodeStateUpdate (peer : PeerId) : Method.t unit :=
  start (Emit (peer_nodeStateUpdate peer)).

Definition onReputation (peer : PeerId) (event : ReputationEvent.t)
  : Method.t unit :=
  s ← state;
  if truthy (pubKeyOf s peer)
  then connection (addReputationEvent (nonNull (pubKeyOf s peer)) event)
  else ret tt.

(** *** lines 287-298: the listener [bindNodeList] registers for
    [node.ban]; the promise of [close] is handed back, not waited for. *)
Definition onNodeBan (nodePubKey : string) (events : list ReputationEvent.t)
  : Method.t unit :=
  s ← state;
  match JsMap.get nodePubKey (peers (connections s)) with
  | Some peer =>
      start (Peer_close peer (Some DisconnectionReason.Banned)
               (Some (json events)))
  | None => ret tt
  end.

(** Lines 607-613: for an outbound peer, the advertised addresses with the
    one in use stamped. *)
Definition stampLastConnected (peerAddress : Address.t) (now : Z)
    (addresses : list Address.t) : list Address.t :=
  map (fun address =>
         if addressUtils.areEqual peerAddress address
         then Address.mk (Address.host address) (Address.port address)
                (Some now)
         else address)
    addresses.

(** [setInterval(callback, delay)] of Node.js: a delay larger than
    2147483647 or less than 1 is set to 1.  The period of the timer, in
    milliseconds. *)
Definition timerPeriod (delay : Z) : Z :=
  if bool_decide (1 ≤ delay ≤ 2147483647) then delay else 1.

(** *** lines 591-626.  [discoverminutes] is a whole number. *)
Definition handleOpenedPeer (peer : PeerId) : Method.t unit :=
  start (Emit (lifecycle (peer_verifyPairs peer)));;
  s ← state;
  (if discover s then
     await (Peer_sendGetNodes peer);;
     if bool_decide (discoverminutes s = 0)
     then start (Peer_discoverTimer peer None)
     else start (Peer_discoverTimer peer
                   (Some (timerPeriod (discoverminutes s * 1000 * 60))))
   else ret tt);;
  w ← world;
  opened ← connection (readPeer peer);
  addresses ←
    (if Peer.inbound opened then ret (Peer.addresses opened)
     else match Peer.addresses opened with
          | Some addresses =>
              ret (Some (stampLastConnected (Peer.address opened) (now w)
                           addresses))
          | None => throw (errors.OTHER "TypeError")
          end);
  let lastAddress :=
    if Peer.inbound opened then None else Some (Peer.address opened) in
  let nodePubKey := nonNull (Peer.nodePubKey opened) in
  if negb (nodesHas w nodePubKey)
  then await (Nodes_createNode nodePubKey addresses lastAddress);; ret tt
  else await (Nodes_updateAddresses nodePubKey addresses lastAddress);; ret tt.

(** Lines 586-588: what [openPeer] leaves running once a peer is
    admitted. *)
Definition openedPeerRoutine (peer : PeerId) (peerPubKey : string)
  : Method.t unit :=
  catch
    (handleOpenedPeer peer;;
     start (Emit (lifecycle (peer_active peerPubKey))))
    (fun _ => ret tt).

End Dispatch.

(** ** Vocabulary of the statements *)

(** The "manual or severe" events of lines 687-692. *)
Definition severeEvents : list ReputationEvent.t :=
  [ReputationEvent.ManualBan; ReputationEvent.ManualUnban;
   ReputationEvent.SwapAbuse; ReputationEvent.SwapMisbehavior;
   ReputationEvent.WireProtocolErr; ReputationEvent.InvalidAuth].

(** When a closed peer is reconnected to, in the words of section 4.4 of
    the specification: "the sent reason is absent or ResponseStalling, the
    received reason is absent or one of ResponseStalling, AlreadyConnected,
    Shutdown, the peer was outbound, we know the peer's pubkey, we have at
    least one address, and the Pool is still connected and not
    disconnecting".  The addresses at hand are the one the peer was dialled
    at and those it advertised. *)
Definition reconnectionCalledFor (peer : Peer.t) (p : Pool.t) : Prop :=
  (Peer.sentDisconnectionReason peer = None
   ∨ Peer.sentDisconnectionReason peer
     = Some DisconnectionReason.ResponseStalling)
  ∧ (Peer.recvDisconnectionReason peer = None
     ∨ ∃ reason, Peer.recvDisconnectionReason peer = Some reason
         ∧ reason ∈ [DisconnectionReason.ResponseStalling;
                     DisconnectionReason.AlreadyConnected;
                     DisconnectionReason.Shutdown])
  ∧ Peer.inbound peer = false
  ∧ (∃ key, Peer.nodePubKey peer = Some key ∧ key ≠ "")
  ∧ (∃ address,
       address ∈ Peer.address peer :: default [] (Peer.addresses peer))
  ∧ connected p = true
  ∧ disconnecting p = false.

(** The pool once [handlePeerClose] has taken an active peer out. *)
Definition withoutPeer (id : PeerId) (peer : Peer.t) (p : Pool.t) : Pool.t :=
  with_store (alter (Peer.with_active false) id (store p))
    (with_peers (JsMap.delete (nonNull (Peer.nodePubKey peer)) (peers p)) p).

(** The entry a [Nodes] reply carries for the peer [connected], when it
    carries one: "every currently open peer except the requester, excluding
    peers without known listening addresses". *)
Definition nodesEntry (p : Pool.t) (requester : Peer.t) (connected : PeerId)
  : option NodeConnectionInfo.t :=
  match store p !! connected with
  | Some peer =>
      match Peer.addresses peer with
      | Some addresses =>
          if decide (Peer.nodePubKey peer ≠ Peer.nodePubKey requester
                     ∧ addresses ≠ [])
          then Some (NodeConnectionInfo.mk (nonNull (Peer.nodePubKey peer))
                       addresses None)
          else None
      | None => None
      end
  | None => None
  end.

(** What [disconnect] starts once it goes about closing, on a pool [q]:
    [server.close()] if the server is listening, [close()] on every pending
    outbound and every pending inbound peer, [close(Shutdown)] on every
    peer of the peers map. *)
Definition shutdownCalls (q : Pool.t) : list ExtCall :=
  (match server q with Some true => [Server_close] | _ => [] end
   ++ map (fun peer => Peer_close peer None)
        (JsMap.values (pendingOutboundPeers q) ++ pendingInboundPeers q)
   ++ map (fun peer => Peer_close peer (Some DisconnectionReason.Shutdown))
        (JsMap.values (peers q)))%list.

(** The promises it then awaits together: the server's [close] event, and
    the promise of each [close] call. *)
Definition shutdownPromises (q : Pool.t) : list ExtCall :=
  (match server q with Some _ => [Server_onceClose] | None => [] end
   ++ map (fun peer => Peer_close peer None)
        (JsMap.values (pendingOutboundPeers q) ++ pendingInboundPeers q)
   ++ map (fun peer => Peer_close peer (Some DisconnectionReason.Shutdown))
        (JsMap.values (peers q)))%list.

(** The pool with its server no longer listening. *)
Definition notListening (q : Pool.t) : Pool.t :=
  match server q with
  | Some true => with_server (Some false) q
  | _ => q
  end.

(** A stretch of [disconnect] that goes about closing on the pool [q]: it
    makes all of [shutdownCalls q] and stops at the joint await of
    [shutdownPromises q], the flags of the pool untouched; whenever that
    await resolves, on a pool [q'], the method ends with [connected] and
    [disconnecting] cleared and nothing else done; if it rejects, the method
    throws with the flags left as they are. *)
Definition closesDown (q : Pool.t)
    (r : Pool.t * list ExtCall * Paused unit) : Prop :=
  ∃ k,
    r = (notListening q, shutdownCalls q, Suspended (shutdownPromises q) k)
    ∧ ∀ q' o,
        sync (k o) q'
        = match o with
          | Rejected e => (q', [], Settled (Thrown e))
          | _ => (with_disconnecting false (with_connected false q'), [],
                  Settled (Returned tt))
          end.

(** The pool once the peer [id] carries what the remote [Hello]
    presented. *)
Definition greeted (h : Hello.t) (id : PeerId) (q : Pool.t) : Pool.t :=
  with_store (alter (Peer_greeted h) id (store q)) q.

(** The pool once the peer [id] is admitted under the public key [key]. *)
Definition admitted (id : PeerId) (key : string) (q : Pool.t) : Pool.t :=
  with_store (alter (Peer.with_active true) id (store q))
    (with_peers (JsMap.set key id (peers q)) q).

(** The handshake of the peer [id] succeeds on the pool [q], with [h] the
    remote [Hello]: the pool accepts connections, [beginOpen] resolves,
    [validatePeer] has no complaint and [completeOpen] does not reject. *)
Definition handshakeSucceeds `{Semver} (o : Oracle) (q : Pool.t) (id : PeerId)
    (expectedNodePubKey : option string) (retryConnecting : bool)
    (h : Hello.t) : Prop :=
  disconnecting q = false
  ∧ connected q = true
  ∧ o [Peer_beginOpen id expectedNodePubKey retryConnecting] = Greeted h
  ∧ (run o (validatePeer id) (greeted h id q)).2 = Returned tt
  ∧ ∀ e, o [Peer_completeOpen id] ≠ Rejected e.

(** [handleSocket] turns a socket away: its remote address is gone (the
    client has disconnected) or banned. *)
Definition socketRefused (socket : Socket.t) (p : Pool.t) : bool :=
  match Socket.remoteAddress socket with
  | Some remoteAddress =>
      String.eqb remoteAddress "" || NodeList.isBanned remoteAddress (nodes p)
  | None => true
  end.

(** The pool with a new peer for [socket], pending inbound. *)
Definition awaitingInbound (socket : Socket.t) (p : Pool.t) : Pool.t :=
  with_pendingInboundPeers (pendingInboundPeers p ++ [length (store p)])
    (with_store (store p ++ [Peer_fromInbound socket]) p).

(** The pool once [addOutbound] has created the peer it dials [address]
    with, pending under [nodePubKey]. *)
Definition dialling (address : Address.t) (nodePubKey : string) (p : Pool.t)
  : Pool.t :=
  with_pendingOutboundPeers
    (JsMap.set nodePubKey (length (store p)) (pendingOutboundPeers p))
    (with_store (store p ++ [Peer.create address]) p).

(** One connection attempt of [tryConnectNode]: [addOutbound] inside a [try]
    whose [catch] is empty; true when the peer was opened. *)
Definition attempt `{Semver} (nodePubKey : string) (address : Address.t)
    (retryConnecting : bool) : Async bool :=
  catch (addOutbound address nodePubKey retryConnecting false;; Ret true)
        (fun _ => Ret false).

(** Try the addresses of a plan in order and "stop on first success". *)
Fixpoint attemptInOrder `{Semver} (nodePubKey : string)
    (plan : list (Address.t * bool)) : Async unit :=
  match plan with
  | [] => Ret tt
  | (address, retryConnecting) :: rest =>
      connected ← attempt nodePubKey address retryConnecting;
      if connected : bool then Ret tt else attemptInOrder nodePubKey rest
  end.

(** An advertised address "equal to lastAddress". *)
Definition isLastAddress (node : NodeConnectionInfo.t) (address : Address.t)
  : bool :=
  match NodeConnectionInfo.lastAddress node with
  | Some lastAddress => addressUtils.areEqual address lastAddress
  | None => false
  end.

(** The outbound connection policy, in the words of section 4.4 of the
    specification: "Try lastAddress first (if any).  On failure, try
    advertised addresses in descending lastConnected order, skipping any
    equal to lastAddress.  [...]  If all fail and retryConnecting was
    requested, retry lastAddress with backoff."  Each address comes with the
    [retryConnecting] flag it is dialled with. *)
Definition connectPlan (node : NodeConnectionInfo.t) (retryConnecting : bool)
  : list (Address.t * bool) :=
  let last := option_list (NodeConnectionInfo.lastAddress node) in
  map (fun address => (address, false)) last
  ++ map (fun address => (address, false))
       (filter (fun address => isLastAddress node address = false)
          (addressUtils.sortByLastConnected
             (NodeConnectionInfo.addresses node)))
  ++ (if retryConnecting then map (fun address => (address, true)) last
      else []).

(** Descending by the time of the last connection. *)
Definition laterConnected (a b : Address.t) : Prop :=
  addressUtils.connectedAt b <= addressUtils.connectedAt a.

(** Started on the pool [p], the promise of [m] is never rejected: however
    the promises it awaits settle, and whatever the pool has become when it
    resumes, [m] does not end by throwing. *)
Fixpoint neverRejects {A : Type} (m : Async A) (p : Pool.t) : Prop :=
  match m with
  | Ret _ => True
  | Throw _ => False
  | Get k => neverRejects (k p) p
  | Put p' k => neverRejects k p'
  | Do _ k => neverRejects k p
  | Await _ k => ∀ o q, neverRejects (k o) q
  end.

(** No connection is to be opened to [nodePubKey]: it is our own key, the
    pool is closed or closing, the node is banned, it is connected already,
    or it is being dialled. *)
Definition blocked (nodePubKey : string) (p : Pool.t) : Prop :=
  nodePubKey = Pool.nodePubKey p
  ∨ disconnecting p = true
  ∨ connected p = false
  ∨ NodeList.isBanned nodePubKey (nodes p) = true
  ∨ JsMap.has nodePubKey (peers p) = true
  ∨ JsMap.has nodePubKey (pendingOutboundPeers p) = true.

(** The hosts under which a node reaches itself (lines 494-498). *)
Definition ownHosts : list string :=
  ["::"; "0.0.0.0"; "::1"; "127.0.0.1"; "localhost"].

Section ServiceVocabulary.
Import Method.

(** The peer carries the public key that a broadcast is to leave out. *)
Definition keepsOut (s : State) (nodeToExclude : option string)
    (peer : PeerId) : Prop :=
  ∃ key, nodeToExclude = Some key ∧ key ≠ "" ∧ pubKeyOf s peer = Some key.

#[global] Instance keepsOut_dec (s : State) (nodeToExclude : option string)
    (peer : PeerId) : Decision (keepsOut s nodeToExclude peer).
Proof.
  unfold keepsOut. destruct nodeToExclude as [key|].
  - destruct (decide (key = "")) as [->|Hne].
    + right. intros (k & [= <-] & ? & _). done.
    + destruct (decide (pubKeyOf s peer = Some key)) as [Heq|Hneq].
      * left. by exists key.
      * right. intros (k & [= <-] & _ & ?). done.
  - right. intros (k & ? & _). done.
Defined.

(** A node that [connectNodes] is to connect to: another node than ours,
    with an address to dial, and, unless known nodes are allowed, one the
    node list does not hold yet. *)
Definition eligible (w : World) (s : State) (allowKnown : bool)
    (node : NodeConnectionInfo.t) : Prop :=
  NodeConnectionInfo.nodePubKey node ≠ nodePubKey (connections s)
  ∧ (is_Some (NodeConnectionInfo.lastAddress node)
     ∨ NodeConnectionInfo.addresses node ≠ [])
  ∧ (allowKnown = true
     ∨ nodesHas w (NodeConnectionInfo.nodePubKey node) = false).

#[global] Instance eligible_dec (w : World) (s : State) (allowKnown : bool)
    (node : NodeConnectionInfo.t) : Decision (eligible w s allowKnown node).
Proof. unfold eligible. apply _. Defined.

(** How a method that returns nothing ends on the awaited call [c]. *)
Definition outcomeOf (w : World) (c : Call) : Completion unit :=
  match answer w c with
  | Failed e => Thrown e
  | _ => Returned tt
  end.

(** An address of the advertised set has the host [ip]. *)
Definition advertises (ip : string) (s : State) : Prop :=
  ∃ address, address ∈ NodeState.addresses (nodeState s)
             ∧ Address.host address = ip.

(** The token identifiers once those of [tokenAddresses] are written, in
    the order of the map. *)
Definition setTokens (m : JsObject.t (option string))
    (tokenAddresses : JsMap.t string) : JsObject.t (option string) :=
  foldl
    (fun m '(currency, tokenAddress) =>
       JsObject.setPrimitive currency (Some tokenAddress) m)
    m tokenAddresses.

(** The discovery timer of a peer, by the minutes configured: none for 0
    minutes; up to 35791 minutes a timer that fires every so many minutes;
    for more minutes, and for a negative number, a timer that fires every
    millisecond. *)
Definition discoveryTimer (minutes : Z) : option Z :=
  if decide (minutes = 0) then None
  else if decide (0 < minutes ≤ 35791) then Some (minutes * 60000)
  else Some 1.

(** The calls of lines 595-604, when they all go through. *)
Definition discoveryCalls (s : State) (peer : PeerId) : list Call :=
  if discover s then
    [Peer_sendGetNodes peer;
     Peer_discoverTimer peer (discoveryTimer (discoverminutes s))]
  else [].

(** The call of lines 616-625 that enters an opened peer in the node
    list. *)
Definition nodeEntry (w : World) (opened : Peer.t)
    (addresses : option (list Address.t)) : Call :=
  let nodePubKey := nonNull (Peer.nodePubKey opened) in
  let lastAddress :=
    if Peer.inbound opened then None else Some (Peer.address opened) in
  if nodesHas w nodePubKey
  then Nodes_updateAddresses nodePubKey addresses lastAddress
  else Nodes_createNode nodePubKey addresses lastAddress.

End ServiceVocabulary.

(** ** Sample data *)

Module Sample.

(** Three nodes: A with public key "aa", B with "bb", C with "cc". *)
Definition config : PoolConfig.t := PoolConfig.mk true 9735 false false.
Definition addressA : Address.t := Address.mk "192.0.2.1" 9735 None.
Definition addressC : Address.t := Address.mk "192.0.2.7" 9735 None.
Definition helloA : Hello.t := Hello.mk "aa" "1.0.0" [addressA] true.
Definition helloC : Hello.t := Hello.mk "cc" "1.0.0" [addressC] true.

(** A socket accepted from node A, and one whose client has gone. *)
Definition socketA : Socket.t := Socket.mk (Some "192.0.2.1") 50123.
Definition socketGone : Socket.t := Socket.mk None 0.

(** Everything awaited resolves; every handshake is with node A, or with
    node C; an existing peer stays connected. *)
Definition oracle : Oracle := fun cs =>
  match cs with
  | [Server_listen port] => Listening port
  | [Peer_beginOpen _ _ _] => Greeted helloA
  | [Peer_onceCloseOrStall _] => StillConnected true
  | _ => Resolved
  end.

Definition oracleC : Oracle := fun cs =>
  match cs with
  | [Peer_beginOpen _ _ _] => Greeted helloC
  | _ => Resolved
  end.

(** Node B as constructed, and after [init]. *)
Definition poolB0 : Pool.t :=
  Pool.create config "bb" "1.0.0" true "1.0.0" (NodeList.mk []).
Definition poolB : Pool.t := (run oracle init poolB0).1.1.

(** Node B having banned "aa": after [init], and after [disconnect]. *)
Definition poolB_banned : Pool.t :=
  (run oracle init
     (Pool.create config "bb" "1.0.0" true "1.0.0" (NodeList.mk ["aa"]))).1.1.
Definition poolB_banned_closed : Pool.t :=
  (run oracle disconnect poolB_banned).1.1.

(** A peer for node A, inbound or outbound, whose first handshake phase is
    through. *)
Definition greetedA (socketAlive : bool) : Peer.t :=
  Peer_greeted (Hello.mk "aa" "1.0.0" [addressA] socketAlive)
    (Peer_fromInbound socketA).
Definition greetedOutboundA (socketAlive : bool) : Peer.t :=
  Peer_greeted (Hello.mk "aa" "1.0.0" [addressA] socketAlive)
    (Peer.create addressA).

(** Node B holding a pending inbound peer for node A whose socket was gone
    by the end of the first phase. *)
Definition poolB_brokenSocket : Pool.t :=
  greeted (Hello.mk "aa" "1.0.0" [addressA] false) 0
    (awaitingInbound socketA poolB).

(** Node B connected to node A by a connection of its own, and to node C as
    well. *)
Definition poolB_connected : Pool.t :=
  (run oracle (addOutbound addressA "aa" false false) poolB).1.1.
Definition poolB_connectedAC : Pool.t :=
  (run oracleC (addOutbound addressC "cc" false false) poolB_connected).1.1.

(** Node B from its construction on, as the event loop sees it. *)
Definition start : System := mkSystem poolB0 [] [].

(** Node B dials node A, with retries; meanwhile node A connects to node B
    and that connection completes its handshake. *)
Definition inboundWhileDialling : list Move :=
  [Enter enter_init; Resume 0 (Listening 9735);
   Enter (enter_addOutbound addressA "aa" true false);
   Enter (enter_handleSocket socketA);
   Resume 1 (Greeted helloA);
   Resume 1 Resolved].

Definition afterInboundWhileDialling : System :=
  foldl play start inboundWhileDialling.

(** The race of two nodes dialling each other, seen from node B: its own
    connection to node A (peer 0) and the one node A opened (peer 1) both
    pass [validatePeer] before either is admitted; node B's own connection
    completes first. *)
Definition race : list Move :=
  [Enter enter_init; Resume 0 (Listening 9735);
   Enter (enter_addOutbound addressA "aa" false false);
   Enter (enter_handleSocket socketA);
   Resume 0 (Greeted helloA);
   Resume 0 (Greeted helloA);
   Resume 0 Resolved;
   Resume 0 Resolved;
   Resume 0 Resolved].

Definition afterRace : System := foldl play start race.

(** Node B at the moment of the race when its own connection to node A has
    been admitted and the one node A opened is about to be. *)
Definition raceBeforeResolution : Pool.t :=
  pool (foldl play start (take 7 race)).

(** Node B while it dials node A: the first stretch of [addOutbound] is
    through. *)
Definition poolB_dialling : Pool.t := dialling addressA "aa" poolB.

(** Every dial gives up after its retries. *)
Definition oracleGaveUp : Oracle := fun cs =>
  match cs with
  | [Peer_beginOpen _ _ _] =>
      Rejected errors.CONNECTION_RETRIES_MAX_PERIOD_EXCEEDED
  | _ => Resolved
  end.

(** Node A as the node list would hand it to [tryConnectNode]. *)
Definition nodeA : NodeConnectionInfo.t :=
  NodeConnectionInfo.mk "aa" [addressA] (Some addressA).

(** Node B shuts down while its start-up connections are under way.  The
    node list is loaded, and the handler chained on [nodes.load()] has
    started [tryConnectNode] for node A (line 196), which waits for the
    handshake.  [disconnect] is called: it waits for the promise of
    [nodes.load()], which has resolved; it closes what is pending and
    waits for that; then it ends. *)
Definition shutdownDuringStartup : list Move :=
  [Enter enter_init; Resume 0 (Listening 9735);
   Enter (enter_tryConnectNode nodeA true);
   Enter enter_disconnect;
   Resume 1 Resolved;
   Resume 1 Resolved].

Definition afterShutdownDuringStartup : System :=
  foldl play start shutdownDuringStartup.

(** The world around node B: every promise is fulfilled, the external
    address is 203.0.113.5, node A trades LTC/BTC and node C does not, and
    the node list knows node A only. *)
Definition world : Method.World :=
  Method.mkWorld oracle
    (fun c =>
       match c with
       | Method.GetExternalIp => Method.Text "203.0.113.5"
       | Method.Peer_discoverNodes _ => Method.Count 2
       | _ => Method.Fulfilled
       end)
    (fun peer pairId => bool_decide (peer = 0%nat ∧ pairId = "LTC/BTC"))
    (fun nodePubKey => bool_decide (nodePubKey = "aa"))
    1600000000000
    (fun _ => "7f3c").

(** Node B connected to the nodes A and C, advertising nothing yet, with
    discovery every ten minutes. *)
Definition nodeB : Method.State :=
  Method.mkState poolB_connectedAC NodeState.initial true 10.

(** The same with discovery every thirty days. *)
Definition nodeB_monthly : Method.State :=
  Method.mkState poolB_connectedAC NodeState.initial true 43200.

End Sample.

(** * Properties *)

(** ** Running composed methods *)

Lemma run_bind {A B : Type} (o : Oracle) (m : Async A) (f : A -> Async B)
    (p : Pool.t) :
  run o (m ≫= f) p =
    match run o m p with
    | (p1, t1, Returned a) =>
        let '(p2, t2, r) := run o (f a) p1 in (p2, (t1 ++ t2)%list, r)
    | (p1, t1, Thrown e) => (p1, t1, Thrown e)
    end.
Proof.
  revert p. induction m as [a|e|k IH|q k IH|c k IH|cs k IH]; intros p; simpl.
  - by destruct (run o (f a) p) as [[??]?].
  - done.
  - apply IH.
  - apply IH.
  - unfold mbind, Async_bind in IH. rewrite IH.
    destruct (run o k p) as [[p1 t1] [a|e]]; [|done].
    by destruct (run o (f a) p1) as [[??]?].
  - apply IH.
Qed.

Lemma run_catch {A : Type} (o : Oracle) (m : Async A)
    (h : errors.t -> Async A) (p : Pool.t) :
  run o (catch m h) p =
    match run o m p with
    | (p1, t1, Returned a) => (p1, t1, Returned a)
    | (p1, t1, Thrown e) =>
        let '(p2, t2, r) := run o (h e) p1 in (p2, (t1 ++ t2)%list, r)
    end.
Proof.
  revert p. induction m as [a|e|k IH|q k IH|c k IH|cs k IH]; intros p; simpl.
  - done.
  - by destruct (run o (h e) p) as [[??]?].
  - apply IH.
  - apply IH.
  - rewrite IH. destruct (run o k p) as [[p1 t1] [a|e]]; [done|].
    by destruct (run o (h e) p1) as [[??]?].
  - apply IH.
Qed.

Lemma run_finally {A : Type} (o : Oracle) (m : Async A) (f : Async unit)
    (p : Pool.t) :
  run o (finally m f) p =
    match run o m p with
    | (p1, t1, r) =>
        match run o f p1 with
        | (p2, t2, Returned _) => (p2, (t1 ++ t2)%list, r)
        | (p2, t2, Thrown e) => (p2, (t1 ++ t2)%list, Thrown e)
        end
    end.
Proof.
  revert p. induction m as [a|e|k IH|q k IH|c k IH|cs k IH]; intros p; simpl.
  - rewrite run_bind. simpl.
    destruct (run o f p) as [[??] [[]|?]]; [|done]. by rewrite app_nil_r.
  - rewrite run_bind. simpl.
    destruct (run o f p) as [[??] [[]|?]]; [|done]. by rewrite app_nil_r.
  - apply IH.
  - apply IH.
  - rewrite IH. destruct (run o k p) as [[p1 t1] r].
    by destruct (run o f p1) as [[??] [[]|?]].
  - apply IH.
Qed.

Lemma sync_bind {A B : Type} (m : Async A) (f : A -> Async B) (p : Pool.t) :
  sync (m ≫= f) p =
    match sync m p with
    | (p1, t1, Settled (Returned a)) =>
        let '(p2, t2, r) := sync (f a) p1 in (p2, (t1 ++ t2)%list, r)
    | (p1, t1, Settled (Thrown e)) => (p1, t1, Settled (Thrown e))
    | (p1, t1, Suspended cs k) => (p1, t1, Suspended cs (fun o => k o ≫= f))
    end.
Proof.
  revert p. induction m as [a|e|k IH|q k IH|c k IH|cs k IH]; intros p; simpl.
  - by destruct (sync (f a) p) as [[??]?].
  - done.
  - apply IH.
  - apply IH.
  - unfold mbind, Async_bind in IH. rewrite IH.
    destruct (sync k p) as [[p1 t1] [[a|e]|cs k']]; [|done..].
    by destruct (sync (f a) p1) as [[??]?].
  - done.
Qed.

Lemma sync_startAll (cs : list ExtCall) (p : Pool.t) :
  sync (startAll cs) p = (p, cs, Settled (Returned cs)).
Proof.
  unfold startAll. generalize cs at 1 4 as result.
  induction cs as [|c cs IH]; intros result; simpl; [done|].
  by rewrite IH.
Qed.

Lemma bind_assoc {A B C : Type} (m : Async A) (f : A -> Async B) (g : B -> Async C) :
  (m ≫= f) ≫= g = m ≫= (fun x => f x ≫= g).
Proof.
  induction m as [a|e|k IH|q k IH|c k IH|cs k IH]; simpl; try done.
  - f_equal. extensionality p. apply IH.
  - f_equal. apply IH.
  - f_equal. apply IH.
  - f_equal. extensionality o. apply IH.
Qed.

Lemma bind_ext {A B : Type} (m : Async A) (f g : A -> Async B) :
  (∀ x, f x = g x) -> m ≫= f = m ≫= g.
Proof. intros Hfg. f_equal. by extensionality x. Qed.

(** ** Facts about insertion-ordered maps and sets *)

Section JsMapFacts.
Context {V : Type}.
Implicit Types (m : JsMap.t V) (k : string) (v : V).

Lemma JsMap_get_set_eq k v m : JsMap.get k (JsMap.set k v m) = Some v.
Proof.
  induction m as [|[k0 v0] m IH]; simpl.
  - by rewrite decide_True.
  - destruct (decide (k0 = k)) as [->|Hne]; simpl.
    + by rewrite decide_True.
    + by rewrite decide_False.
Qed.

Lemma JsMap_has_delete k m : JsMap.has k (JsMap.delete k m) = false.
Proof.
  unfold JsMap.has. induction m as [|[k0 v0] m IH]; simpl; [done|].
  destruct (decide (k0 = k)) as [->|Hne]; simpl; [done|].
  by rewrite decide_False.
Qed.

Lemma JsMap_set_elem_of k v m :
  (k, v) ∈ JsMap.set k v m.
Proof.
  induction m as [|[k0 v0] m IH]; simpl.
  - apply list_elem_of_here.
  - case_decide; rewrite !elem_of_cons; auto.
Qed.

Lemma JsMap_entries_absent k m :
  k ∉ JsMap.keys m -> filter (fun kv => kv.1 = k) m = [].
Proof.
  unfold JsMap.keys. induction m as [|[k0 v0] m IH]; [done|].
  rewrite fmap_cons. intros [Hne Hm]%not_elem_of_cons.
  rewrite filter_cons_False by (simpl in *; congruence). by apply IH.
Qed.

Lemma JsMap_entries_get k v m :
  NoDup (JsMap.keys m) -> JsMap.get k m = Some v ->
  filter (fun kv => kv.1 = k) m = [(k, v)].
Proof.
  unfold JsMap.keys. induction m as [|[k0 v0] m IH]; [done|].
  rewrite fmap_cons. intros [Hk0 Hm]%NoDup_cons. cbn [JsMap.get].
  destruct (decide (k0 = k)) as [->|Hne].
  - intros [= ->]. rewrite filter_cons_True by done.
    by rewrite JsMap_entries_absent.
  - intros Hget. rewrite filter_cons_False by done. by apply IH.
Qed.

Lemma JsMap_entries_set k v m :
  NoDup (JsMap.keys m) ->
  filter (fun kv => kv.1 = k) (JsMap.set k v m) = [(k, v)].
Proof.
  unfold JsMap.keys. induction m as [|[k0 v0] m IH].
  - intros _. cbn [JsMap.set]. by rewrite filter_cons_True, filter_nil.
  - rewrite fmap_cons. intros [Hk0 Hm]%NoDup_cons. cbn [JsMap.set].
    destruct (decide (k0 = k)) as [->|Hne].
    + rewrite filter_cons_True by done. by rewrite JsMap_entries_absent.
    + rewrite filter_cons_False by done. by apply IH.
Qed.

End JsMapFacts.

Lemma filter_ne_fresh (l : list nat) (id : nat) :
  id ∉ l -> filter (fun x => x ≠ id) (l ++ [id]) = l.
Proof.
  induction l as [|x l IH]; intros Hfresh; simpl.
  - by rewrite filter_cons_False, filter_nil by (intros ?; done).
  - apply not_elem_of_cons in Hfresh as [Hx Hl].
    rewrite filter_cons_True by done. by rewrite IH.
Qed.

Lemma foldl_push_omap {X Y : Type} (g : X -> option Y) (f : list Y -> X -> list Y)
    (l : list X) (acc : list Y) :
  (∀ acc x, f acc x = match g x with
                      | Some y => (acc ++ [y])%list
                      | None => acc
                      end) ->
  foldl f acc l = (acc ++ omap g l)%list.
Proof.
  intros Hf. revert acc. induction l as [|x l IH]; intros acc; simpl.
  - by rewrite app_nil_r.
  - rewrite IH, Hf. destruct (g x); [|done]. by rewrite <- app_assoc.
Qed.

(** ** The sort of addresses *)

Lemma insertByLastConnected_perm (a : Address.t) (l : list Address.t) :
  addressUtils.insertByLastConnected a l ≡ₚ a :: l.
Proof.
  induction l as [|b l IH]; simpl; [done|].
  destruct (addressUtils.connectedAt b <=? addressUtils.connectedAt a); [done|].
  rewrite IH. apply Permutation_swap.
Qed.

Lemma sortByLastConnected_perm (l : list Address.t) :
  addressUtils.sortByLastConnected l ≡ₚ l.
Proof.
  unfold addressUtils.sortByLastConnected.
  induction l as [|a l IH]; simpl; [done|].
  by rewrite insertByLastConnected_perm, IH.
Qed.

Lemma insertByLastConnected_sorted (a : Address.t) (l : list Address.t) :
  StronglySorted laterConnected l ->
  StronglySorted laterConnected (addressUtils.insertByLastConnected a l).
Proof.
  unfold laterConnected.
  induction 1 as [|b l Hl IH Hb]; simpl.
  - repeat constructor.
  - destruct (Z.leb_spec (addressUtils.connectedAt b) (addressUtils.connectedAt a)) as [Hlt|Hge].
    + constructor; [by constructor|].
      constructor; [lia|]. eapply Forall_impl; [exact Hb|]. simpl. intros c Hc. lia.
    + constructor; [done|].
      rewrite insertByLastConnected_perm. constructor; [lia|done].
Qed.

Lemma sortByLastConnected_sorted (l : list Address.t) :
  StronglySorted laterConnected (addressUtils.sortByLastConnected l).
Proof.
  unfold addressUtils.sortByLastConnected.
  induction l as [|a l IH]; simpl; [constructor|].
  by apply insertByLastConnected_sorted.
Qed.

(** ** Schedules of the event loop *)

Lemma play_reachable `{Semver} (ms : list Move) (s : System) :
  legal s ms -> reachable s (foldl play s ms).
Proof.
  revert s. induction ms as [|m ms IH]; intros s; simpl.
  - intros _. apply rtc_refl.
  - intros [Hm Hms]. eapply rtc_l; [|by apply IH].
    destruct m as [e|i o]; simpl.
    + by apply step_enter.
    + destruct (tasks s !! i) as [[cs k]|] eqn:Hi; [|done].
      by eapply step_resume.
Qed.

(** ** Opening a peer *)

Lemma validatePeer_returns `{Semver} (o : Oracle) (q : Pool.t) (id : PeerId) (peer : Peer.t) :
  store q !! id = Some peer ->
  ∀ q' calls, run o (validatePeer id) q = (q', calls, Returned tt) ->
    q' = q ∧ calls = []
    ∧ JsMap.has (nonNull (Peer.nodePubKey peer)) (peers q) = false
    ∧ connected q = true.
Proof.
  intros Hpeer q' calls. unfold validatePeer, readPeer. simpl. rewrite Hpeer. simpl.
  repeat (case_match; simpl; try (destruct (o _); simpl); try discriminate).
  all: intros [= <- <-]; split_and!; try done.
  all: by apply negb_false_iff.
Qed.

Lemma validatePeer_pool `{Semver} (o : Oracle) (q : Pool.t) (id : PeerId) :
  (run o (validatePeer id) q).1.1 = q.
Proof.
  unfold validatePeer, readPeer. simpl.
  repeat (case_match; simpl; try (destruct (o _); simpl); try done).
Qed.

Lemma run_openPeer_failed (o : Oracle) (q : Pool.t) (id : PeerId)
    (expected : option string) (err : errors.t) :
  ∃ calls e, run o (openPeer_failed id expected err) q = (q, calls, Thrown e).
Proof.
  unfold openPeer_failed, readPeer. simpl.
  case_bool_decide; simpl; [|by eauto].
  destruct (store q !! id); simpl; [|by eauto].
  destruct (o _); simpl; eauto.
Qed.

Lemma run_openPeer_admit_fresh (o : Oracle) (q : Pool.t) (id : PeerId) (peer : Peer.t) :
  store q !! id = Some peer ->
  JsMap.has (nonNull (Peer.nodePubKey peer)) (peers q) = false ->
  run o (openPeer_admit id) q
  = (admitted id (nonNull (Peer.nodePubKey peer)) q, [HandleOpenedPeer id], Returned tt).
Proof.
  intros Hpeer Hfresh. unfold openPeer_admit, readPeer, JsMap.has in *. simpl.
  rewrite Hpeer. simpl.
  destruct (JsMap.get _ _); [done|]. reflexivity.
Qed.

Lemma openPeer_unfold `{Semver} (id : PeerId) (expected : option string)
    (retry : bool) :
  openPeer id expected retry
  = (p ← get;
     if disconnecting p || negb (connected p) then Throw errors.POOL_CLOSED
     else
       catch (openPeer_handshake id expected retry)
             (openPeer_failed id expected);;
       openPeer_admit id).
Proof. reflexivity. Qed.

Opaque validatePeer openPeer_admit openPeer_failed.

Lemma openPeer_outcome `{Semver} (o : Oracle) (q : Pool.t) (id : PeerId)
    (peer0 : Peer.t) (expected : option string) (retry : bool) :
  store q !! id = Some peer0 ->
  let R := run o (openPeer id expected retry) q in
  pendingInboundPeers R.1.1 = pendingInboundPeers q
  ∧ pendingOutboundPeers R.1.1 = pendingOutboundPeers q
  ∧ length (store R.1.1) = length (store q)
  ∧ match R.2 with
    | Returned _ =>
        ∃ h, handshakeSucceeds o q id expected retry h
             ∧ R.1.1 = admitted id (Hello.nodePubKey h) (greeted h id q)
    | Thrown _ =>
        peers R.1.1 = peers q
        ∧ ∀ h, ¬ handshakeSucceeds o q id expected retry h
    end.
Proof.
  intros Hpeer R. subst R. unfold openPeer, handshakeSucceeds. simpl.
  destruct (disconnecting q) eqn:Hd; simpl.
  { split_and!; try done. intros h (? & _). done. }
  destruct (connected q) eqn:Hc; simpl.
  2:{ split_and!; try done. intros h (? & ? & _). done. }
  rewrite run_bind, run_catch. unfold openPeer_handshake, awaitBeginOpen.
  rewrite !run_bind. simpl.
  destruct (o [Peer_beginOpen id expected retry]) as [|e|h|b|port] eqn:Hb;
    simpl.
  1,2,4,5:
    match goal with
    | |- context [run _ (openPeer_failed _ _ ?e) _] =>
        destruct (run_openPeer_failed o q id expected e) as (calls & e' & ->)
    end; simpl; split_and!; try done; intros h' (_ & _ & ? & _); done.
  fold (greeted h id q). rewrite run_bind.
  pose proof (validatePeer_pool o (greeted h id q) id) as Hpool.
  destruct (run o (validatePeer id) (greeted h id q)) as [[q1 t1] [[]|e]] eqn:Hv;
    simpl in Hpool; subst q1; simpl.
  2:{ destruct (run_openPeer_failed o (greeted h id q) id expected e)
        as (calls & e' & ->); simpl.
      split_and!; try done; [by rewrite length_alter|].
      intros h' (_ & _ & [= <-] & Hv' & _).
      rewrite Hv in Hv'. done. }
  assert (Hg : store (greeted h id q) !! id = Some (Peer_greeted h peer0)).
  { unfold greeted. simpl. rewrite list_lookup_alter_eq, Hpeer. done. }
  destruct (validatePeer_returns o _ id _ Hg _ _ Hv) as (_ & -> & Hfresh & _).
  simpl.
  destruct (o [Peer_completeOpen id]) as [|e| | |] eqn:Hcomp; simpl.
  2:{ destruct (run_openPeer_failed o (greeted h id q) id expected e)
        as (calls & e' & ->); simpl.
      split_and!; try done; [by rewrite length_alter|].
      intros h' (_ & _ & _ & _ & Hno). by destruct (Hno e). }
  all: rewrite (run_openPeer_admit_fresh o _ id _ Hg Hfresh); simpl.
  all: split_and!; try done; [by rewrite !length_alter|].
  all: exists h; split; [|done].
  all: split_and!; try done; by rewrite Hv.
Qed.

Transparent validatePeer openPeer_admit openPeer_failed.

Opaque openPeer.

Lemma addOutbound_cases `{Semver} (p : Pool.t) (address : Address.t) (pk : string)
    (retry revoke : bool) :
  let id := length (store p) in
  let attempt := addOutbound address pk retry revoke in
  (∃ e, sync attempt p = (p, [], Settled (Thrown e))
        ∧ ∀ o, run o attempt p = (p, [], Thrown e))
  ∨ (JsMap.has pk (peers p) = false
     ∧ disconnecting p = false ∧ connected p = true
     ∧ ∃ pre,
         (∃ k, sync attempt p
               = (dialling address pk p,
                  pre ++ [Peer_on id; Peer_beginOpen id (Some pk) retry],
                  Suspended [Peer_beginOpen id (Some pk) retry] k))
         ∧ ∀ o, run o attempt p
                = let '(q', calls, r) :=
                    run o (openPeer id (Some pk) retry) (dialling address pk p) in
                  (with_pendingOutboundPeers
                     (JsMap.delete pk (pendingOutboundPeers q')) q',
                   pre ++ Peer_on id :: calls,
                   match r with
                   | Returned _ => Returned id
                   | Thrown e => Thrown e
                   end)).
Proof.
  intros id attempt. subst id attempt. unfold addOutbound. simpl.
  destruct (bool_decide (pk = nodePubKey p) || addressIsSelf address p);
    simpl; [left; eauto|].
  destruct (disconnecting p) eqn:Hd; simpl; [left; eauto|].
  destruct (connected p) eqn:Hc; simpl; [|left; eauto].
  destruct (negb (PoolConfig.tor (config p)) && _); simpl; [left; eauto|].
  destruct (NodeList.isBanned pk (nodes p)); simpl; [left; eauto|].
  destruct (JsMap.has pk (peers p)) eqn:Hp; simpl; [left; eauto|].
  destruct (JsMap.get pk (pendingOutboundPeers p)) as [pendingPeer|] eqn:Hg;
    simpl; [destruct revoke; simpl; [|left; eauto]|].
  all: right; split_and!; try done.
  - exists [Peer_revokeConnectionRetries pendingPeer]. split.
    + rewrite openPeer_unfold. simpl. rewrite Hd, Hc. simpl. eexists. reflexivity.
    + intros o. rewrite run_bind, run_finally. fold (dialling address pk p).
      destruct (run o (openPeer _ _ _) _) as [[q' calls] [[]|e]]; simpl;
        by rewrite ?app_nil_r.
  - exists []. split.
    + rewrite openPeer_unfold. simpl. rewrite Hd, Hc. simpl. eexists. reflexivity.
    + intros o. rewrite run_bind, run_finally. fold (dialling address pk p).
      destruct (run o (openPeer _ _ _) _) as [[q' calls] [[]|e]]; simpl;
        by rewrite ?app_nil_r.
Qed.

Transparent openPeer.

Lemma openPeer_admit_pending (o : Oracle) (q : Pool.t) (i : PeerId) :
  pendingOutboundPeers (run o (openPeer_admit i) q).1.1 = pendingOutboundPeers q.
Proof.
  unfold openPeer_admit, readPeer. simpl.
  destruct (store q !! i) as [peer|]; simpl; [|done].
  destruct (JsMap.get _ (peers q)); simpl; [|done].
  destruct (String.ltb _ _); simpl.
  - by destruct (o _).
  - destruct (o [Peer_onceCloseOrStall _]) as [| | |[]|]; simpl; try done.
    all: by destruct (o _).
Qed.

Lemma handleSocket_addInbound `{Semver} (socket : Socket.t) (p : Pool.t) :
  socketRefused socket p = false ->
  sync (handleSocket socket) p = sync (addInbound socket) p
  ∧ ∀ o, run o (handleSocket socket) p = run o (addInbound socket) p.
Proof.
  unfold socketRefused, handleSocket. simpl.
  destruct (Socket.remoteAddress socket) as [a|]; [|done].
  destruct (String.eqb a ""); simpl; [done|]. by intros ->.
Qed.

(** ** Duplicate connections (C1) *)

(** C1, as stated, fails: the connection closed in the race need not be the
    one the node with the higher public key initiated.  Node B ("bb") dials
    node A ("aa") while node A dials node B; at node B both connections pass
    [validatePeer], then node B's own connection is admitted first.  When
    the connection that node A initiated (peer 1, inbound) completes, node
    B, having the higher key, closes it with AlreadyConnected, and the
    connection that node B initiated (peer 0) is the one that stays. *)
Lemma race_closes_connection_of_lower_node :
  reachable Sample.start Sample.afterRace
  ∧ nodePubKey (pool Sample.afterRace) = "bb"
  ∧ String.ltb "aa" "bb" = true
  ∧ Peer_close 1%nat (Some DisconnectionReason.AlreadyConnected)
    ∈ trace Sample.afterRace
  ∧ Peer.inbound <$> store (pool Sample.afterRace) !! 1%nat = Some true
  ∧ Peer.nodePubKey <$> store (pool Sample.afterRace) !! 1%nat
    = Some (Some "aa")
  ∧ peers (pool Sample.afterRace) = [("aa", 0%nat)]
  ∧ Peer.inbound <$> store (pool Sample.afterRace) !! 0%nat = Some false.
Proof.
  split.
  - apply play_reachable. vm_compute. tauto.
  - split_and!; try reflexivity.
    vm_compute. repeat first [apply list_elem_of_here | apply list_elem_of_further].
Qed.

(** C1, amended.  When [openPeer], both handshake phases through, finds the
    remote public key in the peers map already: if our own key is the higher
    one it closes the new peer with AlreadyConnected and throws
    NODE_ALREADY_CONNECTED, whichever side initiated the new connection;
    otherwise it waits for the existing peer's [close] event or for
    STALL_INTERVAL to pass, and then, if the existing peer is still
    connected, closes the new peer with AlreadyConnected and throws
    NODE_ALREADY_CONNECTED, and if the existing peer has closed, puts the
    new peer in the peers map under that key, active.  Either way the peers
    map then holds exactly one entry for the remote key: the existing peer
    where the new one was closed, the new peer where it was admitted.  So in
    the race of two nodes the node with the higher key closes whichever
    connection completes second at its end. *)
Theorem openPeer_admit_duplicate (o : Oracle) (p : Pool.t) (id : PeerId)
    (peer : Peer.t) (existing : PeerId) :
  store p !! id = Some peer ->
  let key := nonNull (Peer.nodePubKey peer) in
  JsMap.get key (peers p) = Some existing ->
  (∀ reason, o [Peer_close id reason] = Resolved) ->
  let rejected (q : Pool.t) :=
    (q, [Peer_close id (Some DisconnectionReason.AlreadyConnected)],
     @Thrown unit (errors.NODE_ALREADY_CONNECTED key (Peer.address peer))) in
  (String.ltb key (nodePubKey p) = true ->
   run o (openPeer_admit id) p = rejected p)
  ∧ (String.ltb key (nodePubKey p) = false ->
     ∃ k,
       sync (openPeer_admit id) p
       = (p, [Peer_onceCloseOrStall existing],
          Suspended [Peer_onceCloseOrStall existing] k)
       ∧ ∀ q,
           run o (k (StillConnected true)) q = rejected q
           ∧ run o (k (StillConnected false)) q
             = (admitted id key q, [HandleOpenedPeer id], Returned tt))
  ∧ (NoDup (JsMap.keys (peers p)) ->
     filter (fun kv => kv.1 = key) (peers p) = [(key, existing)])
  ∧ (∀ q, NoDup (JsMap.keys (peers q)) ->
     filter (fun kv => kv.1 = key) (peers (admitted id key q)) = [(key, id)]).
Proof.
  intros Hpeer key Hdup Hquiet rejected. subst rejected. split_and!.
  - intros Hhigher. unfold openPeer_admit, readPeer. simpl. rewrite Hpeer. simpl.
    fold key. rewrite Hdup, Hhigher. simpl. by rewrite Hquiet.
  - intros Hlower. unfold openPeer_admit, readPeer. simpl. rewrite Hpeer. simpl.
    fold key. rewrite Hdup, Hlower. simpl. eexists. split; [reflexivity|].
    intros q. simpl. by rewrite Hquiet.
  - intros Hnodup. by apply JsMap_entries_get.
  - intros q Hnodup. simpl. by apply JsMap_entries_set.
Qed.

Lemma openPeer_admit_duplicate_race :
  run Sample.oracle (openPeer_admit 1%nat) Sample.raceBeforeResolution
  = (Sample.raceBeforeResolution,
     [Peer_close 1%nat (Some DisconnectionReason.AlreadyConnected)],
     Thrown (errors.NODE_ALREADY_CONNECTED "aa"
               (Address.mk "192.0.2.1" 50123 None))).
Proof.
  assert (Hpeer : store Sample.raceBeforeResolution !! 1%nat
                  = Some (Sample.greetedA true)) by reflexivity.
  assert (Hdup : JsMap.get (nonNull (Peer.nodePubKey (Sample.greetedA true)))
                   (peers Sample.raceBeforeResolution) = Some 0%nat)
    by reflexivity.
  assert (Hquiet : ∀ reason, Sample.oracle [Peer_close 1%nat reason] = Resolved)
    by reflexivity.
  pose proof (openPeer_admit_duplicate Sample.oracle
                Sample.raceBeforeResolution 1%nat (Sample.greetedA true)
                0%nat Hpeer Hdup Hquiet) as (Hhigher & _).
  apply Hhigher. reflexivity.
Defined.

(** ** Admission checks (C2) *)

(** C2, as stated, fails: not every rejection closes the peer.  A peer whose
    socket broke during the first handshake phase is rejected with
    NOT_CONNECTED and [peer.close] is not called, so no disconnection reason
    is sent. *)
Lemma validatePeer_broken_socket_not_closed :
  run Sample.oracle (validatePeer 0%nat) Sample.poolB_brokenSocket
  = (Sample.poolB_brokenSocket, [], Thrown (errors.NOT_CONNECTED "aa")).
Proof. reflexivity. Qed.

(** C2, amended.  For a peer that has completed the first handshake phase,
    [validatePeer] applies its checks in the order self, malformed version,
    incompatible version, pool disconnected, banned, duplicate, broken
    socket.  The first six rejections close the peer with ConnectedToSelf,
    MalformedVersion, IncompatibleProtocolVersion, NotAcceptingConnections,
    Banned and AlreadyConnected, six distinct reasons, and throw
    ATTEMPTED_CONNECTION_TO_SELF, MALFORMED_VERSION, INCOMPATIBLE_VERSION,
    POOL_CLOSED, NODE_IS_BANNED and NODE_ALREADY_CONNECTED; the seventh
    throws NOT_CONNECTED without closing the peer.  No check changes the
    pool, and a peer that passes all seven is accepted. *)
Theorem validatePeer_order `{Semver} (o : Oracle) (p : Pool.t) (id : PeerId)
    (peer : Peer.t) (peerPubKey : string) :
  store p !! id = Some peer ->
  Peer.nodePubKey peer = Some peerPubKey ->
  peerPubKey ≠ "" ->
  (∀ reason, o [Peer_close id reason] = Resolved) ->
  let rejects reason e :=
    run o (validatePeer id) p = (p, [Peer_close id (Some reason)], Thrown e) in
  let self := bool_decide (peerPubKey = nodePubKey p) in
  let wellFormed := semver_valid (Peer.version peer) in
  let order := semver_compare (Peer.version peer) (minCompatibleVersion p) in
  let compatible := order = Some Eq ∨ order = Some Gt in
  let banned := NodeList.isBanned peerPubKey (nodes p) in
  let duplicate := JsMap.has peerPubKey (peers p) in
  (self = true ->
   rejects DisconnectionReason.ConnectedToSelf
     errors.ATTEMPTED_CONNECTION_TO_SELF)
  ∧ (self = false -> wellFormed = false ->
     rejects DisconnectionReason.MalformedVersion
       (errors.MALFORMED_VERSION (Peer.address peer) (Peer.version peer)))
  ∧ (self = false -> wellFormed = true -> order = Some Lt ->
     rejects DisconnectionReason.IncompatibleProtocolVersion
       (errors.INCOMPATIBLE_VERSION (Peer.address peer)
          (minCompatibleVersion p) (Peer.version peer)))
  ∧ (self = false -> wellFormed = true -> compatible ->
     connected p = false ->
     rejects DisconnectionReason.NotAcceptingConnections errors.POOL_CLOSED)
  ∧ (self = false -> wellFormed = true -> compatible ->
     connected p = true -> banned = true ->
     rejects DisconnectionReason.Banned (errors.NODE_IS_BANNED peerPubKey))
  ∧ (self = false -> wellFormed = true -> compatible ->
     connected p = true -> banned = false -> duplicate = true ->
     rejects DisconnectionReason.AlreadyConnected
       (errors.NODE_ALREADY_CONNECTED peerPubKey (Peer.address peer)))
  ∧ (self = false -> wellFormed = true -> compatible ->
     connected p = true -> banned = false -> duplicate = false ->
     Peer.connected peer = false ->
     run o (validatePeer id) p
     = (p, [], Thrown (errors.NOT_CONNECTED peerPubKey)))
  ∧ (self = false -> wellFormed = true -> compatible ->
     connected p = true -> banned = false -> duplicate = false ->
     Peer.connected peer = true ->
     run o (validatePeer id) p = (p, [], Returned tt))
  ∧ NoDup [DisconnectionReason.ConnectedToSelf;
           DisconnectionReason.MalformedVersion;
           DisconnectionReason.IncompatibleProtocolVersion;
           DisconnectionReason.NotAcceptingConnections;
           DisconnectionReason.Banned;
           DisconnectionReason.AlreadyConnected].
Proof.
  intros Hpeer Hkey Hne Hquiet rejects self wellFormed order compatible
    banned duplicate.
  assert (Htruthy : truthy (Peer.nodePubKey peer) = true).
  { rewrite Hkey. simpl. destruct (String.eqb_spec peerPubKey ""); done. }
  subst rejects compatible. unfold validatePeer, readPeer. simpl.
  rewrite Hpeer. simpl. rewrite Htruthy, Hkey. simpl.
  fold self wellFormed order banned duplicate.
  split_and!; intros.
  all: repeat match goal with
         | H : ?x = _ |- _ => is_var x; rewrite H; clear H; simpl
         | H : _ ∨ _ |- _ => destruct H
         | H : connected _ = _ |- _ => rewrite H; clear H; simpl
         | H : Peer.connected _ = _ |- _ => rewrite H; clear H; simpl
         end.
  all: rewrite ?Hquiet; try reflexivity.
  repeat (apply NoDup_cons; split;
          [rewrite ?elem_of_cons, elem_of_nil; intuition discriminate|]).
  apply NoDup_nil. done.
Qed.

Lemma validatePeer_order_broken_socket :
  run Sample.oracle (validatePeer 0%nat) Sample.poolB_brokenSocket
  = (Sample.poolB_brokenSocket, [], Thrown (errors.NOT_CONNECTED "aa")).
Proof.
  assert (Hpeer : store Sample.poolB_brokenSocket !! 0%nat
                  = Some (Sample.greetedA false)) by reflexivity.
  assert (Hkey : Peer.nodePubKey (Sample.greetedA false) = Some "aa")
    by reflexivity.
  assert (Hne : "aa" ≠ "") by discriminate.
  assert (Hquiet : ∀ reason, Sample.oracle [Peer_close 0%nat reason] = Resolved)
    by reflexivity.
  pose proof (validatePeer_order Sample.oracle Sample.poolB_brokenSocket
                0%nat (Sample.greetedA false) "aa" Hpeer Hkey Hne Hquiet)
    as (_ & _ & _ & _ & _ & _ & Hbroken & _).
  apply Hbroken; try reflexivity. left; reflexivity.
Defined.

(** ** Reconnection (C3) *)

Lemma shouldReconnect_spec (peer : Peer.t) (p : Pool.t) :
  shouldReconnect peer p = true ↔ reconnectionCalledFor peer p.
Proof.
  unfold shouldReconnect, reconnectionCalledFor,
    doesDisconnectionReasonCallForReconnection, truthy.
  rewrite !andb_true_iff, !orb_true_iff, !bool_decide_eq_true,
    !negb_true_iff.
  split.
  - intros ((((((Hs & Hr) & Hin) & Hk) & _) & Hd) & Hc).
    assert (Hrecv : Peer.recvDisconnectionReason peer = None
      ∨ ∃ reason, Peer.recvDisconnectionReason peer = Some reason
          ∧ reason ∈ [DisconnectionReason.ResponseStalling;
                      DisconnectionReason.AlreadyConnected;
                      DisconnectionReason.Shutdown]).
    { destruct Hr as [[[Hr|Hr]|Hr]|Hr]; [left; exact Hr|right..];
        eexists; (split; [exact Hr|]); rewrite !elem_of_cons; auto. }
    assert (Hkey : ∃ key, Peer.nodePubKey peer = Some key ∧ key ≠ "").
    { destruct (Peer.nodePubKey peer) as [k|]; [|done].
      exists k. split; [done|]. by destruct (String.eqb_spec k ""). }
    split_and!; auto. eexists. apply list_elem_of_here.
  - intros (Hs & Hr & Hin & (k & Hk & Hne) & _ & Hc & Hd).
    split_and!; auto.
    + destruct Hr as [Hr|(r & Hr & Hel)]; [auto|].
      rewrite !elem_of_cons, elem_of_nil in Hel.
      destruct Hel as [->|[->|[->|[]]]]; auto.
    + rewrite Hk. by destruct (String.eqb_spec k "").
Qed.

(** C3.  When an active peer closes, [handlePeerClose] takes it out of the
    peers map, clears its [active] flag, drops its listeners and emits
    [peer.close]; then it goes on with [tryConnectNode] on the peer's
    addresses, with retryConnecting = true, if the sent disconnection reason
    is absent or ResponseStalling, the received one is absent or one of
    ResponseStalling, AlreadyConnected, Shutdown, the peer was outbound, its
    public key is known, an address is at hand, and the pool is connected
    and not disconnecting; if any of these fails it stops there, and makes
    no call beyond the two of the bookkeeping. *)
Theorem handlePeerClose_reconnects `{Semver} (o : Oracle) (p : Pool.t)
    (id : PeerId) (peer : Peer.t) :
  store p !! id = Some peer ->
  Peer.active peer = true ->
  let node :=
    NodeConnectionInfo.mk (nonNull (Peer.nodePubKey peer))
      (default [] (Peer.addresses peer)) (Some (Peer.address peer)) in
  let bookkeeping :=
    [Peer_removeAllListeners id; Emit (peer_close (Peer.nodePubKey peer))] in
  (reconnectionCalledFor peer p ->
   run o (handlePeerClose id) p
   = let '(p', calls, r) := run o (tryConnectNode node true)
                              (withoutPeer id peer p) in
     (p', (bookkeeping ++ calls)%list, r))
  ∧ (¬ reconnectionCalledFor peer p ->
     run o (handlePeerClose id) p
     = (withoutPeer id peer p, bookkeeping, Returned tt)).
Proof.
  intros Hpeer Hactive node bookkeeping.
  assert (Hsame : shouldReconnect peer (withoutPeer id peer p)
                  = shouldReconnect peer p) by reflexivity.
  subst node bookkeeping. split; intros Hcond.
  - apply shouldReconnect_spec in Hcond.
    destruct (run o (tryConnectNode _ true) _) as [[p' calls] r] eqn:Erun.
    unfold handlePeerClose, readPeer. simpl. rewrite Hpeer. simpl.
    rewrite Hactive. simpl.
    fold (withoutPeer id peer p). rewrite Hsame, Hcond, Erun. done.
  - unfold handlePeerClose, readPeer. simpl. rewrite Hpeer. simpl.
    rewrite Hactive. simpl.
    fold (withoutPeer id peer p). rewrite Hsame.
    destruct (shouldReconnect peer p) eqn:E; [|done].
    by apply shouldReconnect_spec in E.
Qed.

Lemma handlePeerClose_reconnects_outbound :
  run Sample.oracle (handlePeerClose 0%nat) Sample.poolB_connected
  = let '(p', calls, r) :=
      run Sample.oracle
        (tryConnectNode
           (NodeConnectionInfo.mk "aa" [Sample.addressA]
              (Some Sample.addressA)) true)
        (withoutPeer 0%nat
           (Peer.with_active true (Sample.greetedOutboundA true))
           Sample.poolB_connected) in
    (p', ([Peer_removeAllListeners 0%nat; Emit (peer_close (Some "aa"))]
          ++ calls)%list, r).
Proof.
  apply (handlePeerClose_reconnects Sample.oracle Sample.poolB_connected
           0%nat (Peer.with_active true (Sample.greetedOutboundA true))).
  - reflexivity.
  - reflexivity.
  - unfold reconnectionCalledFor. simpl. split_and!; auto.
    + exists "aa". by split.
    + eexists. apply list_elem_of_here.
Defined.

(** ** Pending outbound peers (C4) *)

(** C4, as stated, fails: a public key can be in the peers map and in
    [pendingOutboundPeers] at once.  Node B is dialling node A, with
    retries, when node A connects to node B; the inbound connection is
    admitted under "aa" while the outbound attempt is still pending under
    "aa". *)
Lemma pending_and_peer_at_once :
  reachable Sample.start Sample.afterInboundWhileDialling
  ∧ JsMap.has "aa" (peers (pool Sample.afterInboundWhileDialling)) = true
  ∧ JsMap.has "aa"
      (pendingOutboundPeers (pool Sample.afterInboundWhileDialling)) = true.
Proof.
  split.
  - apply play_reachable. vm_compute. tauto.
  - split; reflexivity.
Qed.

Opaque openPeer.

(** C4, amended.  [addOutbound] puts a public key in [pendingOutboundPeers]
    only in a stretch in which it has found the key absent from the peers
    map, and it leaves the peers map alone until the handshake; a call that
    fails a precondition changes nothing.  The key is out of
    [pendingOutboundPeers] when [addOutbound] is over: on success the new
    peer is then in the peers map, on a failed attempt the peers map is as
    before.  The admission at the end of [openPeer] neither consults nor
    changes [pendingOutboundPeers], so the key is still pending at the
    moment a peer is admitted under it, and an inbound connection can be
    admitted under a key that is pending. *)
Theorem addOutbound_pending `{Semver} (o : Oracle) (p : Pool.t)
    (address : Address.t) (nodePubKey : string)
    (retryConnecting revokeConnectionRetries : bool) :
  let id := length (store p) in
  let attempt :=
    addOutbound address nodePubKey retryConnecting revokeConnectionRetries in
  (∀ p' calls cs k,
     sync attempt p = (p', calls, Suspended cs k) ->
     JsMap.has nodePubKey (peers p) = false
     ∧ peers p' = peers p
     ∧ pendingOutboundPeers p'
       = JsMap.set nodePubKey id (pendingOutboundPeers p))
  ∧ (∀ p' calls r, sync attempt p = (p', calls, Settled r) -> p' = p)
  ∧ (∀ p' calls peer,
       run o attempt p = (p', calls, Returned peer) ->
       JsMap.has nodePubKey (pendingOutboundPeers p') = false
       ∧ ∃ key, JsMap.get key (peers p') = Some peer)
  ∧ (∀ p' calls e,
       run o attempt p = (p', calls, Thrown e) ->
       peers p' = peers p
       ∧ (p' = p ∨ JsMap.has nodePubKey (pendingOutboundPeers p') = false))
  ∧ (∀ q i,
       pendingOutboundPeers (run o (openPeer_admit i) q).1.1
       = pendingOutboundPeers q).
Proof.
  intros id attempt.
  destruct (addOutbound_cases p address nodePubKey retryConnecting
              revokeConnectionRetries)
    as [(e & Hsync & Hrun)|(Hfresh & Hd & Hc & pre & (k & Hsync) & Hrun)];
    fold attempt in Hsync, Hrun; fold id in Hsync, Hrun.
  - split_and!.
    + intros p' calls cs k'. by rewrite Hsync.
    + intros p' calls r. rewrite Hsync. by intros [= <- _ _].
    + intros p' calls peer. by rewrite Hrun.
    + intros p' calls e'. rewrite Hrun. intros [= <- _ _]. auto.
    + apply openPeer_admit_pending.
  - assert (Hnew : store (dialling address nodePubKey p) !! id
                   = Some (Peer.create address)).
    { unfold dialling. simpl. by apply list_lookup_middle. }
    pose proof (openPeer_outcome o _ id _ (Some nodePubKey) retryConnecting Hnew)
      as (_ & Hpending & _ & Hout).
    specialize (Hrun o).
    destruct (run o (openPeer id (Some nodePubKey) retryConnecting) _)
      as [[q' calls'] r'] eqn:Hopen. simpl in Hpending, Hout.
    split_and!.
    + intros p' calls cs k'. rewrite Hsync. intros Heq.
      assert (p' = dialling address nodePubKey p) as -> by congruence. done.
    + intros p' calls r. by rewrite Hsync.
    + intros p' calls peer. rewrite Hrun. destruct r' as [[]|e]; [|done].
      intros [= <- _ <-]. simpl. split.
      * apply JsMap_has_delete.
      * destruct Hout as (h & _ & ->). simpl. eexists.
        apply JsMap_get_set_eq.
    + intros p' calls e. rewrite Hrun. destruct r' as [[]|e']; [done|].
      intros [= <- _ _]. simpl. destruct Hout as [-> _]. split; [done|].
      right. apply JsMap_has_delete.
    + apply openPeer_admit_pending.
Qed.

Transparent openPeer.

Lemma addOutbound_pending_connected :
  JsMap.has "aa" (pendingOutboundPeers Sample.poolB_connected) = false
  ∧ ∃ key, JsMap.get key (peers Sample.poolB_connected) = Some 0%nat.
Proof.
  pose proof (addOutbound_pending Sample.oracle Sample.poolB Sample.addressA
                "aa" false false) as (_ & _ & Hdone & _).
  eapply Hdone. reflexivity.
Defined.

(** ** Preconditions of [addOutbound] (C5) *)

(** C5, as stated, fails: "NODE_IS_BANNED when the target pubkey is banned"
    does not hold on a pool that is not connected.  Node B has banned "aa"
    and has since been disconnected; [addOutbound] to "aa" throws
    POOL_CLOSED. *)
Lemma addOutbound_banned_on_closed_pool :
  NodeList.isBanned "aa" (nodes Sample.poolB_banned_closed) = true
  ∧ connected Sample.poolB_banned_closed = false
  ∧ run Sample.oracle (addOutbound Sample.addressA "aa" false false)
      Sample.poolB_banned_closed
    = (Sample.poolB_banned_closed, [], Thrown errors.POOL_CLOSED).
Proof. split_and!; reflexivity. Qed.

(** C5, amended.  [addOutbound] checks its preconditions in the order self,
    pool closed, tor address, banned, already connected, already connecting,
    and throws the error of the first that fails, before it makes any call,
    creates a peer or changes any field of the pool. *)
Theorem addOutbound_rejections `{Semver} (o : Oracle) (p : Pool.t)
    (address : Address.t) (nodePubKey : string)
    (retryConnecting revokeConnectionRetries : bool) :
  let self :=
    bool_decide (nodePubKey = Pool.nodePubKey p) || addressIsSelf address p in
  let closed := disconnecting p || negb (connected p) in
  let onion :=
    negb (PoolConfig.tor (config p))
    && bool_decide (is_Some (String.index 0 ".onion" (Address.host address))) in
  let banned := NodeList.isBanned nodePubKey (nodes p) in
  let isPeer := JsMap.has nodePubKey (peers p) in
  let connecting :=
    JsMap.has nodePubKey (pendingOutboundPeers p)
    && negb revokeConnectionRetries in
  let throws e :=
    run o (addOutbound address nodePubKey retryConnecting
             revokeConnectionRetries) p
    = (p, [], Thrown e) in
  (self = true -> throws errors.ATTEMPTED_CONNECTION_TO_SELF)
  ∧ (self = false -> closed = true -> throws errors.POOL_CLOSED)
  ∧ (self = false -> closed = false -> onion = true ->
     throws (errors.NODE_TOR_ADDRESS nodePubKey address))
  ∧ (self = false -> closed = false -> onion = false -> banned = true ->
     throws (errors.NODE_IS_BANNED nodePubKey))
  ∧ (self = false -> closed = false -> onion = false -> banned = false ->
     isPeer = true ->
     throws (errors.NODE_ALREADY_CONNECTED nodePubKey address))
  ∧ (self = false -> closed = false -> onion = false -> banned = false ->
     isPeer = false -> connecting = true ->
     throws (errors.ALREADY_CONNECTING nodePubKey)).
Proof.
  intros self closed onion banned isPeer connecting throws.
  subst throws. unfold addOutbound. simpl.
  fold self closed onion banned isPeer.
  split_and!; intros.
  all: repeat match goal with
         | H : ?x = _ |- _ => is_var x; rewrite H; clear H; simpl
         end.
  all: try reflexivity.
  subst connecting. unfold JsMap.has in *.
  destruct (JsMap.get nodePubKey (pendingOutboundPeers p)); [|done].
  by destruct revokeConnectionRetries.
Qed.

Lemma addOutbound_rejections_banned :
  run Sample.oracle (addOutbound Sample.addressA "aa" false false)
    Sample.poolB_banned
  = (Sample.poolB_banned, [], Thrown (errors.NODE_IS_BANNED "aa")).
Proof.
  apply (addOutbound_rejections Sample.oracle Sample.poolB_banned
           Sample.addressA "aa" false false); reflexivity.
Defined.

(** ** Outbound connection policy (C6) *)

Opaque addOutbound.

Lemma tryConnectWithAddresses_plan `{Semver} (node : NodeConnectionInfo.t)
    (l : list Address.t) (K : bool -> Async unit) (tail : list (Address.t * bool)) :
  K true = Ret tt ->
  K false = attemptInOrder (NodeConnectionInfo.nodePubKey node) tail ->
  tryConnectWithAddresses node l ≫= K
  = attemptInOrder (NodeConnectionInfo.nodePubKey node)
      (map (fun address => (address, false))
         (filter (fun address => isLastAddress node address = false) l)
       ++ tail).
Proof.
  intros Htrue Hfalse. induction l as [|a l IH].
  - simpl. done.
  - cbn [tryConnectWithAddresses]. fold (isLastAddress node a).
    destruct (isLastAddress node a) eqn:Hskip.
    + rewrite filter_cons_False by (rewrite Hskip; done). apply IH.
    + rewrite filter_cons_True by done. cbn [map app attemptInOrder].
      rewrite bind_assoc. fold (attempt (NodeConnectionInfo.nodePubKey node) a false).
      apply bind_ext. intros [|]; simpl; [done|]. apply IH.
Qed.

Lemma tryConnectNode_attemptInOrder `{Semver} (node : NodeConnectionInfo.t)
    (retry : bool) :
  tryConnectNode node retry
  = attemptInOrder (NodeConnectionInfo.nodePubKey node) (connectPlan node retry).
Proof.
  unfold tryConnectNode, connectPlan, tryConnectWithAdvertisedAddresses,
    tryConnectWithLastAddress.
  destruct (NodeConnectionInfo.lastAddress node) as [la|] eqn:Hla; simpl.
  - fold (attempt (NodeConnectionInfo.nodePubKey node) la false).
    apply bind_ext. intros [|]; simpl. 1: reflexivity.
    apply tryConnectWithAddresses_plan; [reflexivity|]. simpl.
    destruct retry; simpl; [|reflexivity].
    fold (attempt (NodeConnectionInfo.nodePubKey node) la true).
    apply bind_ext. intros [|]; reflexivity.
  - rewrite (tryConnectWithAddresses_plan node _ _ []);
      [|reflexivity|by destruct retry].
    by destruct retry.
Qed.

Transparent addOutbound.

(** C6.  [tryConnectNode] makes its connection attempts in the order of the
    plan: the node's [lastAddress] first, when there is one; then the
    advertised addresses sorted by [lastConnected] descending, skipping
    those equal to [lastAddress]; then, when [retryConnecting] was asked
    for, [lastAddress] once more, this time with retrying enabled.  It stops
    at the first attempt that succeeds, so each attempt is made only if all
    those before it failed.  The sorted list is a rearrangement of the
    advertised addresses in which no address was connected to later than
    one before it. *)
Theorem tryConnectNode_plan `{Semver} (node : NodeConnectionInfo.t)
    (retryConnecting : bool) :
  tryConnectNode node retryConnecting
  = attemptInOrder (NodeConnectionInfo.nodePubKey node)
      (connectPlan node retryConnecting)
  ∧ addressUtils.sortByLastConnected (NodeConnectionInfo.addresses node)
    ≡ₚ NodeConnectionInfo.addresses node
  ∧ StronglySorted laterConnected
      (addressUtils.sortByLastConnected (NodeConnectionInfo.addresses node)).
Proof.
  split_and!.
  - apply tryConnectNode_attemptInOrder.
  - apply sortByLastConnected_perm.
  - apply sortByLastConnected_sorted.
Qed.

(** ** Gossip replies (C7) *)

(** C7.  [handleGetNodes] leaves the pool as it is and makes one call:
    [sendNodes] on the requesting peer, with the request id as [reqId] and,
    in the order of the peers map, one [{nodePubKey, addresses}] entry for
    each peer of the map that has another public key than the requester and
    a non-empty list of known addresses; it carries no other entry. *)
Theorem handleGetNodes_reply (o : Oracle) (p : Pool.t) (id : PeerId)
    (peer : Peer.t) (reqId : string) :
  store p !! id = Some peer ->
  ∃ nodes,
    (run o (handleGetNodes id reqId) p).1 = (p, [Peer_sendNodes id nodes reqId])
    ∧ nodes = omap (nodesEntry p peer) (JsMap.values (peers p))
    ∧ ∀ entry, entry ∈ nodes ↔
        ∃ key connected connectedPeer addresses,
          (key, connected) ∈ peers p
          ∧ store p !! connected = Some connectedPeer
          ∧ Peer.nodePubKey connectedPeer ≠ Peer.nodePubKey peer
          ∧ Peer.addresses connectedPeer = Some addresses
          ∧ addresses ≠ []
          ∧ entry = NodeConnectionInfo.mk
                      (nonNull (Peer.nodePubKey connectedPeer)) addresses None.
Proof.
  intros Hpeer. eexists. split_and!; [|reflexivity|].
  - unfold handleGetNodes, readPeer. simpl. rewrite Hpeer. simpl.
    rewrite (foldl_push_omap (nodesEntry p peer)).
    + by destruct (o _).
    + intros acc x. unfold nodesEntry.
      destruct (store p !! x) as [cp|]; [|done].
      destruct (Peer.addresses cp) as [addresses|]; simpl.
      * rewrite andb_comm. case_bool_decide as Hlen.
        -- simpl. case_bool_decide as Hkey.
           ++ destruct (decide _) as [?|Hn]; [done|]. exfalso. apply Hn.
              split; [done|]. destruct addresses; [simpl in Hlen; lia|done].
           ++ destruct (decide _) as [[??]|?]; done.
        -- simpl. destruct (decide _) as [[_ ?]|?]; [|done].
           exfalso. apply Hlen. destruct addresses; [done|]. simpl. lia.
      * by rewrite andb_false_r.
  - intros entry. rewrite list_elem_of_omap. unfold JsMap.values. split.
    + intros (connected & Hin & Hentry).
      apply list_elem_of_fmap in Hin as ([key c] & -> & Hin). simpl in *.
      unfold nodesEntry in Hentry.
      destruct (store p !! c) as [cp|] eqn:Hcp; [|done].
      destruct (Peer.addresses cp) as [addresses|] eqn:Haddr; [|done].
      case_decide as Hok; [|done]. destruct Hok as [??].
      injection Hentry as <-. by exists key, c, cp, addresses.
    + intros (key & c & cp & addresses & Hin & Hcp & Hkey & Haddr & Hne & ->).
      exists c. split.
      * apply list_elem_of_fmap. by exists (key, c).
      * unfold nodesEntry. rewrite Hcp, Haddr.
        by destruct (decide _) as [?|[]].
Qed.

Lemma handleGetNodes_reply_lists_C :
  ∃ nodes,
    (run Sample.oracle (handleGetNodes 0%nat "req-1") Sample.poolB_connectedAC).1
    = (Sample.poolB_connectedAC, [Peer_sendNodes 0%nat nodes "req-1"])
    ∧ nodes = [NodeConnectionInfo.mk "cc" [Sample.addressC] None].
Proof.
  assert (Hpeer : store Sample.poolB_connectedAC !! 0%nat
                  = Some (Peer.with_active true (Sample.greetedOutboundA true)))
    by reflexivity.
  destruct (handleGetNodes_reply Sample.oracle Sample.poolB_connectedAC 0%nat
              _ "req-1" Hpeer) as (nodes & Hrun & Hnodes & _).
  exists nodes. split; [exact Hrun|]. rewrite Hnodes. reflexivity.
Defined.

(** ** Shutdown (C8) *)

Lemma disconnect_closesDown (q : Pool.t) :
  closesDown q
    (sync (stopping ← unlisten;
           pending ← closePendingConnections;
           active ← closePeers;
           o ← Await (stopping ++ pending ++ active) Ret;
           settled o;;
           modify (with_connected false);;
           modify (with_disconnecting false)) q).
Proof.
  unfold closesDown, shutdownCalls, shutdownPromises, notListening.
  eexists. split.
  - rewrite sync_bind. unfold unlisten. simpl.
    destruct (server q) as [[|]|] eqn:Hserver; simpl.
    all: rewrite sync_bind; unfold closePendingConnections; simpl;
      rewrite sync_startAll.
    all: rewrite sync_bind; unfold closePeers; simpl;
      rewrite sync_startAll; simpl.
    all: rewrite ?app_nil_r; reflexivity.
  - intros q' o. by destruct o.
Qed.

(** C8, as stated, fails: [disconnect] does not wait for a bulk
    reconnection that is under way.  What it awaits is
    [loadingNodesPromise], the promise of [nodes.load()]; the connection
    attempts that the handler chained on that promise starts are awaited
    by that handler alone.  Node B has loaded its node list and its
    start-up attempt to node A waits for the handshake when [disconnect] is
    called; [disconnect] sets [disconnecting], gets past the promise of
    [nodes.load()], calls [close] on the pending peer, and, that done,
    clears [connected] and [disconnecting] and ends.  By then the attempt
    still waits for its [beginOpen], its peer still is in
    [pendingOutboundPeers], and [loadingNodesPromise] still is set. *)
Lemma disconnect_leaves_reconnection_waiting :
  reachable Sample.start Sample.afterShutdownDuringStartup
  ∧ trace (foldl play Sample.start (take 3 Sample.shutdownDuringStartup))
    = trace (foldl play Sample.start (take 2 Sample.shutdownDuringStartup))
      ++ [Peer_on 0%nat; Peer_beginOpen 0%nat (Some "aa") false]
  ∧ (tasks (foldl play Sample.start (take 4 Sample.shutdownDuringStartup))).*1
    = [[Peer_beginOpen 0%nat (Some "aa") false]; [Nodes_load]]
  ∧ Peer_close 0%nat None ∈ trace Sample.afterShutdownDuringStartup
  ∧ connected (pool Sample.afterShutdownDuringStartup) = false
  ∧ disconnecting (pool Sample.afterShutdownDuringStartup) = false
  ∧ (tasks Sample.afterShutdownDuringStartup).*1
    = [[Peer_beginOpen 0%nat (Some "aa") false]]
  ∧ pendingOutboundPeers (pool Sample.afterShutdownDuringStartup)
    = [("aa", 0%nat)]
  ∧ loadingNodesPromise (pool Sample.afterShutdownDuringStartup) = true.
Proof.
  split.
  - apply play_reachable. vm_compute. tauto.
  - split_and!; try reflexivity.
    vm_compute. repeat first [apply list_elem_of_here | apply list_elem_of_further].
Qed.

(** C8, amended.  On a pool that is not connected [disconnect] returns at
    once, having changed nothing and called nothing.  On a connected pool it
    sets [disconnecting]; if [loadingNodesPromise] is set it first awaits
    that promise, which is the promise of [nodes.load()], having started
    nothing yet; then, in one stretch, it stops the listening server,
    closes every pending outbound and pending inbound peer and closes every
    peer of the peers map with Shutdown, and awaits all of these together;
    [connected] and [disconnecting] are cleared only once that joint await
    has resolved. *)
Theorem disconnect_stages (p : Pool.t) :
  (connected p = false -> sync disconnect p = (p, [], Settled (Returned tt)))
  ∧ (connected p = true -> loadingNodesPromise p = false ->
     closesDown (with_disconnecting true p) (sync disconnect p))
  ∧ (connected p = true -> loadingNodesPromise p = true ->
     ∃ k,
       sync disconnect p
       = (with_disconnecting true p, [], Suspended [Nodes_load] k)
       ∧ ∀ q o, (∀ e, o ≠ Rejected e) -> closesDown q (sync (k o) q)).
Proof.
  split_and!.
  - intros Hc. unfold disconnect. simpl. by rewrite Hc.
  - intros Hc Hl. unfold disconnect. simpl. rewrite Hc, Hl. simpl.
    apply disconnect_closesDown.
  - intros Hc Hl. unfold disconnect. simpl. rewrite Hc, Hl. simpl.
    eexists. split; [reflexivity|].
    intros q o Ho. simpl.
    destruct o; try apply disconnect_closesDown. by destruct (Ho e).
Qed.

Lemma disconnect_stages_connected :
  ∃ k,
    sync disconnect Sample.poolB_connected
    = (with_disconnecting true Sample.poolB_connected, [],
       Suspended [Nodes_load] k)
    ∧ ∀ q o, (∀ e, o ≠ Rejected e) -> closesDown q (sync (k o) q).
Proof.
  apply (disconnect_stages Sample.poolB_connected); reflexivity.
Defined.

(** ** Inbound sockets (C9) *)

(** C9, as stated, fails: a socket whose client has already gone is not
    banned, yet no peer is created for it; the socket is destroyed and the
    pool is left as it was. *)
Lemma handleSocket_gone_client :
  Socket.remoteAddress Sample.socketGone = None
  ∧ run Sample.oracle (handleSocket Sample.socketGone) Sample.poolB
    = (Sample.poolB, [Socket_destroy Sample.socketGone], Returned tt).
Proof. split; reflexivity. Qed.

Opaque openPeer.

(** C9, amended.  [handleSocket] destroys a socket whose remote address is
    gone or banned, before any handshake and without creating a peer or
    changing the pool.  For any other socket [addInbound] creates a peer and
    puts it in [pendingInboundPeers], where it is while the handshake is in
    flight, and takes it out again once the open attempt is over, whatever
    its end; with nothing else running in between, the peer is in the peers
    map afterwards exactly when the handshake succeeded: the pool accepts
    connections, [beginOpen] resolves, [validatePeer] admits the peer and
    [completeOpen] resolves. *)
Theorem handleSocket_admission `{Semver} (o : Oracle) (p : Pool.t) (socket : Socket.t) :
  let id := length (store p) in
  (socketRefused socket p = true ->
   run o (handleSocket socket) p = (p, [Socket_destroy socket], Returned tt))
  ∧ (socketRefused socket p = false ->
     id ∉ pendingInboundPeers p ->
     (∀ key, (key, id) ∉ peers p) ->
     (disconnecting p = false -> connected p = true ->
      ∃ k, sync (handleSocket socket) p
           = (awaitingInbound socket p,
              [Peer_on id; Peer_beginOpen id None false],
              Suspended [Peer_beginOpen id None false] k))
     ∧ ∃ p' calls,
         run o (handleSocket socket) p = (p', calls, Returned tt)
         ∧ length (store p') = S (length (store p))
         ∧ pendingInboundPeers p' = pendingInboundPeers p
         ∧ ((∃ key, (key, id) ∈ peers p')
            ↔ ∃ h, handshakeSucceeds o (awaitingInbound socket p) id None false h)
         ∧ (∀ h, handshakeSucceeds o (awaitingInbound socket p) id None false h ->
            peers p' = JsMap.set (Hello.nodePubKey h) id (peers p))
         ∧ ((∀ h, ¬ handshakeSucceeds o (awaitingInbound socket p) id None false h) ->
            peers p' = peers p)).
Proof.
  intros id. split.
  - unfold socketRefused, handleSocket. simpl.
    destruct (Socket.remoteAddress socket) as [a|]; [|done].
    destruct (String.eqb a ""); simpl; [done|]. by intros ->.
  - subst id. intros Hok Hfresh Hnew.
    destruct (handleSocket_addInbound socket p Hok) as [-> Hrun]. rewrite Hrun.
    clear Hrun Hok.
    assert (Hpending : store (awaitingInbound socket p) !! length (store p)
                       = Some (Peer_fromInbound socket)).
    { unfold awaitingInbound. simpl. apply list_lookup_middle. done. }
    split.
    + intros Hd Hc. unfold addInbound, newPeer, tryOpenPeer. simpl.
      rewrite bool_decide_eq_false_2 by done. simpl.
      rewrite openPeer_unfold. simpl. rewrite Hd, Hc. simpl.
      eexists. reflexivity.
    + unfold addInbound, newPeer. simpl.
      rewrite bool_decide_eq_false_2 by done. simpl.
      change (with_pendingInboundPeers _ (with_store _ p))
        with (awaitingInbound socket p).
      rewrite run_bind. unfold tryOpenPeer. rewrite run_catch.
      pose proof (openPeer_outcome o (awaitingInbound socket p) _ _ None false Hpending)
        as (Hin & _ & Hlen & Hout). simpl in Hin, Hlen, Hout.
      destruct (run o (openPeer _ None false) (awaitingInbound socket p))
        as [[p1 t1] [[]|e]] eqn:Hopen; simpl in *.
      * destruct Hout as (h & Hh & ->).
        eexists _, _. split; [reflexivity|]. simpl. split_and!.
        -- rewrite !length_alter, length_app. simpl. lia.
        -- by apply filter_ne_fresh.
        -- split; [by eauto|]. intros _. eexists. apply JsMap_set_elem_of.
        -- intros h' Hh'. destruct Hh as (_ & _ & Hg & _), Hh' as (_ & _ & Hg' & _).
           rewrite Hg in Hg'. by injection Hg' as ->.
        -- intros Hno. by destruct (Hno h).
      * destruct Hout as (Hpeers & Hno).
        eexists _, _. split; [reflexivity|]. simpl. split_and!.
        -- rewrite Hlen, length_app. simpl. lia.
        -- rewrite Hin. by apply filter_ne_fresh.
        -- split.
           ++ intros (key & Hkey). rewrite Hpeers in Hkey. by destruct (Hnew key).
           ++ intros (h & Hh). by destruct (Hno h).
        -- intros h Hh. by destruct (Hno h).
        -- by intros _.
Qed.

Transparent openPeer.

Lemma handleSocket_admission_A :
  ∃ p' calls,
    run Sample.oracle (handleSocket Sample.socketA) Sample.poolB
    = (p', calls, Returned tt)
    ∧ pendingInboundPeers p' = []
    ∧ peers p' = [("aa", 0%nat)].
Proof.
  pose proof (handleSocket_admission Sample.oracle Sample.poolB Sample.socketA)
    as (_ & Haccepted).
  destruct Haccepted as (_ & p' & calls & Hrun & _ & Hpending & _ & Hpeers & _).
  - reflexivity.
  - by intros ?%elem_of_nil.
  - by intros key ?%elem_of_nil.
  - exists p', calls. split_and!; [exact Hrun|exact Hpending|].
    apply (Hpeers Sample.helloA).
    unfold handshakeSucceeds. split_and!; try reflexivity. by intros e.
Defined.

(** ** Reputation events (C10) *)

(** C10.  [addReputationEvent] never changes the pool and makes at most one
    call, [nodes.addReputationEvent] with the same key and event.  It makes
    that call exactly when the pool is strict or the event is ManualBan,
    ManualUnban, SwapAbuse, SwapMisbehavior, WireProtocolErr or InvalidAuth:
    a pool built with [strict = false] forwards those six and drops every
    other event without touching the node list, a strict pool forwards every
    event. *)
Theorem addReputationEvent_forwards (o : Oracle) (p : Pool.t)
    (nodePubKey : string) (event : ReputationEvent.t) :
  let '(p', calls, _) := run o (addReputationEvent nodePubKey event) p in
  p' = p
  ∧ (calls = [Nodes_addReputationEvent nodePubKey event] ∨ calls = [])
  ∧ (Nodes_addReputationEvent nodePubKey event ∈ calls
     ↔ strict p = true ∨ event ∈ severeEvents).
Proof.
  assert (Hsev : ∀ e, bool_decide (e ∈ severeEvents)
    = bool_decide (e = ReputationEvent.ManualBan)
      || bool_decide (e = ReputationEvent.ManualUnban)
      || bool_decide (e = ReputationEvent.SwapAbuse)
      || bool_decide (e = ReputationEvent.SwapMisbehavior)
      || bool_decide (e = ReputationEvent.WireProtocolErr)
      || bool_decide (e = ReputationEvent.InvalidAuth)).
  { intros e. unfold severeEvents.
    apply eq_true_iff_eq. rewrite bool_decide_eq_true, !orb_true_iff.
    rewrite !bool_decide_eq_true, !elem_of_cons, elem_of_nil. tauto. }
  unfold addReputationEvent. simpl.
  destruct (strict p); simpl.
  - destruct (o _); simpl; split_and!; auto; split; auto; intros _;
      apply list_elem_of_here.
  - rewrite <- Hsev. case_bool_decide as Hin; simpl.
    + destruct (o _); simpl; split_and!; auto; split; auto; intros _;
        apply list_elem_of_here.
    + split_and!; auto. split; [intros []%elem_of_nil|]. intros [?|?]; done.
Qed.

(** * Further properties of the connection methods *)

(** ** Stretches that end without waiting *)

Lemma sync_catch {A : Type} (m : Async A) (h : errors.t -> Async A)
    (p : Pool.t) :
  sync (catch m h) p =
    match sync m p with
    | (p1, t1, Settled (Returned a)) => (p1, t1, Settled (Returned a))
    | (p1, t1, Settled (Thrown e)) =>
        let '(p2, t2, r) := sync (h e) p1 in (p2, (t1 ++ t2)%list, r)
    | (p1, t1, Suspended cs k) =>
        (p1, t1, Suspended cs (fun o => catch (k o) h))
    end.
Proof.
  revert p. induction m as [a|e|k IH|q k IH|c k IH|cs k IH]; intros p; simpl.
  - done.
  - by destruct (sync (h e) p) as [[??]?].
  - apply IH.
  - apply IH.
  - rewrite IH. destruct (sync k p) as [[p1 t1] [[a|e]|cs k']]; [done| |done].
    by destruct (sync (h e) p1) as [[??]?].
  - done.
Qed.

Lemma sync_settled_run {A : Type} (o : Oracle) (m : Async A) (p p' : Pool.t)
    (calls : list ExtCall) (r : Completion A) :
  sync m p = (p', calls, Settled r) -> run o m p = (p', calls, r).
Proof.
  revert p calls.
  induction m as [a|e|k IH|q k IH|c k IH|cs k IH]; intros p calls; simpl.
  - by intros [= <- <- <-].
  - by intros [= <- <- <-].
  - apply IH.
  - apply IH.
  - destruct (sync k p) as [[p1 t1] r1] eqn:Hs. intros [= <- <- ->].
    by rewrite (IH _ _ Hs).
  - done.
Qed.

(** ** Methods that never reject *)

Lemma neverRejects_bind {A B : Type} (m : Async A) (f : A -> Async B)
    (p : Pool.t) :
  neverRejects m p -> (∀ a q, neverRejects (f a) q) ->
  neverRejects (m ≫= f) p.
Proof.
  intros Hm Hf. revert p Hm.
  induction m as [a|e|k IH|q k IH|c k IH|cs k IH]; intros p Hm; simpl in *.
  - apply Hf.
  - done.
  - by apply IH.
  - by apply IH.
  - by apply IH.
  - intros o q. by apply IH.
Qed.

Lemma neverRejects_catch {A : Type} (m : Async A) (a : A) (p : Pool.t) :
  neverRejects (catch m (fun _ => Ret a)) p.
Proof.
  revert p.
  induction m as [a'|e|k IH|q k IH|c k IH|cs k IH]; intros p; simpl; auto.
Qed.

Lemma neverRejects_run {A : Type} (o : Oracle) (m : Async A) (p : Pool.t) :
  neverRejects m p -> ∃ p' calls a, run o m p = (p', calls, Returned a).
Proof.
  revert p.
  induction m as [a|e|k IH|q k IH|c k IH|cs k IH]; intros p Hm; simpl in *.
  - by eauto.
  - done.
  - by apply IH.
  - by apply IH.
  - destruct (IH p Hm) as (p' & calls & a & ->). by eauto.
  - by apply IH.
Qed.

Opaque addOutbound.

Lemma neverRejects_attemptInOrder `{Semver} (pk : string)
    (plan : list (Address.t * bool)) (p : Pool.t) :
  neverRejects (attemptInOrder pk plan) p.
Proof.
  revert p. induction plan as [|[a r] plan IH]; intros p; [done|].
  cbn [attemptInOrder]. apply neverRejects_bind.
  - apply neverRejects_catch.
  - intros [|] q; [done|apply IH].
Qed.

Transparent addOutbound.

Lemma neverRejects_tryConnectNode `{Semver} (node : NodeConnectionInfo.t)
    (retry : bool) (p : Pool.t) :
  neverRejects (tryConnectNode node retry) p.
Proof.
  rewrite tryConnectNode_attemptInOrder. apply neverRejects_attemptInOrder.
Qed.

(** X1.  [tryConnectNode] never rejects: every error of an attempt is
    swallowed by the [catch] around it, whatever the pool is when the
    attempt is made and however the handshake ends.  Run to its end, the
    method returns. *)
Theorem tryConnectNode_never_rejects `{Semver} (node : NodeConnectionInfo.t)
    (retryConnecting : bool) (p : Pool.t) :
  neverRejects (tryConnectNode node retryConnecting) p
  ∧ ∀ o, ∃ p' calls,
      run o (tryConnectNode node retryConnecting) p = (p', calls, Returned tt).
Proof.
  pose proof (neverRejects_tryConnectNode node retryConnecting p) as Hnever.
  split; [exact Hnever|]. intros o.
  destruct (neverRejects_run o _ p Hnever) as (p' & calls & [] & Hrun).
  by exists p', calls.
Qed.

Opaque openPeer.

(** X2.  The listener of the server's [connection] event never rejects:
    [handleSocket] either destroys the socket or hands it to [addInbound],
    where every error of the open attempt is swallowed.  Run to its end, it
    returns. *)
Theorem handleSocket_never_rejects `{Semver} (socket : Socket.t) (p : Pool.t) :
  neverRejects (handleSocket socket) p
  ∧ ∀ o, ∃ p' calls, run o (handleSocket socket) p = (p', calls, Returned tt).
Proof.
  assert (Hnever : neverRejects (handleSocket socket) p).
  { unfold handleSocket. simpl.
    destruct (Socket.remoteAddress socket) as [a|]; [|done].
    destruct (String.eqb a ""); [done|].
    destruct (NodeList.isBanned a (nodes p)); [done|].
    unfold addInbound, newPeer, tryOpenPeer. simpl.
    apply neverRejects_bind; [apply neverRejects_catch|done]. }
  split; [exact Hnever|]. intros o.
  destruct (neverRejects_run o _ p Hnever) as (p' & calls & [] & Hrun).
  by exists p', calls.
Qed.

Transparent openPeer.
Opaque tryConnectNode.

(** X3.  The listener of a peer's [close] event never rejects:
    [handlePeerClose], called on a peer object of the pool, does its
    bookkeeping and at most goes on with [tryConnectNode], which never
    rejects.  Run to its end, it returns. *)
Theorem handlePeerClose_never_rejects `{Semver} (id : PeerId) (peer : Peer.t)
    (p : Pool.t) :
  store p !! id = Some peer ->
  neverRejects (handlePeerClose id) p
  ∧ ∀ o, ∃ p' calls, run o (handlePeerClose id) p = (p', calls, Returned tt).
Proof.
  intros Hpeer.
  assert (Hnever : neverRejects (handlePeerClose id) p).
  { unfold handlePeerClose, readPeer. simpl. rewrite Hpeer. simpl.
    destruct (Peer.active peer); simpl; [|done].
    destruct (shouldReconnect _ _); [|done].
    apply neverRejects_tryConnectNode. }
  split; [exact Hnever|]. intros o.
  destruct (neverRejects_run o _ p Hnever) as (p' & calls & [] & Hrun).
  by exists p', calls.
Qed.

Transparent tryConnectNode.

Lemma handlePeerClose_never_rejects_connected :
  ∃ p' calls,
    run Sample.oracle (handlePeerClose 0%nat) Sample.poolB_connected
    = (p', calls, Returned tt).
Proof.
  assert (Hpeer : store Sample.poolB_connected !! 0%nat
                  = Some (Peer.with_active true (Sample.greetedOutboundA true)))
    by reflexivity.
  destruct (handlePeerClose_never_rejects 0%nat _ Sample.poolB_connected Hpeer)
    as [_ Hrun].
  exact (Hrun Sample.oracle).
Defined.

(** ** Nodes that are not dialled *)

Lemma addOutbound_blocked `{Semver} (p : Pool.t) (address : Address.t)
    (pk : string) (retry : bool) :
  blocked pk p ->
  ∃ e, sync (addOutbound address pk retry false) p = (p, [], Settled (Thrown e)).
Proof.
  intros Hb. unfold addOutbound. simpl.
  destruct (bool_decide (pk = nodePubKey p)) eqn:Hself; simpl; [by eauto|].
  apply bool_decide_eq_false in Hself.
  destruct (addressIsSelf address p); simpl; [by eauto|].
  destruct (disconnecting p) eqn:Hd; simpl; [by eauto|].
  destruct (connected p) eqn:Hc; simpl; [|by eauto].
  destruct (negb (PoolConfig.tor (config p)) && _); simpl; [by eauto|].
  destruct (NodeList.isBanned pk (nodes p)) eqn:Hban; simpl; [by eauto|].
  destruct (JsMap.has pk (peers p)) eqn:Hp; simpl; [by eauto|].
  destruct Hb as [?|[?|[?|[?|[?|Hpend]]]]]; try congruence.
  unfold JsMap.has in Hpend.
  destruct (JsMap.get pk (pendingOutboundPeers p)); [|done]. simpl. by eauto.
Qed.

Opaque addOutbound.

Lemma attemptInOrder_blocked `{Semver} (p : Pool.t) (pk : string)
    (plan : list (Address.t * bool)) :
  blocked pk p ->
  sync (attemptInOrder pk plan) p = (p, [], Settled (Returned tt)).
Proof.
  intros Hb. induction plan as [|[a r] plan IH]; [done|].
  cbn [attemptInOrder]. rewrite sync_bind. unfold attempt.
  rewrite sync_catch, sync_bind.
  destruct (addOutbound_blocked p a pk r Hb) as (e & ->). simpl.
  by rewrite IH.
Qed.

Transparent addOutbound.

(** X4.  [tryConnectNode] does nothing at all for a node that is not to be
    dialled: when the node's key is our own, the pool is closed or closing,
    the node is banned, a peer is connected under its key, or a connection
    to it is pending, the method returns in the stretch it was called in,
    having made no call, created no peer and changed nothing, whatever the
    addresses of the node and whether or not retrying was asked for. *)
Theorem tryConnectNode_blocked `{Semver} (node : NodeConnectionInfo.t)
    (retryConnecting : bool) (p : Pool.t) :
  blocked (NodeConnectionInfo.nodePubKey node) p ->
  sync (tryConnectNode node retryConnecting) p = (p, [], Settled (Returned tt))
  ∧ ∀ o, run o (tryConnectNode node retryConnecting) p = (p, [], Returned tt).
Proof.
  intros Hb. rewrite tryConnectNode_attemptInOrder.
  pose proof (attemptInOrder_blocked p _ (connectPlan node retryConnecting) Hb)
    as Hs.
  split; [exact Hs|]. intros o. by apply sync_settled_run.
Qed.

Lemma tryConnectNode_blocked_banned :
  sync (tryConnectNode Sample.nodeA true) Sample.poolB_banned
  = (Sample.poolB_banned, [], Settled (Returned tt)).
Proof.
  apply (tryConnectNode_blocked Sample.nodeA true Sample.poolB_banned).
  unfold blocked. do 3 right. left. reflexivity.
Defined.

(** ** Closing a peer that was never admitted *)

(** X5.  When a peer that is not active closes (one whose handshake failed,
    or a duplicate that was turned away), [handlePeerClose] only drops the
    peer's listeners: the peers map is left as it is, also when it holds
    another connection under the same public key; no [peer.close] event is
    emitted and no reconnection is attempted. *)
Theorem handlePeerClose_inactive `{Semver} (id : PeerId) (peer : Peer.t)
    (p : Pool.t) :
  store p !! id = Some peer ->
  Peer.active peer = false ->
  sync (handlePeerClose id) p
  = (p, [Peer_removeAllListeners id], Settled (Returned tt))
  ∧ ∀ o, run o (handlePeerClose id) p
         = (p, [Peer_removeAllListeners id], Returned tt).
Proof.
  intros Hpeer Hactive.
  assert (Hs : sync (handlePeerClose id) p
               = (p, [Peer_removeAllListeners id], Settled (Returned tt))).
  { unfold handlePeerClose, readPeer. simpl. rewrite Hpeer. simpl.
    by rewrite Hactive. }
  split; [exact Hs|]. intros o. by apply sync_settled_run.
Qed.

Lemma handlePeerClose_inactive_duplicate :
  Peer.nodePubKey <$> store (pool Sample.afterRace) !! 1%nat = Some (Some "aa")
  ∧ sync (handlePeerClose 1%nat) (pool Sample.afterRace)
    = (pool Sample.afterRace, [Peer_removeAllListeners 1%nat],
       Settled (Returned tt))
  ∧ peers (pool Sample.afterRace) = [("aa", 0%nat)].
Proof.
  split_and!; [reflexivity| |reflexivity].
  apply (handlePeerClose_inactive 1%nat (Sample.greetedA true)
           (pool Sample.afterRace)); reflexivity.
Defined.

(** ** Admission *)

(** X6.  [validatePeer] never changes the pool, and the only call it ever
    makes is one [close] on the peer it validates, in which case it throws;
    it returns only without having called anything. *)
Theorem validatePeer_frame `{Semver} (o : Oracle) (p : Pool.t) (id : PeerId) :
  let '(p', calls, r) := run o (validatePeer id) p in
  p' = p
  ∧ (calls = []
     ∨ ∃ reason e, calls = [Peer_close id (Some reason)] ∧ r = Thrown e).
Proof.
  unfold validatePeer, readPeer. simpl.
  destruct (store p !! id) as [peer|]; simpl; [|by auto].
  destruct (truthy (Peer.nodePubKey peer)); simpl; [|by auto].
  case_bool_decide; simpl; [destruct (o _); simpl; by eauto 6|].
  destruct (semver_valid (Peer.version peer)); simpl;
    [|destruct (o _); simpl; by eauto 6].
  destruct (semver_compare _ _) as [[| |]|]; simpl; [| | |by auto].
  2: destruct (o _); simpl; by eauto 6.
  all: destruct (connected p); simpl; [|destruct (o _); simpl; by eauto 6].
  all: destruct (NodeList.isBanned _ _); simpl;
    [destruct (o _); simpl; by eauto 6|].
  all: destruct (JsMap.has _ _); simpl; [destruct (o _); simpl; by eauto 6|].
  all: destruct (Peer.connected peer); simpl; by auto.
Qed.

Lemma validatePeer_accepts `{Semver} (o : Oracle) (q q' : Pool.t) (id : PeerId)
    (peer : Peer.t) (calls : list ExtCall) :
  store q !! id = Some peer ->
  run o (validatePeer id) q = (q', calls, Returned tt) ->
  truthy (Peer.nodePubKey peer) = true
  ∧ nonNull (Peer.nodePubKey peer) ≠ nodePubKey q
  ∧ semver_valid (Peer.version peer) = true
  ∧ (∃ c, semver_compare (Peer.version peer) (minCompatibleVersion q) = Some c
          ∧ c ≠ Lt)
  ∧ connected q = true
  ∧ NodeList.isBanned (nonNull (Peer.nodePubKey peer)) (nodes q) = false
  ∧ JsMap.has (nonNull (Peer.nodePubKey peer)) (peers q) = false
  ∧ Peer.connected peer = true.
Proof.
  intros Hpeer. unfold validatePeer, readPeer. simpl. rewrite Hpeer. simpl.
  destruct (truthy (Peer.nodePubKey peer)); simpl; [|done].
  case_bool_decide as Hself; simpl; [by destruct (o _)|].
  destruct (semver_valid (Peer.version peer)); simpl; [|by destruct (o _)].
  destruct (semver_compare _ _) as [[| |]|] eqn:Hcmp; simpl; try done.
  2: by destruct (o _).
  all: destruct (connected q); simpl; [|by destruct (o _)].
  all: destruct (NodeList.isBanned _ _); simpl; [by destruct (o _)|].
  all: destruct (JsMap.has _ _); simpl; [by destruct (o _)|].
  all: destruct (Peer.connected peer); simpl; [|done].
  all: intros _; split_and!; try done; eexists; split; [reflexivity|done].
Qed.

(** X7.  Whenever [openPeer] returns, the peer has passed every admission
    check and is in the peers map: [beginOpen] resolved with a [Hello] whose
    public key is not ours, whose version is well formed and not below the
    minimum, whose key is neither banned nor connected already, and whose
    socket was alive; the pool was connected and not disconnecting; and the
    peer is then stored under that key, active.  (The method run with
    nothing else in between.) *)
Theorem openPeer_admits_validated `{Semver} (o : Oracle) (q q' : Pool.t)
    (id : PeerId) (peer0 : Peer.t) (expected : option string) (retry : bool)
    (calls : list ExtCall) :
  store q !! id = Some peer0 ->
  run o (openPeer id expected retry) q = (q', calls, Returned tt) ->
  ∃ h,
    o [Peer_beginOpen id expected retry] = Greeted h
    ∧ Hello.nodePubKey h ≠ ""
    ∧ Hello.nodePubKey h ≠ nodePubKey q
    ∧ semver_valid (Hello.version h) = true
    ∧ (∃ c, semver_compare (Hello.version h) (minCompatibleVersion q) = Some c
            ∧ c ≠ Lt)
    ∧ disconnecting q = false
    ∧ connected q = true
    ∧ NodeList.isBanned (Hello.nodePubKey h) (nodes q) = false
    ∧ JsMap.has (Hello.nodePubKey h) (peers q) = false
    ∧ Hello.socketAlive h = true
    ∧ peers q' = JsMap.set (Hello.nodePubKey h) id (peers q)
    ∧ Peer.active <$> store q' !! id = Some true.
Proof.
  intros Hpeer Hrun.
  pose proof (openPeer_outcome o q id peer0 expected retry Hpeer)
    as (_ & _ & _ & Hout).
  rewrite Hrun in Hout. cbn [fst snd] in Hout.
  destruct Hout as (h & (Hd & Hc & Hb & Hv & _) & ->).
  assert (Hg : store (greeted h id q) !! id = Some (Peer_greeted h peer0)).
  { unfold greeted. simpl. by rewrite list_lookup_alter_eq, Hpeer. }
  destruct (run o (validatePeer id) (greeted h id q)) as [[q1 t1] r1] eqn:Hval.
  simpl in Hv. subst r1.
  destruct (validatePeer_accepts o _ _ id _ _ Hg Hval)
    as (Hkey & Hself & Hvalid & Hcmp & _ & Hban & Hdup & Halive).
  simpl in *. exists h. split_and!; try done.
  - intros Hempty. rewrite Hempty in Hkey. done.
  - rewrite !list_lookup_alter_eq, Hpeer. done.
Qed.

Lemma openPeer_admits_validated_A :
  ∃ h,
    Sample.oracle [Peer_beginOpen 0%nat (Some "aa") false] = Greeted h
    ∧ Hello.nodePubKey h ≠ nodePubKey Sample.poolB_dialling
    ∧ JsMap.has (Hello.nodePubKey h) (peers Sample.poolB_dialling) = false
    ∧ Hello.socketAlive h = true.
Proof.
  set (R := run Sample.oracle (openPeer 0%nat (Some "aa") false)
              Sample.poolB_dialling).
  assert (Hpeer : store Sample.poolB_dialling !! 0%nat
                  = Some (Peer.create Sample.addressA)) by reflexivity.
  assert (Hrun : R = (R.1.1, R.1.2, Returned tt)) by reflexivity.
  destruct (openPeer_admits_validated Sample.oracle Sample.poolB_dialling
              R.1.1 0%nat _ (Some "aa") false R.1.2 Hpeer Hrun)
    as (h & Hb & _ & Hself & _ & _ & _ & _ & _ & Hdup & Halive & _).
  exists h. split_and!; assumption.
Defined.

(** X8.  When the first handshake phase of an outbound peer fails,
    [openPeer] throws the very error [beginOpen] rejected with and leaves
    the pool as it was; it asks the node list to forget the address dialled
    exactly when that error is CONNECTION_RETRIES_MAX_PERIOD_EXCEEDED, and
    makes no other call. *)
Theorem openPeer_rethrows `{Semver} (o : Oracle) (q : Pool.t) (id : PeerId)
    (peer : Peer.t) (expected : string) (retry : bool) (e : errors.t) :
  store q !! id = Some peer ->
  disconnecting q = false ->
  connected q = true ->
  o [Peer_beginOpen id (Some expected) retry] = Rejected e ->
  o [Nodes_removeAddress expected (Peer.address peer)] = Resolved ->
  run o (openPeer id (Some expected) retry) q
  = (q,
     Peer_beginOpen id (Some expected) retry
       :: (if decide (e = errors.CONNECTION_RETRIES_MAX_PERIOD_EXCEEDED)
           then [Nodes_removeAddress expected (Peer.address peer)] else []),
     Thrown e).
Proof.
  intros Hpeer Hd Hc Hb Hrm. unfold openPeer. simpl. rewrite Hd, Hc. simpl.
  rewrite Hb. simpl. unfold openPeer_failed, readPeer.
  case_bool_decide as He; simpl.
  - rewrite Hpeer. simpl. rewrite Hrm. simpl. by rewrite decide_True.
  - by rewrite decide_False.
Qed.

Lemma openPeer_rethrows_gave_up :
  run Sample.oracleGaveUp (openPeer 0%nat (Some "aa") true)
    Sample.poolB_dialling
  = (Sample.poolB_dialling,
     [Peer_beginOpen 0%nat (Some "aa") true;
      Nodes_removeAddress "aa" Sample.addressA],
     Thrown errors.CONNECTION_RETRIES_MAX_PERIOD_EXCEEDED).
Proof.
  apply (openPeer_rethrows Sample.oracleGaveUp Sample.poolB_dialling 0%nat
           (Peer.create Sample.addressA) "aa" true
           errors.CONNECTION_RETRIES_MAX_PERIOD_EXCEEDED); reflexivity.
Defined.

(** ** Pending connections *)

Section JsMapMore.
Context {V : Type}.
Implicit Types (m : JsMap.t V) (k : string) (v : V).

Lemma JsMap_keys_set_present k v m :
  JsMap.has k m = true -> JsMap.keys (JsMap.set k v m) = JsMap.keys m.
Proof.
  unfold JsMap.has, JsMap.keys. induction m as [|[k0 v0] m IH]; simpl; [done|].
  destruct (decide (k0 = k)) as [->|Hne]; simpl; [done|].
  intros Hm. f_equal. by apply IH.
Qed.

Lemma JsMap_set_absent k v m :
  JsMap.has k m = false -> JsMap.set k v m = (m ++ [(k, v)])%list.
Proof.
  unfold JsMap.has. induction m as [|[k0 v0] m IH]; simpl; [done|].
  destruct (decide (k0 = k)) as [->|Hne]; simpl; [done|].
  intros Hm. by rewrite IH.
Qed.

Lemma JsMap_delete_set_absent k v m :
  JsMap.has k m = false -> JsMap.delete k (JsMap.set k v m) = m.
Proof.
  unfold JsMap.has. induction m as [|[k0 v0] m IH]; simpl.
  - by rewrite decide_True.
  - destruct (decide (k0 = k)) as [->|Hne]; simpl; [done|].
    intros Hm. rewrite decide_False by done. by rewrite IH.
Qed.

Lemma JsMap_get_set_ne k k' v m :
  k ≠ k' -> JsMap.get k' (JsMap.set k v m) = JsMap.get k' m.
Proof.
  intros Hne. induction m as [|[k0 v0] m IH]; simpl.
  - by rewrite decide_False.
  - destruct (decide (k0 = k)) as [->|Hk]; simpl.
    + by rewrite !decide_False.
    + destruct (decide (k0 = k')); [done|]. apply IH.
Qed.

Lemma JsMap_get_absent k m :
  k ∉ JsMap.keys m -> JsMap.get k m = None.
Proof.
  unfold JsMap.keys. induction m as [|[k0 v0] m IH]; [done|].
  rewrite fmap_cons. intros [Hne Hm]%not_elem_of_cons. simpl in *.
  rewrite decide_False by done. by apply IH.
Qed.

End JsMapMore.

Opaque openPeer.

(** X9.  Where [addOutbound] without [revokeConnectionRetries] fails with
    ALREADY_CONNECTING, the same call with [revokeConnectionRetries] set
    goes ahead: it revokes the retries of the pending peer, creates a new
    peer and starts its handshake, and the new peer takes the place of the
    pending one in [pendingOutboundPeers], under the same key; the peers map
    is not touched. *)
Theorem addOutbound_revokes_pending `{Semver} (p : Pool.t) (address : Address.t)
    (nodePubKey : string) (retryConnecting : bool) :
  sync (addOutbound address nodePubKey retryConnecting false) p
  = (p, [], Settled (Thrown (errors.ALREADY_CONNECTING nodePubKey))) ->
  let id := length (store p) in
  ∃ pendingPeer k,
    JsMap.get nodePubKey (pendingOutboundPeers p) = Some pendingPeer
    ∧ sync (addOutbound address nodePubKey retryConnecting true) p
      = (dialling address nodePubKey p,
         [Peer_revokeConnectionRetries pendingPeer; Peer_on id;
          Peer_beginOpen id (Some nodePubKey) retryConnecting],
         Suspended [Peer_beginOpen id (Some nodePubKey) retryConnecting] k)
    ∧ JsMap.get nodePubKey
        (pendingOutboundPeers (dialling address nodePubKey p))
      = Some id
    ∧ JsMap.keys (pendingOutboundPeers (dialling address nodePubKey p))
      = JsMap.keys (pendingOutboundPeers p)
    ∧ peers (dialling address nodePubKey p) = peers p.
Proof.
  unfold addOutbound. simpl.
  destruct (bool_decide (nodePubKey = Pool.nodePubKey p)
            || addressIsSelf address p); simpl; [done|].
  destruct (disconnecting p) eqn:Hd; simpl; [done|].
  destruct (connected p) eqn:Hc; simpl; [|done].
  destruct (negb (PoolConfig.tor (config p)) && _); simpl; [done|].
  destruct (NodeList.isBanned nodePubKey (nodes p)); simpl; [done|].
  destruct (JsMap.has nodePubKey (peers p)); simpl; [done|].
  destruct (JsMap.get nodePubKey (pendingOutboundPeers p))
    as [pendingPeer|] eqn:Hg; simpl.
  - intros _. rewrite openPeer_unfold. simpl. rewrite Hd, Hc. simpl.
    eexists pendingPeer, _. split_and!; try reflexivity.
    + apply JsMap_get_set_eq.
    + apply JsMap_keys_set_present. unfold JsMap.has. by rewrite Hg.
  - rewrite openPeer_unfold. simpl. rewrite Hd, Hc. simpl. done.
Qed.

Lemma addOutbound_revokes_pending_A :
  ∃ pendingPeer k,
    JsMap.get "aa" (pendingOutboundPeers Sample.poolB_dialling)
    = Some pendingPeer
    ∧ sync (addOutbound Sample.addressA "aa" false true) Sample.poolB_dialling
      = (dialling Sample.addressA "aa" Sample.poolB_dialling,
         [Peer_revokeConnectionRetries pendingPeer; Peer_on 1%nat;
          Peer_beginOpen 1%nat (Some "aa") false],
         Suspended [Peer_beginOpen 1%nat (Some "aa") false] k).
Proof.
  destruct (addOutbound_revokes_pending Sample.poolB_dialling Sample.addressA
              "aa" false) as (pendingPeer & k & Hget & Hsync & _).
  - reflexivity.
  - by exists pendingPeer, k.
Defined.

(** X10.  An inbound socket that arrives while the pool is closed or
    closing is neither greeted nor closed: [handleSocket] creates the peer
    and binds it, [openPeer] refuses with POOL_CLOSED before any handshake
    call, the error is swallowed, and the peer is taken out of
    [pendingInboundPeers] again; no [beginOpen], [close] or [destroy] is
    called and the peers map is as before. *)
Theorem handleSocket_closed_pool `{Semver} (o : Oracle) (p : Pool.t)
    (socket : Socket.t) :
  socketRefused socket p = false ->
  disconnecting p = true ∨ connected p = false ->
  let id := length (store p) in
  id ∉ pendingInboundPeers p ->
  run o (handleSocket socket) p
  = (with_store (store p ++ [Peer_fromInbound socket]) p, [Peer_on id],
     Returned tt).
Proof.
  intros Hok Hclosed id Hfresh.
  destruct (handleSocket_addInbound socket p Hok) as [_ ->].
  unfold addInbound, newPeer, tryOpenPeer. simpl.
  rewrite bool_decide_eq_false_2 by done. simpl.
  rewrite openPeer_unfold. simpl.
  assert (disconnecting p || negb (connected p) = true) as ->.
  { destruct Hclosed as [->| ->]; [done|by rewrite orb_true_r]. }
  simpl. rewrite filter_ne_fresh by done. by destruct p.
Qed.

Transparent openPeer.

Lemma handleSocket_closed_pool_before_init :
  run Sample.oracle (handleSocket Sample.socketA) Sample.poolB0
  = (with_store [Peer_fromInbound Sample.socketA] Sample.poolB0,
     [Peer_on 0%nat], Returned tt).
Proof.
  apply (handleSocket_closed_pool Sample.oracle Sample.poolB0 Sample.socketA).
  - reflexivity.
  - right. reflexivity.
  - by intros ?%elem_of_nil.
Defined.

(** ** Start-up *)

(** X11.  [init] is all or nothing, and is done once: if it returns, the
    pool is connected and any further [init] returns at once, calling
    nothing and changing nothing; if it throws, it is because the server
    could not listen, and then [listen] is the only call made and the pool
    is as before, not connected, with no listener bound and the node list
    not loaded. *)
Theorem init_outcome (o : Oracle) (p : Pool.t) :
  match run o init p with
  | (p', calls, Returned _) =>
      connected p' = true ∧ ∀ o', run o' init p' = (p', [], Returned tt)
  | (p', calls, Thrown e) =>
      p' = p ∧ connected p = false
      ∧ calls = [Server_listen (default 0 (listenPort p))]
  end.
Proof.
  assert (Hagain : ∀ q o', connected q = true ->
                     run o' init q = (q, [], Returned tt)).
  { intros q o' Hq. unfold init. simpl. by rewrite Hq. }
  destruct (run o init p) as [[p' calls] r] eqn:Hrun. revert Hrun.
  unfold init, listen. simpl.
  destruct (connected p) eqn:Hc; simpl.
  { intros [= <- <- <-]. split; [done|]. intros o'. by apply Hagain. }
  destruct (server p) as [listening|] eqn:Hs; simpl.
  - destruct (o [Server_listen _]) as [|e|h|b|port]; simpl;
      try (intros [= <- <- <-]; done).
    case_bool_decide; simpl;
      destruct (PoolConfig.detectexternalip (config p)); simpl;
      intros [= <- <- <-]; (split; [done|]); intros o'; by apply Hagain.
  - intros [= <- <- <-]. split; [done|]. intros o'. by apply Hagain.
Qed.

(** X12.  A pool that listens knows its own addresses by its port: after
    [init] the listen port is the configured port, or, when port 0 was
    configured, the port the server reports; from then on [addOutbound] to
    any of the hosts "::", "0.0.0.0", "::1", "127.0.0.1", "localhost" on
    that port fails with ATTEMPTED_CONNECTION_TO_SELF before anything is
    done.  A pool that does not listen takes no address for its own. *)
Theorem listen_port_is_self `{Semver} (o : Oracle) (config : PoolConfig.t)
    (nodePubKey version : string) (strict : bool) (minCompatibleVersion : string)
    (nodes : NodeList.t) (port : Z) :
  let p := (run o init (Pool.create config nodePubKey version strict
                          minCompatibleVersion nodes)).1.1 in
  (PoolConfig.listen config = true ->
   o [Server_listen (PoolConfig.port config)] = Listening port ->
   let own := if decide (PoolConfig.port config = 0) then port
              else PoolConfig.port config in
   listenPort p = Some own
   ∧ ∀ host lastConnected key retryConnecting revokeConnectionRetries,
       host ∈ ownHosts ->
       sync (addOutbound (Address.mk host own lastConnected) key
               retryConnecting revokeConnectionRetries) p
       = (p, [], Settled (Thrown errors.ATTEMPTED_CONNECTION_TO_SELF)))
  ∧ (PoolConfig.listen config = false ->
     ∀ address, addressIsSelf address p = false).
Proof.
  intros p. split.
  - intros Hl Hport own.
    assert (Hown : listenPort p = Some own).
    { subst p own. unfold init, listen, create. simpl. rewrite Hl. simpl.
      rewrite Hport. simpl.
      case_bool_decide as Hzero; simpl.
      - injection Hzero as Hzero. rewrite decide_True by done.
        by destruct (PoolConfig.detectexternalip config).
      - rewrite decide_False by congruence.
        by destruct (PoolConfig.detectexternalip config). }
    split; [done|].
    intros host lc key r v Hhost. unfold addOutbound, addressIsSelf. simpl.
    rewrite Hown. rewrite (bool_decide_eq_true_2 (Some own = Some own)) by done.
    unfold ownHosts in Hhost.
    rewrite (bool_decide_eq_true_2 _ Hhost). by rewrite orb_true_r.
  - intros Hl address. subst p. unfold init, listen, create, addressIsSelf.
    simpl. rewrite Hl. done.
Qed.

Lemma listen_port_is_self_B :
  listenPort Sample.poolB = Some 9735
  ∧ sync (addOutbound (Address.mk "localhost" 9735 None) "aa" false false)
      Sample.poolB
    = (Sample.poolB, [], Settled (Thrown errors.ATTEMPTED_CONNECTION_TO_SELF)).
Proof.
  destruct (listen_port_is_self Sample.oracle Sample.config "bb" "1.0.0" true
              "1.0.0" (NodeList.mk []) 9735) as [Hlistening _].
  destruct Hlistening as [Hport Hself]; [reflexivity|reflexivity|].
  split; [exact Hport|].
  apply (Hself "localhost" None "aa" false false).
  unfold ownHosts. rewrite !elem_of_cons. auto 10.
Defined.

(** ** A connection from its opening to its closing *)

Opaque addOutbound.

Lemma attemptInOrder_sync_peers `{Semver} (pk : string)
    (plan : list (Address.t * bool)) (q : Pool.t) :
  peers (sync (attemptInOrder pk plan) q).1.1 = peers q.
Proof.
  induction plan as [|[a r] plan IH]; [done|].
  cbn [attemptInOrder]. rewrite sync_bind. unfold attempt.
  rewrite sync_catch, sync_bind.
  destruct (addOutbound_cases q a pk r false)
    as [(e & -> & _)|(_ & _ & _ & pre & (k & ->) & _)]; simpl.
  - by destruct (sync (attemptInOrder pk plan) q) as [[??]?].
  - done.
Qed.

Transparent addOutbound.
Opaque tryConnectNode.

Lemma handlePeerClose_sync_peers `{Semver} (id : PeerId) (peer : Peer.t)
    (p : Pool.t) :
  store p !! id = Some peer ->
  Peer.active peer = true ->
  peers (sync (handlePeerClose id) p).1.1
  = JsMap.delete (nonNull (Peer.nodePubKey peer)) (peers p).
Proof.
  intros Hpeer Hactive. unfold handlePeerClose, readPeer. simpl.
  rewrite Hpeer. simpl. rewrite Hactive. simpl.
  destruct (shouldReconnect _ _); [|done].
  rewrite tryConnectNode_attemptInOrder.
  match goal with
  | |- context [sync (attemptInOrder ?k ?pl) ?s] =>
      pose proof (attemptInOrder_sync_peers k pl s) as Hpeers;
      destruct (sync (attemptInOrder k pl) s) as [[s' tr] r]
  end.
  simpl in *. exact Hpeers.
Qed.

Transparent tryConnectNode.

Lemma listPeers_values {PeerInfo : Type} (info : PeerId -> PeerInfo)
    (p : Pool.t) :
  listPeers info p = map info (JsMap.values (peers p)).
Proof.
  unfold listPeers.
  assert (Hfold : ∀ l acc,
            foldl (fun peerInfos peer => peerInfos ++ [info peer]) acc l
            = acc ++ map info l).
  { induction l as [|x l IH]; intros acc; simpl.
    - by rewrite app_nil_r.
    - rewrite IH. by rewrite <- app_assoc. }
  apply Hfold.
Qed.

(** X13.  A successful [addOutbound] and the [close] of its peer are a
    round trip on the peers map.  The key the new peer is stored under was
    not connected before; once [addOutbound] has returned, [getPeer] finds
    the peer under that key, [peerCount] has grown by one and [listPeers]
    lists the new peer last; at the end of the stretch in which
    [handlePeerClose] handles its [close] event the peers map is what it
    was before the call, and [getPeer] throws NOT_CONNECTED again. *)
Theorem connect_close_round_trip `{Semver} (PeerInfo : Type) (o : Oracle)
    (p p1 : Pool.t) (address : Address.t) (nodePubKey : string)
    (retryConnecting revokeConnectionRetries : bool) (calls : list ExtCall)
    (id : PeerId) :
  run o (addOutbound address nodePubKey retryConnecting revokeConnectionRetries) p
  = (p1, calls, Returned id) ->
  ∃ key,
    tryGetPeer key p = None
    ∧ getPeer key p1 = Returned id
    ∧ peerCount p1 = S (peerCount p)
    ∧ (∀ info : PeerId -> PeerInfo,
         listPeers info p1 = listPeers info p ++ [info id])
    ∧ peers (sync (handlePeerClose id) p1).1.1 = peers p
    ∧ getPeer key (sync (handlePeerClose id) p1).1.1
      = Thrown (errors.NOT_CONNECTED key).
Proof.
  intros Hrun.
  destruct (addOutbound_cases p address nodePubKey retryConnecting
              revokeConnectionRetries)
    as [(e & _ & Hthrown)|(_ & _ & _ & pre & _ & Hrun')].
  { rewrite Hthrown in Hrun. done. }
  rewrite Hrun' in Hrun. clear Hrun'.
  assert (Hnew : store (dialling address nodePubKey p) !! length (store p)
                 = Some (Peer.create address)).
  { unfold dialling. simpl. by apply list_lookup_middle. }
  pose proof (openPeer_outcome o _ _ _ (Some nodePubKey) retryConnecting Hnew)
    as (_ & _ & _ & Hout).
  destruct (run o (openPeer _ _ _) (dialling address nodePubKey p))
    as [[q' calls'] [[]|e]] eqn:Hopen; [|done].
  cbn [fst snd] in Hout. destruct Hout as (h & (_ & _ & _ & Hv & _) & ->).
  injection Hrun as <- _ <-.
  set (q := greeted h (length (store p)) (dialling address nodePubKey p)) in *.
  assert (Hg : store q !! length (store p)
               = Some (Peer_greeted h (Peer.create address))).
  { subst q. unfold greeted. cbn [store with_store].
    by rewrite list_lookup_alter_eq, Hnew. }
  destruct (run o (validatePeer (length (store p))) q) as [[q1 t1] r1] eqn:Hval.
  simpl in Hv. subst r1.
  destruct (validatePeer_accepts o _ _ _ _ _ Hg Hval)
    as (_ & _ & _ & _ & _ & _ & Hdup & _).
  change (JsMap.has (Hello.nodePubKey h) (peers p) = false) in Hdup.
  match goal with
  | |- context [sync (handlePeerClose ?i) ?s] =>
      assert (Hclosed : peers (sync (handlePeerClose i) s).1.1 = peers p)
  end.
  { rewrite (handlePeerClose_sync_peers _
               (Peer.with_active true (Peer_greeted h (Peer.create address)))).
    - cbn. by apply JsMap_delete_set_absent.
    - unfold admitted.
      cbn [store with_store with_peers with_pendingOutboundPeers].
      rewrite list_lookup_alter_eq, Hg. reflexivity.
    - reflexivity. }
  exists (Hello.nodePubKey h). split_and!.
  - unfold tryGetPeer, getPeer, JsMap.has in *.
    by destruct (JsMap.get _ (peers p)).
  - unfold getPeer. cbn. by rewrite JsMap_get_set_eq.
  - unfold peerCount. cbn. rewrite JsMap_set_absent by done.
    rewrite length_app. simpl. lia.
  - intros info. rewrite !listPeers_values. cbn.
    rewrite JsMap_set_absent by done. unfold JsMap.values.
    by rewrite fmap_app, map_app.
  - exact Hclosed.
  - unfold getPeer. rewrite Hclosed. unfold JsMap.has in Hdup.
    by destruct (JsMap.get _ (peers p)).
Qed.

Lemma connect_close_round_trip_A :
  ∃ key,
    getPeer key Sample.poolB_connected = Returned 0%nat
    ∧ peerCount Sample.poolB_connected = S (peerCount Sample.poolB)
    ∧ peers (sync (handlePeerClose 0%nat) Sample.poolB_connected).1.1
      = peers Sample.poolB.
Proof.
  set (R := run Sample.oracle (addOutbound Sample.addressA "aa" false false)
              Sample.poolB).
  assert (Hrun : R = (Sample.poolB_connected, R.1.2, Returned 0%nat))
    by reflexivity.
  destruct (connect_close_round_trip string Sample.oracle Sample.poolB
              Sample.poolB_connected Sample.addressA "aa" false false R.1.2
              0%nat Hrun)
    as (key & _ & Hget & Hcount & _ & Hclosed & _).
  exists key. split_and!; assumption.
Defined.

(** * Properties of the services *)

Section ServiceFacts.
Import Method.

Lemma forEach_start_filter {X : Type} (b : X -> bool) (c : X -> Call)
    (l : list X) (w : World) (s : State) :
  forEach (fun x => if b x then start (c x) else ret tt) l w s
  = (s, map c (filter (fun x => b x = true) l), Returned tt).
Proof.
  induction l as [|x l IH]; [done|].
  cbn [forEach]. unfold mbind, Method_bind, bind.
  destruct (b x) eqn:Hb.
  - rewrite filter_cons_True by done. cbn. by rewrite IH.
  - rewrite filter_cons_False by (rewrite Hb; done). cbn. by rewrite IH.
Qed.

Lemma forEach_start_all {X : Type} (c : X -> Call) (l : list X) (w : World)
    (s : State) :
  forEach (fun x => start (c x)) l w s = (s, map c l, Returned tt).
Proof.
  induction l as [|x l IH]; [done|].
  cbn [forEach]. unfold mbind, Method_bind, bind. cbn. by rewrite IH.
Qed.

Lemma with_connections_same (s : State) :
  with_connections (connections s) s = s.
Proof. by destruct s. Qed.

Lemma elem_of_map_filter {X Y : Type} (f : X -> Y) (P : X -> Prop)
    `{∀ x, Decision (P x)} (l : list X) (y : Y) :
  y ∈ map f (filter P l) ↔ ∃ x, y = f x ∧ x ∈ l ∧ P x.
Proof.
  change (map f (filter P l)) with (f <$> filter P l).
  rewrite list_elem_of_fmap. setoid_rewrite list_elem_of_filter.
  split; intros (x & ? & ? & ?); eauto.
Qed.

(** ** Broadcasts *)

(** X14.  [broadcastOrder] hands one and the same order packet to the peers
    of the peers map for which the pair of the order is active, once each
    and in the order of the map, and to no other peer; it changes nothing
    and cannot throw. *)
Theorem broadcastOrder_recipients (w : World) (s : State) (order : Order.t) :
  let orderPacket :=
    Packet.mk (packetId w (Packet.Order order)) (Packet.Order order) in
  let recipients :=
    filter (fun peer => isPairActive w peer (Order.pairId order) = true)
      (JsMap.values (peers (connections s))) in
  broadcastOrder order w s
  = (s, map (fun peer => Peer_sendPacket peer orderPacket) recipients,
     Returned tt)
  ∧ ∀ peer, peer ∈ recipients ↔
      (∃ key, (key, peer) ∈ peers (connections s))
      ∧ isPairActive w peer (Order.pairId order) = true.
Proof.
  intros orderPacket recipients. split.
  - unfold broadcastOrder, mbind, Method_bind, bind, world, state. cbn.
    rewrite (forEach_start_filter
               (fun peer => isPairActive w peer (Order.pairId order))).
    reflexivity.
  - intros peer. subst recipients. rewrite list_elem_of_filter.
    unfold JsMap.values. rewrite list_elem_of_fmap. split.
    + intros [Hactive ([key peer'] & -> & Hin)]. eauto.
    + intros [(key & Hin) Hactive]. split; [done|]. by exists (key, peer).
Qed.

(** X15.  [broadcastOrderInvalidation] hands one and the same invalidation
    packet to the peers of the peers map for which the pair is active,
    except the peers that carry the public key to exclude, when one is
    given (an empty key excludes nobody); once each, in the order of the
    map.  No packet goes to an excluded peer. *)
Theorem broadcastOrderInvalidation_recipients (w : World) (s : State)
    (portion : OrderInvalidation.t) (nodeToExclude : option string) :
  let body := Packet.OrderInvalidation portion in
  let packet := Packet.mk (packetId w body) body in
  let recipients :=
    filter (fun peer =>
              ¬ keepsOut s nodeToExclude peer
              ∧ isPairActive w peer (OrderInvalidation.pairId portion) = true)
      (JsMap.values (peers (connections s))) in
  broadcastOrderInvalidation portion nodeToExclude w s
  = (s, map (fun peer => Peer_sendPacket peer packet) recipients, Returned tt)
  ∧ ∀ peer, keepsOut s nodeToExclude peer -> peer ∉ recipients.
Proof.
  intros body packet recipients. split.
  - unfold broadcastOrderInvalidation, mbind, Method_bind, bind, world, state.
    cbn.
    set (b := fun peer =>
           (negb (truthy nodeToExclude)
            || bool_decide (pubKeyOf s peer ≠ nodeToExclude))
           && isPairActive w peer (OrderInvalidation.pairId portion)).
    erewrite (f_equal (fun f => forEach f _ w s)); last first.
    { extensionality peer.
      instantiate (1 := fun peer => if b peer then _ else _).
      subst b. cbn beta.
      destruct (negb (truthy nodeToExclude) || _); cbn; [|reflexivity].
      destruct (isPairActive w peer _); reflexivity. }
    rewrite forEach_start_filter. cbn. f_equal. f_equal. f_equal.
    apply list_filter_iff. intros peer. subst b. cbn beta.
    rewrite andb_true_iff, orb_true_iff, negb_true_iff, bool_decide_eq_true.
    unfold keepsOut, truthy. split.
    + intros [Hin Hact]. split; [|done].
      intros (key & -> & Hne & Hkey). destruct Hin as [Hin|Hin].
      * by destruct (String.eqb_spec key "").
      * done.
    + intros [Hout Hact]. split; [|done].
      destruct nodeToExclude as [key|]; [|by left].
      destruct (String.eqb_spec key "") as [->|Hne]; [by left|].
      right. intros Hkey. apply Hout. by exists key.
  - intros peer Hout. subst recipients. rewrite list_elem_of_filter.
    intros [[Hin _] _]. done.
Qed.

Lemma broadcastOrderInvalidation_recipients_A :
  keepsOut Sample.nodeB (Some "aa") 0%nat
  ∧ 0%nat ∉ filter (fun peer =>
                      ¬ keepsOut Sample.nodeB (Some "aa") peer
                      ∧ isPairActive Sample.world peer "LTC/BTC" = true)
              (JsMap.values (peers (connections Sample.nodeB))).
Proof.
  assert (Hout : keepsOut Sample.nodeB (Some "aa") 0%nat).
  { exists "aa". by split_and!. }
  split; [exact Hout|].
  destruct (broadcastOrderInvalidation_recipients Sample.world Sample.nodeB
              (OrderInvalidation.mk "order-1" "LTC/BTC" None) (Some "aa"))
    as [_ Hnever].
  exact (Hnever 0%nat Hout).
Defined.

(** ** The advertised node state *)

(** X16.  [updatePairs] replaces the advertised pairs and hands one
    [NodeStateUpdate] packet, carrying the node state as updated, to every
    peer of the peers map, in the order of the map.  From then on the
    [pairDropped] event of a peer is passed on as [peer.pairDropped] exactly
    for the pairs given. *)
Theorem updatePairs_notifies (w : World) (s : State) (pairIds : list string) :
  let s' := with_nodeState (NodeState.with_pairs pairIds (nodeState s)) s in
  let body := Packet.NodeStateUpdate (nodeState s') in
  let packet := Packet.mk (packetId w body) body in
  updatePairs pairIds w s
  = (s', map (fun peer => Peer_sendPacket peer packet)
           (JsMap.values (peers (connections s))),
     Returned tt)
  ∧ ∀ peer pairId,
      onPairDropped peer pairId w s'
      = (s',
         if decide (pairId ∈ pairIds)
         then [Emit (peer_pairDropped (nonNull (pubKeyOf s peer)) pairId)]
         else [],
         Returned tt).
Proof.
  intros s' body packet. split.
  - unfold updatePairs, sendNodeStateUpdate, mbind, Method_bind, bind, update,
      world, state. cbn.
    rewrite forEach_start_all. done.
  - intros peer pairId.
    unfold onPairDropped, mbind, Method_bind, bind, state. cbn.
    case_bool_decide; case_decide; done.
Qed.

Lemma JsObject_get_setPrimitive_eq {V : Type} (k : string) (v : V)
    (o : JsObject.t V) :
  k ≠ "__proto__" ->
  JsObject.get k (JsObject.setPrimitive k v o) = JsObject.held v.
Proof.
  intros Hk. unfold JsObject.get, JsObject.setPrimitive.
  rewrite bool_decide_eq_false_2 by done. cbn. by rewrite lookup_insert_eq.
Qed.

Lemma JsObject_get_setPrimitive_ne {V : Type} (k k' : string) (v : V)
    (o : JsObject.t V) :
  k' ≠ k ->
  JsObject.get k' (JsObject.setPrimitive k v o) = JsObject.get k' o.
Proof.
  intros Hk. unfold JsObject.get, JsObject.setPrimitive.
  case_bool_decide; [done|]. cbn. by rewrite lookup_insert_ne.
Qed.

Lemma JsObject_get_setObject_ne {V : Type} (k k' : string) (v : V)
    (o : JsObject.t V) :
  k ≠ "__proto__" -> k' ≠ k ->
  JsObject.get k' (JsObject.setObject k v o) = JsObject.get k' o.
Proof.
  intros Hk Hk'. unfold JsObject.get, JsObject.setObject.
  rewrite bool_decide_eq_false_2 by done. cbn. by rewrite lookup_insert_ne.
Qed.

(** X17.  For a currency other than "__proto__", [updateLndState] writes
    the lnd public key of the currency, its uris when some are given, and
    the token identifier of the currency, which becomes the chain given,
    also when none is given: an identifier stored before is then gone.  For
    the currency "__proto__" nothing is stored: the public keys and the
    token identifiers stay as they are, and uris that are given become the
    prototype of the object that holds the uris.  Either way what is read
    for the other currencies stays, the connections are not touched, and
    every peer of the peers map is handed the updated node state. *)
Theorem updateLndState_token (w : World) (s : State) (currency pubKey : string)
    (chain : option string) (uris : option (list string)) :
  let '(s', calls, r) := updateLndState currency pubKey chain uris w s in
  r = Returned tt
  ∧ connections s' = connections s
  ∧ (currency ≠ "__proto__" ->
     getTokenIdentifier currency s'
     = match chain with
       | Some tokenIdentifier => JsObject.held tokenIdentifier
       | None => JsObject.absent
       end
     ∧ JsObject.get currency (NodeState.lndPubKeys (nodeState s'))
       = JsObject.held pubKey
     ∧ JsObject.get currency (NodeState.lndUris (nodeState s'))
       = match uris with
         | Some uris => JsObject.held uris
         | None => JsObject.get currency (NodeState.lndUris (nodeState s))
         end)
  ∧ (currency = "__proto__" ->
     NodeState.tokenIdentifiers (nodeState s')
     = NodeState.tokenIdentifiers (nodeState s)
     ∧ NodeState.lndPubKeys (nodeState s') = NodeState.lndPubKeys (nodeState s)
     ∧ JsObject.own (NodeState.lndUris (nodeState s'))
       = JsObject.own (NodeState.lndUris (nodeState s))
     ∧ JsObject.prototype (NodeState.lndUris (nodeState s'))
       = match uris with
         | Some uris => Some uris
         | None => JsObject.prototype (NodeState.lndUris (nodeState s))
         end)
  ∧ (∀ other, other ≠ currency ->
       getTokenIdentifier other s' = getTokenIdentifier other s
       ∧ JsObject.get other (NodeState.lndPubKeys (nodeState s'))
         = JsObject.get other (NodeState.lndPubKeys (nodeState s)))
  ∧ calls
    = map (fun peer =>
             Peer_sendPacket peer
               (Packet.mk (packetId w (Packet.NodeStateUpdate (nodeState s')))
                  (Packet.NodeStateUpdate (nodeState s'))))
        (JsMap.values (peers (connections s))).
Proof.
  unfold updateLndState, sendNodeStateUpdate, mbind, Method_bind, bind, update,
    world, state, getTokenIdentifier.
  destruct uris as [uris|]; cbn; rewrite forEach_start_all; cbn.
  all: split_and!; try done.
  - intros Hk. rewrite !JsObject_get_setPrimitive_eq by done.
    split_and!; [by destruct chain|done|].
    unfold JsObject.get, JsObject.setObject.
    rewrite bool_decide_eq_false_2 by done. cbn. by rewrite lookup_insert_eq.
  - intros ->. done.
  - intros other Hne. by rewrite !JsObject_get_setPrimitive_ne.
  - intros Hk. rewrite !JsObject_get_setPrimitive_eq by done.
    split_and!; [by destruct chain|done|done].
  - intros ->. done.
  - intros other Hne. by rewrite !JsObject_get_setPrimitive_ne.
Qed.

Lemma updateLndState_token_proto :
  let '(s', _, _) :=
    updateLndState "__proto__" "03ab" (Some "bitcoin-mainnet") None
      Sample.world Sample.nodeB in
  NodeState.tokenIdentifiers (nodeState s')
  = NodeState.tokenIdentifiers (nodeState Sample.nodeB)
  ∧ getTokenIdentifier "__proto__" s' = JsObject.inherited "__proto__"
  ∧ let '(s'', _, _) :=
      updateLndState "BTC" "03ab" (Some "bitcoin-mainnet") None
        Sample.world Sample.nodeB in
    getTokenIdentifier "BTC" s'' = JsObject.held "bitcoin-mainnet".
Proof.
  pose proof (updateLndState_token Sample.world Sample.nodeB "__proto__" "03ab"
                (Some "bitcoin-mainnet") None) as Hproto.
  pose proof (updateLndState_token Sample.world Sample.nodeB "BTC" "03ab"
                (Some "bitcoin-mainnet") None) as Hbtc.
  destruct (updateLndState "__proto__" _ _ _ Sample.world Sample.nodeB)
    as [[s' calls'] r'].
  destruct (updateLndState "BTC" _ _ _ Sample.world Sample.nodeB)
    as [[s'' calls''] r''].
  destruct Hproto as (_ & _ & _ & Hproto & _).
  destruct (Hproto eq_refl) as (Htokens & _).
  destruct Hbtc as (_ & _ & Hbtc & _).
  destruct Hbtc as (Hbtc & _); [discriminate|].
  split_and!; [exact Htokens| |exact Hbtc].
  unfold getTokenIdentifier. rewrite Htokens. reflexivity.
Defined.

Lemma setTokens_get (c : string) (tokenAddresses : JsMap.t string)
    (m : JsObject.t (option string)) :
  NoDup (JsMap.keys tokenAddresses) ->
  JsObject.get c (setTokens m tokenAddresses)
  = match JsMap.get c tokenAddresses with
    | Some a =>
        if decide (c = "__proto__") then JsObject.get c m
        else JsObject.held (Some a)
    | None => JsObject.get c m
    end.
Proof.
  unfold setTokens, JsMap.keys. revert m.
  induction tokenAddresses as [|[k a] l IH]; intros m; [done|].
  rewrite fmap_cons. intros [Hk Hl]%NoDup_cons. cbn [foldl JsMap.get].
  rewrite IH by done. destruct (decide (k = c)) as [->|Hne].
  - rewrite JsMap_get_absent by done.
    destruct (decide (c = "__proto__")) as [->|Hc].
    + done.
    + by rewrite JsObject_get_setPrimitive_eq.
  - destruct (JsMap.get c l).
    + case_decide; [|done]. by rewrite JsObject_get_setPrimitive_ne.
    + by rewrite JsObject_get_setPrimitive_ne.
Qed.

Lemma forEach_tokens (l : JsMap.t string) (w : World) (s : State) :
  forEach
    (fun entry : string * string =>
       let '(currency, tokenAddress) := entry in
       update (fun s =>
         with_nodeState
           (NodeState.with_tokenIdentifiers
              (JsObject.setPrimitive currency (Some tokenAddress)
                 (NodeState.tokenIdentifiers (nodeState s)))
              (nodeState s)) s)) l w s
  = (with_nodeState
       (NodeState.with_tokenIdentifiers
          (setTokens (NodeState.tokenIdentifiers (nodeState s)) l)
          (nodeState s)) s, [], Returned tt).
Proof.
  unfold setTokens. revert s. induction l as [|[k a] l IH]; intros s.
  - by destruct s as [? [] ? ?].
  - cbn [forEach foldl]. unfold mbind, Method_bind, bind. cbn.
    rewrite IH. done.
Qed.

(** X18.  [updateConnextState] writes the token identifier of every
    currency of the map it is given, except that an entry for the currency
    "__proto__" is not stored, and leaves what is read for the other
    currencies as it is; the connext identifier becomes the public key
    given, and stays as it is when none, or an empty one, is given.  The
    connections are not touched, and every peer of the peers map is handed
    the updated node state. *)
Theorem updateConnextState_tokens (w : World) (s : State)
    (tokenAddresses : JsMap.t string) (pubKey : option string) :
  NoDup (JsMap.keys tokenAddresses) ->
  let '(s', calls, r) := updateConnextState tokenAddresses pubKey w s in
  r = Returned tt
  ∧ connections s' = connections s
  ∧ (∀ currency,
       getTokenIdentifier currency s'
       = match JsMap.get currency tokenAddresses with
         | Some tokenAddress =>
             if decide (currency = "__proto__")
             then getTokenIdentifier currency s
             else JsObject.held tokenAddress
         | None => getTokenIdentifier currency s
         end)
  ∧ NodeState.connextIdentifier (nodeState s')
    = (if truthy pubKey then nonNull pubKey
       else NodeState.connextIdentifier (nodeState s))
  ∧ calls
    = map (fun peer =>
             Peer_sendPacket peer
               (Packet.mk (packetId w (Packet.NodeStateUpdate (nodeState s')))
                  (Packet.NodeStateUpdate (nodeState s'))))
        (JsMap.values (peers (connections s))).
Proof.
  intros Hnodup.
  unfold updateConnextState, sendNodeStateUpdate, mbind, Method_bind, bind,
    world, state, getTokenIdentifier.
  destruct (truthy pubKey) eqn:Hpk; cbn.
  all: rewrite forEach_tokens; cbn; rewrite forEach_start_all; cbn.
  all: split_and!; try done.
  all: intros currency; rewrite setTokens_get by done.
  all: destruct (JsMap.get currency tokenAddresses); [|done].
  all: by case_decide.
Qed.

Lemma updateConnextState_tokens_ETH :
  let '(s', calls, r) :=
    updateConnextState
      [("ETH", "0x0000"); ("__proto__", "0xffff"); ("USDT", "0xdac1")]
      (Some "") Sample.world Sample.nodeB in
  getTokenIdentifier "USDT" s' = JsObject.held "0xdac1"
  ∧ getTokenIdentifier "__proto__" s' = JsObject.inherited "__proto__"
  ∧ getTokenIdentifier "XMR" s' = JsObject.absent
  ∧ NodeState.connextIdentifier (nodeState s') = ""
  ∧ length calls = 2%nat.
Proof.
  assert (Hnodup : NoDup (JsMap.keys [("ETH", "0x0000"); ("__proto__", "0xffff");
                                      ("USDT", "0xdac1")])).
  { unfold JsMap.keys. simpl. repeat (apply NoDup_cons; split).
    - rewrite !elem_of_cons, elem_of_nil. intros [?|[?|?]]; done.
    - rewrite list_elem_of_singleton. discriminate.
    - apply not_elem_of_nil.
    - apply NoDup_nil_2. }
  pose proof (updateConnextState_tokens Sample.world Sample.nodeB
                [("ETH", "0x0000"); ("__proto__", "0xffff"); ("USDT", "0xdac1")]
                (Some "") Hnodup)
    as Hupdate.
  destruct (updateConnextState _ _ Sample.world Sample.nodeB)
    as [[s' calls] r].
  destruct Hupdate as (_ & _ & Htokens & Hid & ->).
  split_and!;
    [apply (Htokens "USDT")|apply (Htokens "__proto__")|apply (Htokens "XMR")
    |exact Hid|reflexivity].
Defined.

(** ** Nodes to connect to *)

Lemma connectNodes_selected (w : World) (s : State)
    (nodes : list NodeConnectionInfo.t) (allowKnown retryConnecting : bool) :
  connectNodes nodes allowKnown retryConnecting w s
  = (s,
     map (fun node => Started node retryConnecting)
       (filter (eligible w s allowKnown) nodes),
     Returned tt).
Proof.
  unfold connectNodes.
  set (visit := fun node : NodeConnectionInfo.t => _).
  assert (Hvisit : ∀ node,
            visit node w s
            = (s,
               if decide (eligible w s allowKnown node)
               then [Started node retryConnecting] else [],
               Returned tt)).
  { intros node. subst visit.
    unfold mbind, Method_bind, bind, world, state. cbn.
    destruct (decide (eligible w s allowKnown node)) as [Hel|Hel].
    - destruct Hel as (Hus & Haddr & Hallowed).
      rewrite (bool_decide_eq_true_2 _ Hus).
      assert (bool_decide (is_Some (NodeConnectionInfo.lastAddress node))
              || bool_decide
                   (length (NodeConnectionInfo.addresses node) ≠ 0%nat)
              = true) as ->.
      { apply orb_true_iff. destruct Haddr as [?|Hne].
        - left. by apply bool_decide_eq_true.
        - right. apply bool_decide_eq_true.
          by destruct (NodeConnectionInfo.addresses node). }
      assert (allowKnown
              || negb (nodesHas w (NodeConnectionInfo.nodePubKey node))
              = true) as ->.
      { destruct Hallowed as [->| ->]; [done|by rewrite orb_true_r]. }
      done.
    - match goal with
      | |- context [if ?c then _ else _] => destruct c eqn:Hc
      end; [|done].
      exfalso. apply Hel.
      apply andb_true_iff in Hc as [[Hus Haddr]%andb_true_iff Hallowed].
      apply bool_decide_eq_true in Hus.
      apply orb_true_iff in Haddr, Hallowed.
      split_and!; [done| |].
      + destruct Haddr as [?%bool_decide_eq_true|Hlen%bool_decide_eq_true];
          [by left|right]. by destruct (NodeConnectionInfo.addresses node).
      + destruct Hallowed as [?|?%negb_true_iff]; auto. }
  clearbody visit.
  induction nodes as [|node nodes IH]; [done|].
  cbn [forEach]. unfold mbind, Method_bind, bind in *.
  rewrite Hvisit, IH.
  destruct (decide (eligible w s allowKnown node)).
  - by rewrite filter_cons_True.
  - by rewrite filter_cons_False.
Qed.

(** X19.  [connectNodes] starts a [tryConnectNode], with the retry flag it
    was given, for the nodes of its list that have another key than ours,
    come with a last address or at least one advertised address, and, when
    known nodes are not allowed, are not in the node list; for these, in
    the order of the list, and for no other.  It never starts a connection
    to our own key, and when known nodes are allowed the node list does not
    matter. *)
Theorem connectNodes_starts (w : World) (s : State)
    (nodes : list NodeConnectionInfo.t) (allowKnown retryConnecting : bool) :
  let '(s', calls, r) := connectNodes nodes allowKnown retryConnecting w s in
  s' = s
  ∧ r = Returned tt
  ∧ calls = map (fun node => Started node retryConnecting)
              (filter (eligible w s allowKnown) nodes)
  ∧ (∀ node retry,
       Started node retry ∈ calls ->
       node ∈ nodes
       ∧ retry = retryConnecting
       ∧ NodeConnectionInfo.nodePubKey node ≠ nodePubKey (connections s)
       ∧ (NodeConnectionInfo.lastAddress node = None ->
          NodeConnectionInfo.addresses node ≠ []))
  ∧ (allowKnown = true ->
     ∀ node, node ∈ nodes ->
       NodeConnectionInfo.nodePubKey node ≠ nodePubKey (connections s) ->
       NodeConnectionInfo.addresses node ≠ [] ->
       Started node retryConnecting ∈ calls).
Proof.
  rewrite connectNodes_selected. split_and!; try done.
  - intros node retry (node' & Heq & Hin & Hus & Haddr & _)%elem_of_map_filter.
    injection Heq as -> ->. split_and!; try done.
    intros Hnone. destruct Haddr as [Hsome|?]; [|done].
    rewrite Hnone in Hsome. by destruct Hsome.
  - intros -> node Hin Hus Haddr. apply elem_of_map_filter.
    exists node. split_and!; auto. unfold eligible. auto.
Qed.

Lemma connectNodes_starts_known :
  connectNodes
    [Sample.nodeA; NodeConnectionInfo.mk "bb" [Sample.addressC] None;
     NodeConnectionInfo.mk "dd" [] None;
     NodeConnectionInfo.mk "cc" [Sample.addressC] None]
    false true Sample.world Sample.nodeB
  = (Sample.nodeB,
     [Started (NodeConnectionInfo.mk "cc" [Sample.addressC] None) true],
     Returned tt).
Proof.
  pose proof (connectNodes_starts Sample.world Sample.nodeB
                [Sample.nodeA; NodeConnectionInfo.mk "bb" [Sample.addressC] None;
                 NodeConnectionInfo.mk "dd" [] None;
                 NodeConnectionInfo.mk "cc" [Sample.addressC] None]
                false true) as Hstarts.
  destruct (connectNodes _ false true Sample.world Sample.nodeB)
    as [[s' calls] r].
  destruct Hstarts as (-> & -> & -> & _). reflexivity.
Defined.

(** ** Packets *)

Lemma handlePacket_orders_announced (w : World) (s : State) (peer : PeerId)
    (id : string) (orders : list Order.t) :
  handlePacket peer (Packet.mk id (Packet.Orders orders)) w s
  = (s,
     map (fun order =>
            Emit (packet_order
                    (IncomingOrder.mk order (nonNull (pubKeyOf s peer)))))
       (filter (fun order => isPairActive w peer (Order.pairId order) = true)
          orders),
     Returned tt).
Proof.
  unfold handlePacket, mbind, Method_bind, bind, world, state. cbn.
  case_bool_decide as Hlen.
  - rewrite (forEach_start_filter
               (fun order => isPairActive w peer (Order.pairId order))).
    done.
  - destruct orders; [done|]. simpl in Hlen. lia.
Qed.

(** X20.  On an [Orders] packet [handlePacket] emits [packet.order] for the
    orders of the packet whose pair is active for the sending peer, each
    with the public key of that peer, in the order of the packet; the
    orders for other pairs are dropped, as many events are emitted as there
    are orders for active pairs, and nothing but these events happens. *)
Theorem handlePacket_orders (w : World) (s : State) (peer : PeerId)
    (id : string) (orders : list Order.t) :
  let announced :=
    filter (fun order => isPairActive w peer (Order.pairId order) = true)
      orders in
  handlePacket peer (Packet.mk id (Packet.Orders orders)) w s
  = (s,
     map (fun order =>
            Emit (packet_order
                    (IncomingOrder.mk order (nonNull (pubKeyOf s peer)))))
       announced,
     Returned tt)
  ∧ announced `sublist_of` orders
  ∧ (∀ order, order ∈ orders ->
       isPairActive w peer (Order.pairId order) = false -> order ∉ announced).
Proof.
  intros announced. split_and!.
  - apply handlePacket_orders_announced.
  - apply sublist_filter.
  - intros order _ Hinactive [Hactive _]%list_elem_of_filter. congruence.
Qed.

Lemma handleGetNodes_pool (o : Oracle) (p : Pool.t) (id : PeerId)
    (reqId : string) :
  (run o (handleGetNodes id reqId) p).1.1 = p.
Proof.
  unfold handleGetNodes, readPeer. simpl.
  destruct (store p !! id); simpl; [|done]. by destruct (o _).
Qed.

Lemma handleGetNodes_calls (o : Oracle) (p : Pool.t) (id : PeerId)
    (reqId : string) :
  ∀ c, c ∈ (run o (handleGetNodes id reqId) p).1.2 ->
       ∃ nodes, c = Pool.Peer_sendNodes id nodes reqId.
Proof.
  unfold handleGetNodes, readPeer. simpl.
  destruct (store p !! id); simpl; [|by intros c ?%elem_of_nil].
  intros c. destruct (o _); simpl; rewrite list_elem_of_singleton; eauto.
Qed.

Ltac pick_event :=
  intros;
  repeat match goal with
    | H : _ ∈ _ :: _ |- _ => apply elem_of_cons in H as [H|H]
    | H : _ ∈ [] |- _ => by apply elem_of_nil in H
    end;
  simplify_eq/=; split_and?; auto.

(** X21.  [handlePacket] leaves the state of the pool as it is, unless the
    packet is a [Nodes] packet, on which connections are attempted.  It
    throws only if the reply to a [GetNodes] request fails, or, a
    TypeError, on a packet without the body that is read from it, and then
    nothing has been emitted.  Every [packet.order] it emits carries an
    order of the packet, the public key of the sending peer, and a pair
    that is active for that peer; every [packet.orderInvalidation] it emits
    carries that key and a pair that is active for that peer. *)
Theorem handlePacket_relays (w : World) (s : State) (peer : PeerId)
    (packet : Packet.t) :
  let '(s', calls, r) := handlePacket peer packet w s in
  let sender := nonNull (pubKeyOf s peer) in
  ((∀ nodes, Packet.body packet ≠ Packet.Nodes nodes) -> s' = s)
  ∧ (r = Returned tt
     ∨ (Packet.body packet = Packet.GetNodes ∧ ∃ e, r = Thrown e)
     ∨ (∃ type, Packet.body packet = Packet.Bodiless type
                ∧ calls = []
                ∧ r = Thrown (errors.OTHER "TypeError")))
  ∧ (∀ incoming, Emit (packet_order incoming) ∈ calls ->
       IncomingOrder.peerPubKey incoming = sender
       ∧ isPairActive w peer (Order.pairId (IncomingOrder.order incoming))
         = true
       ∧ (Packet.body packet = Packet.Order (IncomingOrder.order incoming)
          ∨ ∃ orders, Packet.body packet = Packet.Orders orders
                      ∧ IncomingOrder.order incoming ∈ orders))
  ∧ (∀ invalidation key,
       Emit (packet_orderInvalidation invalidation key) ∈ calls ->
       key = sender
       ∧ isPairActive w peer (OrderInvalidation.pairId invalidation) = true).
Proof.
  destruct packet as [id body].
  destruct body
    as [order|invalidation|pairIds|orders| |nodes|ns|b|b|b|b|kind|ty].
  - unfold handlePacket, mbind, Method_bind, bind, world, state, start. cbn.
    destruct (isPairActive w peer (Order.pairId order)) eqn:Hactive; cbn;
      [destruct (truthy (Order.replaceOrderId order)); cbn|].
    all: split_and!; try done; auto.
    all: pick_event.
  - unfold handlePacket, mbind, Method_bind, bind, world, state, start. cbn.
    destruct (isPairActive w peer _) eqn:Hactive; cbn.
    all: split_and!; try done; auto.
    all: pick_event.
  - unfold handlePacket, mbind, Method_bind, bind, world, state, start. cbn.
    split_and!; try done; auto.
    all: pick_event.
  - rewrite handlePacket_orders_announced. cbn. split_and!; try done; auto.
    + intros incoming (order & Heq & Hin & Hactive)%elem_of_map_filter.
      injection Heq as ->. cbn. split_and!; try done. right. eauto.
    + intros inv key (order & Heq & _)%elem_of_map_filter. discriminate.
  - cbv beta iota zeta
      delta [handlePacket mbind Method_bind bind world state connection
             Packet.body Packet.id].
    pose proof (handleGetNodes_pool (settle w) (connections s) peer id) as Hpool.
    pose proof (handleGetNodes_calls (settle w) (connections s) peer id)
      as Hcalls.
    destruct (run (settle w) (handleGetNodes peer id) (connections s))
      as [[p calls] r]. cbn in *. subst p.
    split_and!.
    + intros _. apply with_connections_same.
    + destruct r as [[]|e]; [by left|]. right. left. eauto.
    + intros incoming (c & Heq & _)%list_elem_of_fmap. discriminate.
    + intros inv key (c & Heq & _)%list_elem_of_fmap. discriminate.
  - unfold handlePacket, mbind, Method_bind, bind, world, state. cbn.
    rewrite connectNodes_selected. cbn. split_and!; try done; auto.
    + intros incoming (node & Heq & _)%elem_of_map_filter. discriminate.
    + intros inv key (node & Heq & _)%elem_of_map_filter. discriminate.
  - unfold handlePacket, mbind, Method_bind, bind, world, state. cbn.
    split_and!; try done; auto; pick_event.
  - unfold handlePacket, mbind, Method_bind, bind, world, state, start. cbn.
    split_and!; try done; auto; pick_event.
  - unfold handlePacket, mbind, Method_bind, bind, world, state, start. cbn.
    split_and!; try done; auto; pick_event.
  - unfold handlePacket, mbind, Method_bind, bind, world, state, start. cbn.
    split_and!; try done; auto; pick_event.
  - unfold handlePacket, mbind, Method_bind, bind, world, state, start. cbn.
    split_and!; try done; auto; pick_event.
  - unfold handlePacket, mbind, Method_bind, bind, world, state, start, throw.
    destruct kind; cbn.
    all: split_and!; try done; auto; try pick_event.
    all: right; right; eauto.
  - unfold handlePacket, mbind, Method_bind, bind, world, state. cbn.
    split_and!; try done; auto; pick_event.
Qed.

Lemma handlePacket_relays_replacement :
  handlePacket 0%nat
    (Packet.mk "4e1d"
       (Packet.Order (Order.mk "order-2" "LTC/BTC" (Some "order-1") "")))
    Sample.world Sample.nodeB
  = (Sample.nodeB,
     [Emit (packet_orderInvalidation
              (OrderInvalidation.mk "order-1" "LTC/BTC" None) "aa");
      Emit (packet_order
              (IncomingOrder.mk
                 (Order.mk "order-2" "LTC/BTC" (Some "order-1") "") "aa"))],
     Returned tt)
  ∧ isPairActive Sample.world 0%nat "LTC/BTC" = true.
Proof.
  set (packet := Packet.mk "4e1d"
         (Packet.Order (Order.mk "order-2" "LTC/BTC" (Some "order-1") ""))).
  split; [reflexivity|].
  pose proof (handlePacket_relays Sample.world Sample.nodeB 0%nat packet)
    as Hrelays.
  assert (Hrun : handlePacket 0%nat packet Sample.world Sample.nodeB
                 = (Sample.nodeB,
                    [Emit (packet_orderInvalidation
                             (OrderInvalidation.mk "order-1" "LTC/BTC" None)
                             "aa");
                     Emit (packet_order
                             (IncomingOrder.mk
                                (Order.mk "order-2" "LTC/BTC" (Some "order-1") "")
                                "aa"))],
                    Returned tt)) by reflexivity.
  rewrite Hrun in Hrelays.
  destruct Hrelays as (_ & _ & _ & Hinvalidation).
  destruct (Hinvalidation (OrderInvalidation.mk "order-1" "LTC/BTC" None) "aa")
    as [_ Hactive]; [apply list_elem_of_here|].
  exact Hactive.
Defined.

(** ** Reputation events of a peer *)

(** X22.  The listener of a peer's [reputation] event passes the event to
    [addReputationEvent] under the public key of the peer, so that it is
    recorded exactly when the key of the peer is known and the pool is
    strict or the event is one of ManualBan, ManualUnban, SwapAbuse,
    SwapMisbehavior, WireProtocolErr, InvalidAuth; otherwise nothing is
    called.  The pool is not changed. *)
Theorem onReputation_forwards (w : World) (s : State) (peer : PeerId)
    (event : ReputationEvent.t) :
  let '(s', calls, _) := onReputation peer event w s in
  let record key := Connection (Nodes_addReputationEvent key event) in
  s' = s
  ∧ (∀ c, c ∈ calls -> c = record (nonNull (pubKeyOf s peer)))
  ∧ (record (nonNull (pubKeyOf s peer)) ∈ calls
     ↔ truthy (pubKeyOf s peer) = true
       ∧ (strict (connections s) = true ∨ event ∈ severeEvents)).
Proof.
  assert (Hsev : bool_decide (event ∈ severeEvents)
    = bool_decide (event = ReputationEvent.ManualBan)
      || bool_decide (event = ReputationEvent.ManualUnban)
      || bool_decide (event = ReputationEvent.SwapAbuse)
      || bool_decide (event = ReputationEvent.SwapMisbehavior)
      || bool_decide (event = ReputationEvent.WireProtocolErr)
      || bool_decide (event = ReputationEvent.InvalidAuth)).
  { unfold severeEvents.
    apply eq_true_iff_eq. rewrite bool_decide_eq_true, !orb_true_iff.
    rewrite !bool_decide_eq_true, !elem_of_cons, elem_of_nil. tauto. }
  unfold onReputation, mbind, Method_bind, bind, state, connection,
    addReputationEvent. cbn.
  destruct (truthy (pubKeyOf s peer)); cbn.
  2: { split_and!; [done|by intros c ?%elem_of_nil|].
       split; [by intros ?%elem_of_nil|by intros [? _]]. }
  destruct (strict (connections s)); cbn.
  - destruct (settle w _); cbn; rewrite with_connections_same.
    all: split_and!; [done|by intros c ->%list_elem_of_singleton|].
    all: split; [auto|intros _; apply list_elem_of_here].
  - rewrite <- Hsev. case_bool_decide as Hin; cbn.
    + destruct (settle w _); cbn; rewrite with_connections_same.
      all: split_and!; [done|by intros c ->%list_elem_of_singleton|].
      all: split; [auto|intros _; apply list_elem_of_here].
    + rewrite with_connections_same.
      split_and!; [done|by intros c ?%elem_of_nil|].
      split; [by intros ?%elem_of_nil|]. intros [_ [?|?]]; done.
Qed.

(** ** Peers by their key *)

(** X23.  The operations that name a peer by its public key look it up in
    the peers map.  For a key that is not in the map, [getPeer],
    [closePeer], [sendToPeer] and [discoverNodes] throw NOT_CONNECTED with
    that key, [tryGetPeer] gives nothing and the [node.ban] listener does
    nothing; none of them makes a call.  For a key that is in the map each
    of them makes exactly one call, on the peer stored under the key
    ([close] with the reason and payload given, [sendPacket] with the packet
    given, [discoverNodes], [close] with reason Banned and the events), and
    ends as that call settles.  The pool is never changed. *)
Theorem peer_by_key (w : World) (s : State) (nodePubKey : string) :
  (JsMap.get nodePubKey (peers (connections s)) = None ->
   let notConnected {A : Type} : State * list Call * Completion A :=
     (s, [], Thrown (errors.NOT_CONNECTED nodePubKey)) in
   getPeer nodePubKey (connections s)
   = Thrown (errors.NOT_CONNECTED nodePubKey)
   ∧ tryGetPeer nodePubKey (connections s) = None
   ∧ (∀ reason reasonPayload,
        closePeer nodePubKey reason reasonPayload w s = notConnected)
   ∧ (∀ packet, sendToPeer nodePubKey packet w s = notConnected)
   ∧ discoverNodes nodePubKey w s = notConnected
   ∧ ∀ events, onNodeBan nodePubKey events w s = (s, [], Returned tt))
  ∧ (∀ peer,
       JsMap.get nodePubKey (peers (connections s)) = Some peer ->
       getPeer nodePubKey (connections s) = Returned peer
       ∧ tryGetPeer nodePubKey (connections s) = Some peer
       ∧ (∀ reason reasonPayload,
            let c := Peer_close peer reason (text <$> reasonPayload) in
            closePeer nodePubKey reason reasonPayload w s
            = (s, [c], outcomeOf w c))
       ∧ (∀ packet,
            let c := Peer_sendPacket peer packet in
            sendToPeer nodePubKey packet w s = (s, [c], outcomeOf w c))
       ∧ (∀ n, answer w (Peer_discoverNodes peer) = Count n ->
            discoverNodes nodePubKey w s
            = (s, [Peer_discoverNodes peer], Returned n))
       ∧ (∀ e, answer w (Peer_discoverNodes peer) = Failed e ->
            discoverNodes nodePubKey w s
            = (s, [Peer_discoverNodes peer], Thrown e))
       ∧ ∀ events,
           onNodeBan nodePubKey events w s
           = (s, [Peer_close peer (Some DisconnectionReason.Banned)
                    (Some (json events))], Returned tt)).
Proof.
  split.
  - intros Hnone.
    unfold getPeer, tryGetPeer, closePeer, sendToPeer, discoverNodes, onNodeBan,
      getPeer, mbind, Method_bind, bind, state. cbn. rewrite Hnone.
    by split_and!.
  - intros peer Hsome.
    unfold getPeer, tryGetPeer, closePeer, sendToPeer, discoverNodes, onNodeBan,
      getPeer, outcomeOf, mbind, Method_bind, bind, state, await. cbn.
    rewrite Hsome. split_and!; try done.
    + intros reason payload. cbn. by destruct (answer w _).
    + intros packet. cbn. by destruct (answer w _).
    + intros n ->. done.
    + intros e ->. done.
Qed.

Lemma peer_by_key_A :
  closePeer "aa" (Some DisconnectionReason.Shutdown) None Sample.world
    Sample.nodeB
  = (Sample.nodeB,
     [Peer_close 0%nat (Some DisconnectionReason.Shutdown) None],
     Returned tt)
  ∧ discoverNodes "dd" Sample.world Sample.nodeB
    = (Sample.nodeB, [], Thrown (errors.NOT_CONNECTED "dd")).
Proof.
  split.
  - destruct (peer_by_key Sample.world Sample.nodeB "aa") as [_ Hconnected].
    destruct (Hconnected 0%nat) as (_ & _ & Hclose & _); [reflexivity|].
    exact (Hclose (Some DisconnectionReason.Shutdown) None).
  - destruct (peer_by_key Sample.world Sample.nodeB "dd") as [Hmissing _].
    destruct Hmissing as (_ & _ & _ & _ & Hdiscover & _); [reflexivity|].
    exact Hdiscover.
Defined.

(** ** The external address *)

Lemma existsb_host (ip : string) (l : list Address.t) :
  existsb (fun address => String.eqb (Address.host address) ip) l = true
  ↔ ∃ address, address ∈ l ∧ Address.host address = ip.
Proof.
  rewrite existsb_exists. split; intros (a & Hin & Ha); exists a.
  - split; [by apply list_elem_of_In|]. by apply String.eqb_eq.
  - split; [by apply list_elem_of_In|]. by apply String.eqb_eq.
Qed.

Lemma detectExternalIpAddress_advertised (w : World) (s : State) (ip : string) :
  answer w GetExternalIp = Text ip ->
  advertises ip s ->
  detectExternalIpAddress w s = (s, [GetExternalIp], Returned tt).
Proof.
  intros Hanswer Hadv%existsb_host.
  unfold detectExternalIpAddress, catch, mbind, Method_bind, bind, await, state.
  rewrite Hanswer. cbn. by rewrite Hadv.
Qed.

(** X24.  [detectExternalIpAddress] never throws and never touches the
    connections.  When the external address cannot be retrieved, nothing
    changes.  When it is retrieved, the advertised addresses hold an
    address with that host afterwards: if one was there already the node
    state is unchanged; otherwise one address is appended, with that host
    and the listen port.  Detecting the same address once more changes
    nothing. *)
Theorem detectExternalIpAddress_adds_once (w : World) (s : State) :
  let '(s', calls, r) := detectExternalIpAddress w s in
  r = Returned tt
  ∧ calls = [GetExternalIp]
  ∧ connections s' = connections s
  ∧ (∀ e, answer w GetExternalIp = Failed e -> s' = s)
  ∧ ∀ ip, answer w GetExternalIp = Text ip ->
      advertises ip s'
      ∧ (advertises ip s -> s' = s)
      ∧ (¬ advertises ip s ->
         NodeState.addresses (nodeState s')
         = NodeState.addresses (nodeState s)
           ++ [Address.mk ip (default 0 (listenPort (connections s))) None])
      ∧ detectExternalIpAddress w s' = (s', [GetExternalIp], Returned tt).
Proof.
  destruct (detectExternalIpAddress w s) as [[s' calls] r] eqn:Hrun.
  unfold detectExternalIpAddress, catch, mbind, Method_bind, bind, await, state
    in Hrun.
  destruct (answer w GetExternalIp) as [| |ip|e] eqn:Hanswer; cbn in Hrun;
    try (injection Hrun as <- <- <-; split_and!; done).
  destruct (existsb _ _) eqn:Hex; cbn in Hrun; injection Hrun as <- <- <-.
  - apply existsb_host in Hex as Hadv. split_and!; try done.
    intros ? [= <-]. split_and!; [done|done| |].
    + intros Hno. by destruct Hno.
    + by apply (detectExternalIpAddress_advertised w s ip).
  - split_and!; try done. intros ? [= <-].
    assert (Hno : ¬ advertises ip s).
    { intros Hadv%existsb_host. congruence. }
    match goal with
    | |- advertises ip ?s1 ∧ _ => assert (Hnow : advertises ip s1)
    end.
    { eexists. split; [apply elem_of_app; right; apply list_elem_of_here|done]. }
    split_and!; try done.
    by apply (detectExternalIpAddress_advertised w _ ip).
Qed.

Lemma detectExternalIpAddress_adds_once_B :
  let '(s', calls, r) := detectExternalIpAddress Sample.world Sample.nodeB in
  NodeState.addresses (nodeState s') = [Address.mk "203.0.113.5" 9735 None]
  ∧ detectExternalIpAddress Sample.world s' = (s', [GetExternalIp], Returned tt).
Proof.
  pose proof (detectExternalIpAddress_adds_once Sample.world Sample.nodeB)
    as Hdetect.
  destruct (detectExternalIpAddress Sample.world Sample.nodeB)
    as [[s' calls] r].
  destruct Hdetect as (_ & _ & _ & _ & Hfound).
  destruct (Hfound "203.0.113.5") as (_ & _ & Hnew & Hagain); [reflexivity|].
  split; [|exact Hagain].
  apply Hnew. intros (address & Hin & _). by apply elem_of_nil in Hin.
Defined.

(** ** Newly opened peers *)

Lemma stampLastConnected_lookup (peerAddress : Address.t) (now : Z)
    (addresses : list Address.t) (i : nat) :
  stampLastConnected peerAddress now addresses !! i
  = (fun address =>
       if addressUtils.areEqual peerAddress address
       then Address.mk (Address.host address) (Address.port address) (Some now)
       else address) <$> addresses !! i.
Proof. unfold stampLastConnected. apply list_lookup_fmap. Qed.

Lemma discoveryTimer_period (minutes : Z) :
  minutes ≠ 0 ->
  discoveryTimer minutes = Some (timerPeriod (minutes * 1000 * 60)).
Proof.
  intros Hne. unfold discoveryTimer, timerPeriod.
  rewrite decide_False by done.
  case_decide; case_bool_decide; f_equal; lia.
Qed.

(** X25.  For a peer that advertised addresses, and with its requests going
    through, [handleOpenedPeer] emits [peer.verifyPairs]; if discovery is
    enabled it requests the peer's nodes and sets the discovery timer: to
    none when 0 minutes are configured, to a period of that many minutes
    when up to 35791 minutes are configured, and to a period of one
    millisecond when more are, or a negative number; then it enters the
    peer in the node list, creating the node if unknown and updating its
    addresses otherwise, and ends as that call settles; the pool is not
    changed.  What is entered for an inbound peer are the addresses as
    advertised and no last address; for an outbound peer the address
    dialled is the last address, and the addresses entered are the
    advertised ones, as many, with the same hosts and ports in the same
    order, where exactly those equal to the address dialled have the
    current time as [lastConnected]. *)
Theorem handleOpenedPeer_records (w : World) (s : State) (peer : PeerId)
    (opened : Peer.t) (advertised : list Address.t) :
  store (connections s) !! peer = Some opened ->
  Peer.addresses opened = Some advertised ->
  (discover s = true -> answer w (Peer_sendGetNodes peer) = Fulfilled) ->
  let recorded :=
    if Peer.inbound opened then advertised
    else stampLastConnected (Peer.address opened) (now w) advertised in
  handleOpenedPeer peer w s
  = (s,
     Emit (lifecycle (peer_verifyPairs peer))
       :: discoveryCalls s peer ++ [nodeEntry w opened (Some recorded)],
     outcomeOf w (nodeEntry w opened (Some recorded)))
  ∧ length recorded = length advertised
  ∧ ∀ i address,
      advertised !! i = Some address ->
      ∃ address',
        recorded !! i = Some address'
        ∧ Address.host address' = Address.host address
        ∧ Address.port address' = Address.port address
        ∧ Address.lastConnected address'
          = if negb (Peer.inbound opened)
               && addressUtils.areEqual (Peer.address opened) address
            then Some (now w)
            else Address.lastConnected address.
Proof.
  intros Hpeer Hadv Hget recorded. split_and!.
  - unfold handleOpenedPeer, discoveryCalls, nodeEntry, outcomeOf,
      mbind, Method_bind, bind, world, state, start, await, connection,
      readPeer.
    subst recorded. cbn.
    destruct (discover s) eqn:Hd; cbn.
    + rewrite (Hget eq_refl). cbn.
      case_bool_decide as Hminutes;
        [unfold discoveryTimer; rewrite decide_True by done
        |rewrite discoveryTimer_period by done];
        cbn; rewrite Hpeer; cbn; rewrite with_connections_same.
      all: destruct (Peer.inbound opened); cbn; rewrite ?Hadv; cbn.
      all: destruct (nodesHas w _); cbn.
      all: match goal with
           | |- context [answer ?w' ?c] => by destruct (answer w' c)
           end.
    + rewrite Hpeer. cbn. rewrite with_connections_same.
      destruct (Peer.inbound opened); cbn; rewrite ?Hadv; cbn.
      all: destruct (nodesHas w _); cbn.
      all: match goal with
           | |- context [answer ?w' ?c] => by destruct (answer w' c)
           end.
  - subst recorded. destruct (Peer.inbound opened); [done|].
    unfold stampLastConnected. by rewrite length_map.
  - intros i address Hi. subst recorded.
    destruct (Peer.inbound opened); cbn; [by eauto|].
    rewrite stampLastConnected_lookup, Hi. cbn.
    destruct (addressUtils.areEqual _ _); eauto.
Qed.

Lemma handleOpenedPeer_records_A :
  handleOpenedPeer 0%nat Sample.world Sample.nodeB
  = (Sample.nodeB,
     [Emit (lifecycle (peer_verifyPairs 0%nat));
      Peer_sendGetNodes 0%nat;
      Peer_discoverTimer 0%nat (Some 600000);
      Nodes_updateAddresses "aa"
        (Some [Address.mk "192.0.2.1" 9735 (Some 1600000000000)])
        (Some Sample.addressA)],
     Returned tt)
  ∧ (handleOpenedPeer 0%nat Sample.world Sample.nodeB_monthly).1.2 !! 2%nat
    = Some (Peer_discoverTimer 0%nat (Some 1)).
Proof.
  destruct (handleOpenedPeer_records Sample.world Sample.nodeB 0%nat
              (Peer.with_active true (Sample.greetedOutboundA true))
              [Sample.addressA]) as [Hrecords _];
    [reflexivity|reflexivity|reflexivity|].
  destruct (handleOpenedPeer_records Sample.world Sample.nodeB_monthly 0%nat
              (Peer.with_active true (Sample.greetedOutboundA true))
              [Sample.addressA]) as [Hmonthly _];
    [reflexivity|reflexivity|reflexivity|].
  split; [exact Hrecords|]. rewrite Hmonthly. reflexivity.
Defined.

Ltac not_among :=
  let Hin := fresh in
  intros ? Hin;
  repeat (apply elem_of_cons in Hin as [Hin|Hin]; [discriminate|]);
  by apply elem_of_nil in Hin.

Lemma handleOpenedPeer_shape (w : World) (s : State) (peer : PeerId) :
  ∃ rest,
    (handleOpenedPeer peer w s).1
    = (s, Emit (lifecycle (peer_verifyPairs peer)) :: rest)
    ∧ ∀ key, Emit (lifecycle (peer_active key)) ∉ rest.
Proof.
  unfold handleOpenedPeer, mbind, Method_bind, bind, world, state, start, await,
    connection, readPeer. cbn.
  destruct (discover s); cbn.
  1: destruct (answer w (Peer_sendGetNodes peer)); cbn;
     try (eexists; split; [reflexivity|]; not_among).
  all: try case_bool_decide; cbn.
  all: destruct (store (connections s) !! peer) as [opened|]; cbn;
    rewrite ?with_connections_same;
    [|eexists; split; [reflexivity|]; not_among].
  all: destruct (Peer.inbound opened); cbn;
    [|destruct (Peer.addresses opened); cbn;
      [|eexists; split; [reflexivity|]; not_among]].
  all: destruct (nodesHas w _); cbn.
  all: match goal with
       | |- context [answer ?w' ?c] => destruct (answer w' c)
       end; cbn.
  all: eexists; (split; [reflexivity|]); not_among.
Qed.

(** X26.  The routine that [openPeer] leaves running for an admitted peer
    never rejects and never changes the pool.  It begins by emitting
    [peer.verifyPairs]; it emits [peer.active] for the peer exactly when
    [handleOpenedPeer] has gone through, and then as its last act; when
    [handleOpenedPeer] fails, no [peer.active] is emitted. *)
Theorem openedPeerRoutine_announces (w : World) (s : State) (peer : PeerId)
    (peerPubKey : string) :
  let '(s', calls, r) := openedPeerRoutine peer peerPubKey w s in
  r = Returned tt
  ∧ s' = s
  ∧ head calls = Some (Emit (lifecycle (peer_verifyPairs peer)))
  ∧ match (handleOpenedPeer peer w s).2 with
    | Returned _ =>
        last calls = Some (Emit (lifecycle (peer_active peerPubKey)))
    | Thrown _ => ∀ key, Emit (lifecycle (peer_active key)) ∉ calls
    end.
Proof.
  destruct (handleOpenedPeer_shape w s peer) as (rest & Hshape & Hrest).
  unfold openedPeerRoutine, catch, mbind, Method_bind, bind, start.
  destruct (handleOpenedPeer peer w s) as [[s1 calls1] [[]|e]]; cbn in *.
  all: injection Hshape as -> ->; cbn.
  - split_and!; try done. by rewrite app_comm_cons, last_snoc.
  - rewrite app_nil_r. split_and!; try done.
    intros key [Heq|Hin]%elem_of_cons; [done|]. by apply (Hrest key).
Qed.

End ServiceFacts.
